(** * Neighbour lists of [ase/neighborlist.py]

    A shallow embedding of [neighbor_list], [first_neighbors] and of the
    classes [NeighborList] and [PrimitiveNeighborList], with the properties
    the specification states about them.

    Numbers.  numpy's [float64] is Rocq's primitive binary64 [float].
    numpy's [int64] is [Z] with the wrap-around written out ([wrap64])
    where a result can leave the 64-bit range: the conversion
    [astype(int)] of a float ([astype_int]), the bounds of the loops over
    the bin offsets and the offsets added to the bin coordinates, and the
    arithmetic on shift vectors and displacements.  Counts and indices of
    atoms, of bins and of pairs are sizes of arrays that the program holds
    in memory; their arithmetic is that of [Z].  The integers of Python
    are [Z].

    Arrays.  A one-dimensional array is a [list]; an [(n,3)] array is a list
    of triples.  Arrays that the source always masks and permutes together
    ([i_n], [j_n], [S_n], [dr_nc], [abs_dr_n]) are one list of records.

    Exceptions.  A Python exception is the [Raise] outcome of [result]. *)

From Stdlib Require Import ZArith List Bool Lia Permutation FinFun.
From Stdlib Require Import Sorting.Sorted.
From Stdlib Require String.
From Stdlib Require Import Ascii.
From Stdlib Require Import Floats.
From Stdlib Require Uint63.
Import ListNotations.
Local Open Scope Z_scope.

(** ** Exceptions *)

Inductive exn : Type :=
| ValueError
| IndexError
| AttributeError
| OverflowError
| ZeroDivisionError
| AssertionError
| FuelExhausted.

Inductive result (A : Type) : Type :=
| Ok (a : A)
| Raise (e : exn).

Arguments Ok {A} a.
Arguments Raise {A} e.

Definition bind {A B : Type} (r : result A) (k : A -> result B) : result B :=
  match r with
  | Ok a => k a
  | Raise e => Raise e
  end.

Notation "x <- c ;; k" := (bind c (fun x => k))
  (at level 61, c at next level, right associativity).
Notation "' pat <- c ;; k" := (bind c (fun x => match x with pat => k end))
  (at level 61, pat pattern, c at next level, right associativity).

Fixpoint mapM {A B : Type} (f : A -> result B) (l : list A) : result (list B) :=
  match l with
  | [] => Ok []
  | x :: t => y <- f x ;; t' <- mapM f t ;; Ok (y :: t')
  end.

Fixpoint foldM {A S : Type} (f : S -> A -> result S) (l : list A) (s : S)
  : result S :=
  match l with
  | [] => Ok s
  | x :: t => s' <- f s x ;; foldM f t s'
  end.

(** ** Python sequences *)

Definition len {A : Type} (l : list A) : Z := Z.of_nat (length l).

(** [l[k]]: an index in [-len, len), negative ones counting from the end. *)
Definition py_norm (n k : Z) : option nat :=
  if (0 <=? k) && (k <? n) then Some (Z.to_nat k)
  else if (- n <=? k) && (k <? 0) then Some (Z.to_nat (n + k))
  else None.

Definition py_index {A : Type} (l : list A) (k : Z) : result A :=
  match py_norm (len l) k with
  | Some p => match nth_error l p with Some x => Ok x | None => Raise IndexError end
  | None => Raise IndexError
  end.

Fixpoint set_nth {A : Type} (p : nat) (v : A) (l : list A) : list A :=
  match l, p with
  | [], _ => []
  | _ :: t, O => v :: t
  | x :: t, S p' => x :: set_nth p' v t
  end.

(** [l[k] = v] *)
Definition py_set {A : Type} (l : list A) (k : Z) (v : A) : result (list A) :=
  match py_norm (len l) k with
  | Some p => Ok (set_nth p v l)
  | None => Raise IndexError
  end.

(** [l[lo:hi]] *)
Definition py_bound (n k : Z) : nat :=
  Z.to_nat (Z.min n (Z.max 0 (if k <? 0 then n + k else k))).

Definition py_slice {A : Type} (l : list A) (lo hi : Z) : list A :=
  let a := py_bound (len l) lo in
  let b := py_bound (len l) hi in
  firstn (b - a) (skipn a l).

(** [range(lo, hi)] *)
Definition zrange (lo hi : Z) : list Z :=
  map (fun k => lo + Z.of_nat k) (seq 0 (Z.to_nat (hi - lo))).

(** [x[m]] for a boolean mask [m] *)
Fixpoint mask_select {A : Type} (m : list bool) (l : list A) : list A :=
  match m, l with
  | b :: m', x :: l' => if b then x :: mask_select m' l' else mask_select m' l'
  | _, _ => []
  end.

(** [x[:-1] != x[1:]] *)
Fixpoint neq_next (l : list Z) : list bool :=
  match l with
  | x :: (y :: _) as t => negb (x =? y) :: neq_next t
  | _ => []
  end.

(** [np.argsort] followed by the gather [x[i]], as one stable sort by an
    integer key.  numpy's default sort is not stable; the order of equal keys
    is left open by the source ("the order of (i,j) pairs is not
    guaranteed") and nothing below depends on it. *)
Fixpoint insert_by {A : Type} (key : A -> Z) (x : A) (l : list A) : list A :=
  match l with
  | [] => [x]
  | y :: t => if key x <=? key y then x :: y :: t else y :: insert_by key x t
  end.

Fixpoint sort_by {A : Type} (key : A -> Z) (l : list A) : list A :=
  match l with
  | [] => []
  | x :: t => insert_by key x (sort_by key t)
  end.

(** [np.bincount(l)] for non-negative [l], and [.max()] of an integer array *)
Definition zmax_list (l : list Z) : result Z :=
  match l with
  | [] => Raise ValueError
  | x :: t => Ok (fold_left Z.max t x)
  end.

Definition zcount (k : Z) (l : list Z) : Z :=
  len (filter (Z.eqb k) l).

Definition bincount (l : list Z) : result (list Z) :=
  match l with
  | [] => Ok []
  | x :: t =>
      if existsb (fun k => k <? 0) l then Raise ValueError
      else Ok (map (fun k => zcount k l) (zrange 0 (fold_left Z.max t x + 1)))
  end.

(** ** Integers of 64 bits *)

Definition INT64_MIN : Z := - 2 ^ 63.

(** What an [int64] operation keeps of its exact result: numpy wraps around
    without an error. *)
Definition wrap64 (z : Z) : Z := (z + 2 ^ 63) mod 2 ^ 64 - 2 ^ 63.

Definition in_int64 (z : Z) : bool := (INT64_MIN <=? z) && (z <? 2 ^ 63).

(** ** Floating point *)

Local Open Scope float_scope.

Definition vec3 : Type := float * float * float.
Definition mat3 : Type := vec3 * vec3 * vec3.
Definition ivec3 : Type := (Z * Z * Z)%type.
Definition bvec3 : Type := (bool * bool * bool)%type.

(** An [int64] as a [float64], rounded to the nearest: the magnitude of
    every [int64] but [INT64_MIN] is an unsigned integer of 63 bits, and
    [INT64_MIN] is [-2^63]. *)
Definition Z2F (z : Z) : float :=
  if (z =? INT64_MIN)%Z then - 0x1p63
  else if (z <? 0)%Z then - of_uint63 (Uint63.of_Z (- z))
  else of_uint63 (Uint63.of_Z z).

(** The integer part of a float, rounded down, up, towards zero and to the
    nearest even; [None] for infinities and NaN. *)
Definition SF_floor (x : spec_float) : option Z :=
  match x with
  | S754_zero _ => Some 0%Z
  | S754_finite s m e => Some (Z.shiftl (cond_Zopp s (Zpos m)) e)
  | _ => None
  end.

Definition SF_ceil (x : spec_float) : option Z :=
  match x with
  | S754_zero _ => Some 0%Z
  | S754_finite s m e => Some (- Z.shiftl (cond_Zopp (negb s) (Zpos m)) e)%Z
  | _ => None
  end.

Definition SF_trunc (x : spec_float) : option Z :=
  match x with
  | S754_zero _ => Some 0%Z
  | S754_finite s m e => Some (cond_Zopp s (Z.shiftl (Zpos m) e))
  | _ => None
  end.

Definition SF_rint (x : spec_float) : option Z :=
  match x with
  | S754_zero _ => Some 0%Z
  | S754_finite s m e =>
      if (0 <=? e)%Z then Some (cond_Zopp s (Z.shiftl (Zpos m) e))
      else
        let d := (2 ^ (- e))%Z in
        let q := (Zpos m / d)%Z in
        let r := (Zpos m mod d)%Z in
        let q' := match (2 * r ?= d)%Z with
                  | Lt => q
                  | Gt => (q + 1)%Z
                  | Eq => if Z.even q then q else (q + 1)%Z
                  end in
        Some (cond_Zopp s q')
  | _ => None
  end.

(** [.astype(int)] of a float that is already integral: a value outside the
    [int64] range, an infinity or a NaN becomes [INT64_MIN] (the x86
    conversion numpy uses). *)
Definition astype_int (o : option Z) : Z :=
  match o with
  | Some z => if ((INT64_MIN <=? z) && (z <? 2 ^ 63))%Z then z else INT64_MIN
  | None => INT64_MIN
  end.

Definition floor_int (x : float) : Z := astype_int (SF_floor (Prim2SF x)).
Definition ceil_int (x : float) : Z := astype_int (SF_ceil (Prim2SF x)).
Definition trunc_int (x : float) : Z := astype_int (SF_trunc (Prim2SF x)).
Definition round_int (x : float) : Z := astype_int (SF_rint (Prim2SF x)).

(** Python's [int(x)] of a float. *)
Definition py_int (x : float) : result Z :=
  match Prim2SF x with
  | S754_nan => Raise ValueError
  | S754_infinity _ => Raise OverflowError
  | sf => match SF_trunc sf with Some z => Ok z | None => Raise ValueError end
  end.

(** [x != y] and numpy's NaN-propagating maximum. *)
Definition fneq (x y : float) : bool := negb (x =? y).

Definition np_maximum (x y : float) : float :=
  if is_nan x then x else if is_nan y then y else if x <? y then y else x.

Definition fmax_list (l : list float) : result float :=
  match l with
  | [] => Raise ValueError
  | x :: t => Ok (fold_left np_maximum t x)
  end.

(** ** Vectors *)

Definition vmap2 {A B C : Type} (f : A -> B -> C) (a : A * A * A) (b : B * B * B)
  : C * C * C :=
  let '(a0, a1, a2) := a in
  let '(b0, b1, b2) := b in
  (f a0 b0, f a1 b1, f a2 b2).

Definition vsub : vec3 -> vec3 -> vec3 := vmap2 PrimFloat.sub.
Definition vadd : vec3 -> vec3 -> vec3 := vmap2 PrimFloat.add.
(** [u + v], [u - v] and [-u] of [int64] rows *)
Definition ivadd : ivec3 -> ivec3 -> ivec3 := vmap2 (fun x y => wrap64 (x + y)).
Definition ivsub : ivec3 -> ivec3 -> ivec3 := vmap2 (fun x y => wrap64 (x - y)).

Definition ivneg (sh : ivec3) : ivec3 :=
  let '(x, y, z) := sh in (wrap64 (- x), wrap64 (- y), wrap64 (- z)).

(** The opposite vector, of integers without bound: the [-S] of a mirror
    pair. *)
Definition ivopp (sh : ivec3) : ivec3 :=
  let '(x, y, z) := sh in (- x, - y, - z)%Z.

Definition ivec_zero (sh : ivec3) : bool :=
  let '(x, y, z) := sh in ((x =? 0) && (y =? 0) && (z =? 0))%Z.

(** [np.sum(v*v)] and [np.dot(v, v)] of three components *)
Definition sqsum (v : vec3) : float :=
  let '(x, y, z) := v in (x * x + y * y) + z * z.

Definition column (m : mat3) (c : nat) : vec3 :=
  let '(r0, r1, r2) := m in
  let pick (r : vec3) := let '(x, y, z) := r in
                         match c with O => x | S O => y | _ => z end in
  (pick r0, pick r1, pick r2).

Definition dot3 (a b : vec3) : float :=
  let '(a0, a1, a2) := a in
  let '(b0, b1, b2) := b in
  (a0 * b0 + a1 * b1) + a2 * b2.

(** [np.dot(v, m)] for a float row [v], and for an integer row [S] (numpy
    converts the integers to float64 first) *)
Definition vec_dot_mat (v : vec3) (m : mat3) : vec3 :=
  (dot3 v (column m 0), dot3 v (column m 1), dot3 v (column m 2)).

Definition ivec_to_float (sh : ivec3) : vec3 :=
  let '(x, y, z) := sh in (Z2F x, Z2F y, Z2F z).

Definition ivec_dot_mat (sh : ivec3) (m : mat3) : vec3 :=
  vec_dot_mat (ivec_to_float sh) m.

(** ** Configurations *)

(** An [ase.Atoms] object, as far as this module reads it. *)
Record Atoms : Type := {
  positions : list vec3;
  cell : mat3;
  pbc : bvec3;
  numbers : list Z
}.

(** What the module calls and does not define: [numpy.linalg.pinv],
    [Atoms.get_scaled_positions(wrap=False)], which gives each atom the
    fractional coordinates of its position in the cell, and the table
    [ase.data.atomic_numbers] from chemical symbols to atomic numbers.
    Every property below holds whatever they return. *)
Class Externals : Type := {
  pinv : mat3 -> mat3;
  scaled_position : mat3 -> vec3 -> vec3;
  atomic_numbers : String.string -> option Z
}.

(** A key component of a pair-cutoff dictionary: an atomic number or a
    chemical symbol. *)
Inductive element : Type :=
| ElNum (z : Z)
| ElSym (s : String.string).

Inductive cutoff_spec : Type :=
| CutScalar (c : float)
| CutDict (d : list (element * element * float))
| CutArray (r : list float).

(** One neighbour pair: the five quantities ['i'], ['j'], ['S'], ['D'], ['d']. *)
Record pair : Type := {
  p_i : Z;
  p_j : Z;
  p_S : ivec3;
  p_D : vec3;
  p_d : float
}.

Definition cand : Type := (Z * Z * ivec3)%type.

Inductive column_of : Type :=
| ColInt (l : list Z)
| ColVec (l : list vec3)
| ColFloat (l : list float)
| ColShift (l : list ivec3).

Inductive retval : Type :=
| Single (c : column_of)
| Tuple (cs : list column_of).

Definition element_eqb (a b : element) : bool :=
  match a, b with
  | ElNum x, ElNum y => (x =? y)%Z
  | ElSym s, ElSym t => String.eqb s t
  | _, _ => false
  end.

(** [n == el] for an atomic number [n] of the configuration *)
Definition number_is (n : Z) (el : element) : bool :=
  match el with
  | ElNum z => (n =? z)%Z
  | ElSym _ => false
  end.

(** ** [neighbor_list] *)

Section NeighborSearch.
Context {E : Externals}.

(** [face_dist_c]: one over the norm of each reciprocal lattice vector. *)
Definition face_dist (a : Atoms) : vec3 :=
  let b := pinv (cell a) in
  (1 / sqrt (sqsum (column b 0)),
   1 / sqrt (sqsum (column b 1)),
   1 / sqrt (sqsum (column b 2))).

Definition max_cutoff (cutoff : cutoff_spec) : result float :=
  match cutoff with
  | CutDict d => fmax_list (map snd d)
  | CutScalar c => Ok c
  | CutArray r => m <- fmax_list r ;; Ok (2 * m)
  end.

(** [nbins_c] and the loop radii [ndx, ndy, ndz] *)
Definition nbins_c (fd : vec3) (mc : float) : ivec3 :=
  let '(f0, f1, f2) := fd in
  (Z.max (trunc_int (f0 / mc)) 1,
   Z.max (trunc_int (f1 / mc)) 1,
   Z.max (trunc_int (f2 / mc)) 1).

Definition loop_radius (fd : vec3) (mc : float) (n : ivec3) : ivec3 :=
  let '(f0, f1, f2) := fd in
  let '(n0, n1, n2) := n in
  (ceil_int (mc * Z2F n0 / f0),
   ceil_int (mc * Z2F n1 / f1),
   ceil_int (mc * Z2F n2 / f2)).

(** One axis of the binning of an atom: [np.divmod] on a periodic axis,
    [np.clip] on the others; the result is (cell shift, bin index). *)
Definition wrap_bin (periodic : bool) (raw n : Z) : Z * Z :=
  if periodic then (raw / n, raw mod n)%Z
  else (0, Z.min (Z.max raw 0) (n - 1))%Z.

Definition atom_bin (a : Atoms) (n : ivec3) (p : vec3) : ivec3 * ivec3 :=
  let '(s0, s1, s2) := scaled_position (cell a) p in
  let '(n0, n1, n2) := n in
  let '(p0, p1, p2) := pbc a in
  let '(c0, b0) := wrap_bin p0 (floor_int (s0 * Z2F n0)) n0 in
  let '(c1, b1) := wrap_bin p1 (floor_int (s1 * Z2F n1)) n1 in
  let '(c2, b2) := wrap_bin p2 (floor_int (s2 * Z2F n2)) n2 in
  ((c0, c1, c2), (b0, b1, b2)).

Definition flat_bin (n b : ivec3) : Z :=
  let '(n0, n1, _) := n in
  let '(b0, b1, b2) := b in
  (b0 + n0 * (b1 + n1 * b2))%Z.

(** [bins_ba[b, i] = v] *)
Definition set2 (B : list (list Z)) (b i v : Z) : result (list (list Z)) :=
  row <- py_index B b ;;
  row' <- py_set row i v ;;
  py_set B b row'.

(** One round of the loop that fills [bins_ba]: the first atom of every run
    of equal bin indices goes to column [i] of its bin and leaves the list.
    The state is the list of (atom, bin index) still to place and [bins_ba]. *)
Definition peel_step (st : list (Z * Z) * list (list Z)) (i : Z)
  : result (list (Z * Z) * list (list Z)) :=
  let '(rest, B) := st in
  match rest with
  | [] => Raise IndexError
  | _ =>
      let m := true :: neq_next (map snd rest) in
      B' <- foldM (fun B ab => set2 B (snd ab) i (fst ab)) (mask_select m rest) B ;;
      Ok (mask_select (map negb m) rest, B')
  end.

Definition fill_bins (nbins max_nat : Z) (sorted : list (Z * Z))
  : result (list (list Z)) :=
  ' (rest, B) <- foldM peel_step (zrange 0 max_nat)
                   (sorted,
                    repeat (repeat (-1)%Z (Z.to_nat max_nat)) (Z.to_nat nbins)) ;;
  match rest with
  | [] => Ok B
  | _ => Raise AssertionError
  end.

(** [bins_ba[b][p]] for [b] the index of a bin and [p] a column; both are in
    range wherever the search reads (lemma [neighbour_bin_range]). *)
Definition bin_slot (B : list (list Z)) (b p : Z) : Z :=
  nth (Z.to_nat p) (nth (Z.to_nat b) B []) (-1)%Z.

(** The candidate pairs of one bin offset [(dx, dy, dz)]: every bin against
    the bin at that offset, every slot against every slot, pad slots left
    out.  [bx_xyz + dx] is a sum of [int64]; [np.divmod] rounds down. *)
Definition offset_pairs (B : list (list Z)) (n : ivec3) (max_nat : Z)
  (d : ivec3) : list cand :=
  let '(n0, n1, n2) := n in
  let '(dx, dy, dz) := d in
  flat_map (fun bz => flat_map (fun by_ => flat_map (fun bx =>
    let b := (bx + n0 * (by_ + n1 * bz))%Z in
    let b1 := (wrap64 (bx + dx) mod n0
               + n0 * (wrap64 (by_ + dy) mod n1 + n1 * (wrap64 (bz + dz) mod n2)))%Z in
    let s := (wrap64 (bx + dx) / n0, wrap64 (by_ + dy) / n1,
              wrap64 (bz + dz) / n2)%Z in
    flat_map (fun p => flat_map (fun q =>
      let i := bin_slot B b p in
      let j := bin_slot B b1 q in
      if negb (i =? -1)%Z && negb (j =? -1)%Z then [(i, j, s)] else [])
      (zrange 0 max_nat)) (zrange 0 max_nat))
    (zrange 0 n0)) (zrange 0 n1)) (zrange 0 n2).

(** The three loops [for dz in range(-ndz, ndz+1)] ...: the radii are
    [int64] scalars, so [-ndz] and [ndz+1] wrap around; for the radius
    [INT64_MIN] the range is the single offset [INT64_MIN]. *)
Definition offset_range (nd : Z) : list Z :=
  zrange (wrap64 (- nd)) (wrap64 (nd + 1)).

Definition all_offsets (nd : ivec3) : list ivec3 :=
  let '(ndx, ndy, ndz) := nd in
  flat_map (fun dz => flat_map (fun dy =>
    map (fun dx => (dx, dy, dz)) (offset_range ndx))
    (offset_range ndy)) (offset_range ndz).

Definition nonempty {A : Type} (l : list A) : bool :=
  match l with [] => false | _ => true end.

(** The main search and [np.concatenate], which raises on no chunk at all. *)
Definition search (B : list (list Z)) (n : ivec3) (max_nat : Z) (nd : ivec3)
  : result (list cand) :=
  match filter nonempty (map (offset_pairs B n max_nat) (all_offsets nd)) with
  | [] => Raise ValueError
  | chunks => Ok (concat chunks)
  end.

(** [S_n += cell_shift_ic[i_n] - cell_shift_ic[j_n]], in [int64] *)
Definition add_cell_shift (cs : list ivec3) (c : cand) : result cand :=
  let '(i, j, sh) := c in
  si <- py_index cs i ;;
  sj <- py_index cs j ;;
  Ok (i, j, ivadd sh (ivsub si sj)).

Definition not_self (c : cand) : bool :=
  let '(i, j, sh) := c in negb ((i =? j)%Z && ivec_zero sh).

Definition drop_nonperiodic (pb : bvec3) (l : list cand) : list cand :=
  let '(p0, p1, p2) := pb in
  let l0 := if p0 then l
            else filter (fun c : cand => let '(_, _, (x, _, _)) := c in (x =? 0)%Z) l in
  let l1 := if p1 then l0
            else filter (fun c : cand => let '(_, _, (_, y, _)) := c in (y =? 0)%Z) l0 in
  if p2 then l1
  else filter (fun c : cand => let '(_, _, (_, _, z)) := c in (z =? 0)%Z) l1.

(** [dr_nc] and [abs_dr_n] of one pair *)
Definition displacement (a : Atoms) (pi pj : vec3) (sh : ivec3) : vec3 :=
  vadd (vsub pj pi) (ivec_dot_mat sh (cell a)).

Definition with_distance (a : Atoms) (c : cand) : result pair :=
  let '(i, j, sh) := c in
  pj <- py_index (positions a) j ;;
  pi <- py_index (positions a) i ;;
  let D := displacement a pi pj sh in
  Ok {| p_i := i; p_j := j; p_S := sh; p_D := D; p_d := sqrt (sqsum D) |}.

(** The dictionary branch.  [atomic_numbers[el]] inside [try ... except:
    pass]: a symbol of the table becomes its number, anything else stays. *)
Definition to_number (el : element) : element :=
  match el with
  | ElSym s => match atomic_numbers s with Some z => ElNum z | None => el end
  | ElNum _ => el
  end.

Definition entry_mask (n : list Z) (el1 el2 : element) (r : pair) : result bool :=
  ni <- py_index n (p_i r) ;;
  nj <- py_index n (p_j r) ;;
  Ok (if element_eqb el1 el2
      then number_is ni el1 && number_is nj el2
      else (number_is ni el1 && number_is nj el2)
           || (number_is ni el2 && number_is nj el1)).

Definition assign_entry (n : list Z) (pairs : list pair) (pc : list float)
  (e : element * element * float) : result (list float) :=
  let '(k1, k2, c) := e in
  m <- mapM (entry_mask n (to_number k1) (to_number k2)) pairs ;;
  Ok (map (fun bo : bool * float => if fst bo then c else snd bo) (combine m pc)).

Definition per_pair_cutoff (n : list Z) (d : list (element * element * float))
  (pairs : list pair) : result (list float) :=
  foldM (assign_entry n pairs) d (map (fun _ => 0) pairs).

(** The exact cutoff of the policy in force, after the filter by
    [max_cutoff]. *)
Definition apply_cutoff (a : Atoms) (cutoff : cutoff_spec) (pairs : list pair)
  : result (list pair) :=
  match cutoff with
  | CutDict d =>
      pc <- per_pair_cutoff (numbers a) d pairs ;;
      Ok (mask_select (map (fun rc : pair * float => p_d (fst rc) <? snd rc)
                           (combine pairs pc)) pairs)
  | CutScalar _ => Ok pairs
  | CutArray r =>
      m <- mapM (fun p : pair =>
                   ci <- py_index r (p_i p) ;;
                   cj <- py_index r (p_j p) ;;
                   Ok (p_d p <? ci + cj)) pairs ;;
      Ok (mask_select m pairs)
  end.

(** The body of [neighbor_list] up to the return tuple. *)
Definition neighbor_pairs (a : Atoms) (cutoff : cutoff_spec)
  (self_interaction : bool) : result (list pair) :=
  mc <- max_cutoff cutoff ;;
  let fd := face_dist a in
  let n := nbins_c fd mc in
  let nbins := (let '(n0, n1, n2) := n in n0 * n1 * n2)%Z in
  let nd := loop_radius fd mc n in
  let bins := map (atom_bin a n) (positions a) in
  let cell_shift_ic := map fst bins in
  let bin_index_i := map (fun cb => flat_bin n (snd cb)) bins in
  let sorted := sort_by snd (combine (zrange 0 (len (positions a))) bin_index_i) in
  counts <- bincount (map snd sorted) ;;
  max_nat_per_bin <- zmax_list counts ;;
  B <- fill_bins nbins max_nat_per_bin sorted ;;
  c0 <- search B n max_nat_per_bin nd ;;
  c1 <- mapM (add_cell_shift cell_shift_ic) c0 ;;
  let c2 := if self_interaction then c1 else filter not_self c1 in
  let c3 := drop_nonperiodic (pbc a) c2 in
  let c4 := sort_by (fun c : cand => fst (fst c)) c3 in
  pairs <- mapM (with_distance a) c4 ;;
  apply_cutoff a cutoff (filter (fun p => p_d p <? mc) pairs).

Definition quantity (pairs : list pair) (q : Ascii.ascii) : result column_of :=
  if Ascii.eqb q "i"%char then Ok (ColInt (map p_i pairs))
  else if Ascii.eqb q "j"%char then Ok (ColInt (map p_j pairs))
  else if Ascii.eqb q "D"%char then Ok (ColVec (map p_D pairs))
  else if Ascii.eqb q "d"%char then Ok (ColFloat (map p_d pairs))
  else if Ascii.eqb q "S"%char then Ok (ColShift (map p_S pairs))
  else Raise ValueError.

Definition neighbor_list (quantities : String.string) (a : Atoms)
  (cutoff : cutoff_spec) (self_interaction : bool) : result retval :=
  pairs <- neighbor_pairs a cutoff self_interaction ;;
  retvals <- mapM (quantity pairs) (String.list_ascii_of_string quantities) ;;
  match retvals with
  | [c] => Ok (Single c)
  | _ => Ok (Tuple retvals)
  end.

End NeighborSearch.

(** ** [first_neighbors] *)

(** [np.zeros(n)], [-np.ones(n)] *)
Definition np_full (n v : Z) : result (list Z) :=
  if (n <? 0)%Z then Raise ValueError else Ok (repeat v (Z.to_nat n)).

(** One round of [s[m] = s[np.arange(nat+1)[m]+1]] with [m = (s == -1)]:
    every [-1] takes the old value to its right. *)
Fixpoint fill_step (s : list Z) : result (list Z) :=
  match s with
  | [] => Ok []
  | x :: t =>
      t' <- fill_step t ;;
      if (x =? -1)%Z
      then match t with
           | [] => Raise IndexError
           | y :: _ => Ok (y :: t')
           end
      else Ok (x :: t')
  end.

(** [while m.any(): ...]; the loop ends within [len(s)] rounds (lemma
    [fill_loop_terminates]), so [FuelExhausted] never shows. *)
Fixpoint fill_loop (fuel : nat) (s : list Z) : result (list Z) :=
  if existsb (Z.eqb (-1)) s
  then match fuel with
       | O => Raise FuelExhausted
       | S fuel' => s' <- fill_step s ;; fill_loop fuel' s'
       end
  else Ok s.

Definition first_neighbors (nat_ : Z) (i : list Z) : result (list Z) :=
  match i with
  | [] => np_full (nat_ + 1) 0%Z
  | i0 :: i1 =>
      s <- np_full (nat_ + 1) (-1)%Z ;;
      let m := neq_next i in
      s <- py_set s i0 0%Z ;;
      s <- py_set s (-1)%Z (len i) ;;
      s <- foldM (fun s kv => py_set s (fst kv) (snd kv))
             (combine (mask_select m i1) (mask_select m (zrange 1 (len m + 1)))) s ;;
      fill_loop (length s) s
  end.

(** ** The classes *)

(** Reading an attribute that no method has set yet. *)
Definition attr {A : Type} (o : option A) : result A :=
  match o with
  | Some x => Ok x
  | None => Raise AttributeError
  end.

Definition bvec_differs (p q : bvec3) : bool :=
  let '(p0, p1, p2) := p in
  let '(q0, q1, q2) := q in
  xorb p0 q0 || xorb p1 q1 || xorb p2 q2.

Definition vec_differs (u v : vec3) : bool :=
  let '(u0, u1, u2) := u in
  let '(v0, v1, v2) := v in
  fneq u0 v0 || fneq u1 v1 || fneq u2 v2.

(** [(c1 != c2).any()] *)
Definition mat_differs (c1 c2 : mat3) : bool :=
  let '(a0, a1, a2) := c1 in
  let '(b0, b1, b2) := c2 in
  vec_differs a0 b0 || vec_differs a1 b1 || vec_differs a2 b2.

(** [p - q] for two [(n,3)] arrays, with numpy's broadcasting of a single
    row. *)
Definition broadcast_sub (p q : list vec3) : result (list vec3) :=
  if (length p =? length q)%nat
  then Ok (map (fun uv : vec3 * vec3 => vsub (fst uv) (snd uv)) (combine p q))
  else match p, q with
       | [u], _ => Ok (map (fun v => vsub u v) q)
       | _, [v] => Ok (map (fun u => vsub u v) p)
       | _, _ => Raise ValueError
       end.

(** [((p - q)**2).sum(1).max()] *)
Definition max_sq_displacement (p q : list vec3) : result float :=
  d <- broadcast_sub p q ;;
  fmax_list (map sqsum d).

(** The mask of the half list in [NeighborList.build]. *)
Definition half_keep (c : cand) : bool :=
  let '(i, j, (x, y, z)) := c in
  (((i <=? j) && ivec_zero (x, y, z))
   || ((0 <? x) || ((x =? 0) && ((0 <? y) || ((y =? 0) && (0 <? z))))))%Z.

(** The quantities string ['ijS'] that [NeighborList.build] asks for. *)
Definition quantities_ijS : String.string :=
  String.String "i" (String.String "j" (String.String "S" String.EmptyString)).

Module NeighborList.

Record t : Type := {
  cutoffs : list float;
  skin : float;
  sorted : bool;
  self_interaction : bool;
  bothways : bool;
  nupdates : Z;
  nneighbors : Z;
  npbcneighbors : Z;
  self_pbc : option bvec3;
  self_cell : option mat3;
  self_positions : option (list vec3);
  pair_first : option (list Z);
  pair_second : option (list Z);
  offset_vec : option (list ivec3);
  first_neigh : option (list Z)
}.

(** [__init__]; the defaults are [skin=0.3, sorted=False,
    self_interaction=True, bothways=False]. *)
Definition init (cutoffs_ : list float) (skin_ : float)
  (sorted_ self_interaction_ bothways_ : bool) : t :=
  {| cutoffs := map (fun c => c + skin_) cutoffs_;
     skin := skin_;
     sorted := sorted_;
     self_interaction := self_interaction_;
     bothways := bothways_;
     nupdates := 0;
     nneighbors := 0;
     npbcneighbors := 0;
     self_pbc := None;
     self_cell := None;
     self_positions := None;
     pair_first := None;
     pair_second := None;
     offset_vec := None;
     first_neigh := None |}.

Section Methods.
Context {E : Externals}.

Definition build (self : t) (atoms : Atoms) : result t :=
  rv <- neighbor_list quantities_ijS atoms (CutArray (cutoffs self)) (self_interaction self) ;;
  match rv with
  | Tuple [ColInt i_n; ColInt j_n; ColShift S_n] =>
      let l0 := combine (combine i_n j_n) S_n in
      let l1 := if bothways self then l0
                else mask_select (map half_keep l0) l0 in
      let l2 := if sorted self
                then sort_by (fun c : cand =>
                                (fst (fst c) * len l1 + snd (fst c))%Z) l1
                else l1 in
      let first := map (fun c : cand => fst (fst c)) l2 in
      fn <- first_neighbors (len (positions atoms)) first ;;
      Ok {| cutoffs := cutoffs self;
            skin := skin self;
            sorted := sorted self;
            self_interaction := self_interaction self;
            bothways := bothways self;
            nupdates := nupdates self + 1;
            nneighbors := nneighbors self;
            npbcneighbors := npbcneighbors self;
            self_pbc := Some (pbc atoms);
            self_cell := Some (cell atoms);
            self_positions := Some (positions atoms);
            pair_first := Some first;
            pair_second := Some (map (fun c : cand => snd (fst c)) l2);
            offset_vec := Some (map (fun c : cand => snd c) l2);
            first_neigh := Some fn |}
  | _ => Raise ValueError
  end.

Definition update (self : t) (atoms : Atoms) : result (bool * t) :=
  if (nupdates self =? 0)%Z
  then self' <- build self atoms ;; Ok (true, self')
  else
    pbc0 <- attr (self_pbc self) ;;
    if bvec_differs pbc0 (pbc atoms)
    then self' <- build self atoms ;; Ok (true, self')
    else
      cell0 <- attr (self_cell self) ;;
      if mat_differs cell0 (cell atoms)
      then self' <- build self atoms ;; Ok (true, self')
      else
        pos0 <- attr (self_positions self) ;;
        m <- max_sq_displacement pos0 (positions atoms) ;;
        if skin self * skin self <? m
        then self' <- build self atoms ;; Ok (true, self')
        else Ok (false, self).

Definition get_neighbors (self : t) (a : Z) : result (list Z * list ivec3) :=
  second <- attr (pair_second self) ;;
  fn <- attr (first_neigh self) ;;
  lo <- py_index fn a ;;
  hi <- py_index fn (a + 1)%Z ;;
  offs <- attr (offset_vec self) ;;
  Ok (py_slice second lo hi, py_slice offs lo hi).

End Methods.
End NeighborList.

(** Python scalars in [PrimitiveNeighborList.build]: [math.sqrt], the
    division of Python floats, and [x %= 1.0] of numpy. *)
Definition math_sqrt (x : float) : result float :=
  if x <? 0 then Raise ValueError else Ok (sqrt x).

Definition py_div (x y : float) : result float :=
  if is_zero y then Raise ZeroDivisionError else Ok (x / y).

Definition np_mod1 (x : float) : float :=
  match SF_trunc (Prim2SF x) with
  | None => nan
  | Some t =>
      let m := if (2 ^ 53 <=? Z.abs t)%Z then 0 else x - Z2F t in
      if is_zero m then 0 else if m <? 0 then m + 1 else m
  end.

Definition vround (v : vec3) : ivec3 :=
  let '(x, y, z) := v in (round_int x, round_int y, round_int z).

Definition ivec_any (sh : ivec3) : bool := negb (ivec_zero sh).

(** [rows[b] = rows[b] + xs] on a Python list of arrays *)
Definition extend_at {A : Type} (rows : list (list A)) (b : Z) (xs : list A)
  : result (list (list A)) :=
  row <- py_index rows b ;;
  py_set rows b (row ++ xs).

Module PrimitiveNeighborList.

Record t : Type := {
  cutoffs : list float;
  skin : float;
  sorted : bool;
  self_interaction : bool;
  bothways : bool;
  nupdates : Z;
  use_scaled_positions : bool;
  nneighbors : Z;
  npbcneighbors : Z;
  self_pbc : option bvec3;
  self_cell : option mat3;
  coordinates : option (list vec3);
  neighbors : option (list (list Z));
  displacements : option (list (list ivec3))
}.

(** [__init__]; the defaults are [skin=0.3, sorted=False,
    self_interaction=True, bothways=False, use_scaled_positions=False]. *)
Definition init (cutoffs_ : list float) (skin_ : float)
  (sorted_ self_interaction_ bothways_ use_scaled_positions_ : bool) : t :=
  {| cutoffs := map (fun c => c + skin_) cutoffs_;
     skin := skin_;
     sorted := sorted_;
     self_interaction := self_interaction_;
     bothways := bothways_;
     nupdates := 0;
     use_scaled_positions := use_scaled_positions_;
     nneighbors := 0;
     npbcneighbors := 0;
     self_pbc := None;
     self_cell := None;
     coordinates := None;
     neighbors := None;
     displacements := None |}.

(** The lists and counters the loops of [build] update. *)
Record lists : Type := {
  l_nneighbors : Z;
  l_npbcneighbors : Z;
  l_neighbors : list (list Z);
  l_displacements : list (list ivec3)
}.

Section Methods.
Context {E : Externals}.

(** [N[c]]: the number of images to search along axis [c].  [rcmax] is a
    Python float when there is no atom and a numpy scalar otherwise, which
    decides what a division by zero does. *)
Definition axis_images (rcmax : float) (python_rcmax : bool) (icell : mat3)
  (c : nat) (periodic : bool) : result Z :=
  if periodic
  then
    let v := column icell c in
    r <- math_sqrt (dot3 v v) ;;
    h <- py_div 1 r ;;
    q <- (if python_rcmax then py_div (2 * rcmax) h else Ok (2 * rcmax / h)) ;;
    n <- py_int q ;;
    Ok (n + 1)%Z
  else Ok 0%Z.

Definition wrap_scaled (pb : bvec3) (s : vec3) : vec3 :=
  let '(p0, p1, p2) := pb in
  let '(x, y, z) := s in
  (if p0 then np_mod1 x else x,
   if p1 then np_mod1 y else y,
   if p2 then np_mod1 z else z).

(** [disp[:] = (n1, n2, n3)]: the integers of Python go into an array of
    [int64], which refuses those that do not fit. *)
Definition fill_int64 (n : ivec3) : result ivec3 :=
  let '(n1, n2, n3) := n in
  if in_int64 n1 && in_int64 n2 && in_int64 n3 then Ok n else Raise OverflowError.

(** The body of the loop over the atoms [a], for one image [(n1, n2, n3)]. *)
Definition atom_step (self : t) (cell_ : mat3) (positions0 : list vec3)
  (offsets : list ivec3) (n : ivec3) (st : lists) (a : Z) : result lists :=
  let displacement := ivec_dot_mat n cell_ in
  pa <- py_index positions0 a ;;
  ca <- py_index (cutoffs self) a ;;
  let mask := map (fun pc : vec3 * float =>
                     sqsum (vsub (vadd (fst pc) displacement) pa)
                     <? (snd pc + ca) * (snd pc + ca))
                  (combine positions0 (cutoffs self)) in
  let i0 := mask_select mask (zrange 0 (len positions0)) in
  let i := if ivec_zero n
           then if self_interaction self
                then filter (fun b => a <=? b)%Z i0
                else filter (fun b => a <? b)%Z i0
           else i0 in
  nb <- extend_at (l_neighbors st) a i ;;
  n64 <- fill_int64 n ;;
  oa <- py_index offsets a ;;
  disp <- mapM (fun b => ob <- py_index offsets b ;; Ok (ivadd n64 (ivsub ob oa))) i ;;
  dp <- extend_at (l_displacements st) a disp ;;
  Ok {| l_nneighbors := l_nneighbors st + len i;
        l_npbcneighbors := l_npbcneighbors st + len (filter ivec_any disp);
        l_neighbors := nb;
        l_displacements := dp |}.

Definition image_step (self : t) (cell_ : mat3) (positions0 : list vec3)
  (offsets : list ivec3) (st : lists) (n : ivec3) : result lists :=
  let '(n1, n2, n3) := n in
  if ((n1 =? 0) && ((n2 <? 0) || ((n2 =? 0) && (n3 <? 0))))%Z
  then Ok st
  else foldM (atom_step self cell_ positions0 offsets n)
             (zrange 0 (len positions0)) st.

Definition images (N : ivec3) : list ivec3 :=
  let '(k0, k1, k2) := N in
  flat_map (fun n1 => flat_map (fun n2 =>
    map (fun n3 => (n1, n2, n3)) (zrange (- k2) (k2 + 1)))
    (zrange (- k1) (k1 + 1))) (zrange 0 (k0 + 1)).

(** [if self.bothways: ...] *)
Definition mirror_step (nd : list (list Z) * list (list ivec3))
  (a : Z) (bd : Z * ivec3) : result (list (list Z) * list (list ivec3)) :=
  n2 <- extend_at (fst nd) (fst bd) [a] ;;
  d2 <- extend_at (snd nd) (fst bd) [ivneg (snd bd)] ;;
  Ok (n2, d2).

Definition add_mirrors (st : lists) : result lists :=
  let natoms := length (l_neighbors st) in
  let rows := combine (zrange 0 (Z.of_nat natoms))
                      (combine (l_neighbors st) (l_displacements st)) in
  ' (n2, d2) <- foldM (fun nd row =>
                         foldM (fun nd bd => mirror_step nd (fst row) bd)
                               (combine (fst (snd row)) (snd (snd row))) nd)
                  rows (repeat [] natoms, repeat [] natoms) ;;
  Ok {| l_nneighbors := l_nneighbors st;
        l_npbcneighbors := l_npbcneighbors st;
        l_neighbors := map (fun xy => fst xy ++ snd xy) (combine (l_neighbors st) n2);
        l_displacements :=
          map (fun xy => fst xy ++ snd xy) (combine (l_displacements st) d2) |}.

(** [if self.sorted: ...]: one round of the loop over [enumerate(neighbors)] *)
Definition sort_step (st : lists) (a : Z) : result lists :=
  i <- py_index (l_neighbors st) a ;;
  let mask := map (fun b => b <? a)%Z i in
  if existsb (fun b => b) mask
  then
    da <- py_index (l_displacements st) a ;;
    ' (nb, dp) <- foldM (fun nd bd => mirror_step nd a bd)
                    (combine (mask_select mask i) (mask_select mask da))
                    (l_neighbors st, l_displacements st) ;;
    ia <- py_index nb a ;;
    nb' <- py_set nb a (mask_select (map negb mask) ia) ;;
    da' <- py_index dp a ;;
    dp' <- py_set dp a (mask_select (map negb mask) da') ;;
    Ok {| l_nneighbors := l_nneighbors st;
          l_npbcneighbors := l_npbcneighbors st;
          l_neighbors := nb';
          l_displacements := dp' |}
  else Ok st.

Definition build (self : t) (pbc_ : bvec3) (cell_ : mat3)
  (coordinates_ : list vec3) : result t :=
  if negb (length (cutoffs self) =? length coordinates_)%nat
  then Raise ValueError
  else
    rcmax <- match cutoffs self with
             | [] => Ok 0
             | _ => fmax_list (cutoffs self)
             end ;;
    let python_rcmax := negb (nonempty (cutoffs self)) in
    let icell := pinv cell_ in
    let positions_ := if use_scaled_positions self
                      then map (fun s => vec_dot_mat s cell_) coordinates_
                      else coordinates_ in
    let scaled := if use_scaled_positions self
                  then coordinates_
                  else map (fun p => vec_dot_mat p icell) coordinates_ in
    let scaled0 := map (wrap_scaled pbc_) scaled in
    let '(p0, p1, p2) := pbc_ in
    k0 <- axis_images rcmax python_rcmax icell 0 p0 ;;
    k1 <- axis_images rcmax python_rcmax icell 1 p1 ;;
    k2 <- axis_images rcmax python_rcmax icell 2 p2 ;;
    let offsets := map (fun ss : vec3 * vec3 => vround (vsub (fst ss) (snd ss)))
                       (combine scaled0 scaled) in
    let positions0 := map (fun po : vec3 * ivec3 =>
                             vadd (fst po) (ivec_dot_mat (snd po) cell_))
                          (combine positions_ offsets) in
    let natoms := length positions_ in
    st <- foldM (image_step self cell_ positions0 offsets) (images (k0, k1, k2))
            {| l_nneighbors := 0;
               l_npbcneighbors := 0;
               l_neighbors := repeat [] natoms;
               l_displacements := repeat [] natoms |} ;;
    st <- (if bothways self then add_mirrors st else Ok st) ;;
    st <- (if sorted self
           then foldM sort_step (zrange 0 (Z.of_nat natoms)) st
           else Ok st) ;;
    Ok {| cutoffs := cutoffs self;
          skin := skin self;
          sorted := sorted self;
          self_interaction := self_interaction self;
          bothways := bothways self;
          nupdates := nupdates self + 1;
          use_scaled_positions := use_scaled_positions self;
          nneighbors := l_nneighbors st;
          npbcneighbors := l_npbcneighbors st;
          self_pbc := Some pbc_;
          self_cell := Some cell_;
          coordinates := Some coordinates_;
          neighbors := Some (l_neighbors st);
          displacements := Some (l_displacements st) |}.

Definition update (self : t) (pbc_ : bvec3) (cell_ : mat3)
  (coordinates_ : list vec3) : result (bool * t) :=
  if (nupdates self =? 0)%Z
  then self' <- build self pbc_ cell_ coordinates_ ;; Ok (true, self')
  else
    pbc0 <- attr (self_pbc self) ;;
    if bvec_differs pbc0 pbc_
    then self' <- build self pbc_ cell_ coordinates_ ;; Ok (true, self')
    else
      cell0 <- attr (self_cell self) ;;
      if mat_differs cell0 cell_
      then self' <- build self pbc_ cell_ coordinates_ ;; Ok (true, self')
      else
        coord0 <- attr (coordinates self) ;;
        m <- max_sq_displacement coord0 coordinates_ ;;
        if skin self * skin self <? m
        then self' <- build self pbc_ cell_ coordinates_ ;; Ok (true, self')
        else Ok (false, self).

Definition get_neighbors (self : t) (a : Z) : result (list Z * list ivec3) :=
  nb <- attr (neighbors self) ;;
  i <- py_index nb a ;;
  dp <- attr (displacements self) ;;
  d <- py_index dp a ;;
  Ok (i, d).

End Methods.
End PrimitiveNeighborList.

(** * Vocabulary of the properties *)

Local Open Scope Z_scope.

(** ** Return values *)

(** The quantities string ['ijSDd']: every column of the result. *)
Definition quantities_all : String.string :=
  String.String "i" (String.String "j" (String.String "S"
    (String.String "D" (String.String "d" String.EmptyString)))).

Definition all_columns (out : list pair) : retval :=
  Tuple [ColInt (map p_i out); ColInt (map p_j out); ColShift (map p_S out);
         ColVec (map p_D out); ColFloat (map p_d out)].

Definition triple (r : pair) : cand := (p_i r, p_j r, p_S r).

(** ** Floating point *)

(** Two floats that are opposite, the sign of a zero left open: what
    [x - y] and [y - x] are to each other. *)
Definition sf_mirror (a b : spec_float) : Prop :=
  match a, b with
  | S754_zero _, S754_zero _ => True
  | _, _ => b = SFopp a
  end.

Definition fmirror (x y : float) : Prop := sf_mirror (Prim2SF x) (Prim2SF y).

(** Finite floats, and the two zeros. *)
Definition float_finite (x : float) : bool :=
  match Prim2SF x with
  | S754_zero _ | S754_finite _ _ _ => true
  | _ => false
  end.

Definition float_zero (x : float) : bool :=
  match Prim2SF x with
  | S754_zero _ => true
  | _ => false
  end.


Definition vec_finite (v : vec3) : bool :=
  let '(x, y, z) := v in float_finite x && float_finite y && float_finite z.

(** Positions and cell hold numbers: no infinity, no NaN. *)
Definition atoms_finite (a : Atoms) : bool :=
  forallb vec_finite (positions a)
  && (let '(r0, r1, r2) := cell a in
      vec_finite r0 && vec_finite r1 && vec_finite r2).

(** ** The range of [int64] *)

(** The shift has an opposite in [int64]: no component is [INT64_MIN]. *)
Definition opposable (sh : ivec3) : bool :=
  let '(x, y, z) := sh in (INT64_MIN <? x) && (INT64_MIN <? y) && (INT64_MIN <? z).

(** The bin search stays inside [int64] along one axis with [n] bins and
    the loop radius [nd]: the radius is not negative, and no bin coordinate
    plus offset reaches [2^63]. *)
Definition axis_fits (n nd : Z) : bool := (0 <=? nd) && (n + nd <? 2 ^ 63).

Definition radius_fits (n nd : ivec3) : bool :=
  let '(n0, n1, n2) := n in
  let '(d0, d1, d2) := nd in
  axis_fits n0 d0 && axis_fits n1 d1 && axis_fits n2 d2.

(** ** Mirror pairs *)

(** Every candidate [(i, j, S)] of the list comes with [(j, i, -S)]. *)
Definition cand_sym (l : list cand) : Prop :=
  forall i j s, In (i, j, s) l -> In (j, i, ivopp s) l.

(** [r'] is the pair [(j, i, -S)] of [r = (i, j, S)], at the same distance. *)
Definition mirror (r r' : pair) : Prop :=
  p_i r' = p_j r /\ p_j r' = p_i r /\ p_S r' = ivopp (p_S r) /\ p_d r' = p_d r.

(** The same for the candidates and for the pairs whose shift has an
    opposite in [int64]. *)
Definition cand_sym_op (l : list cand) : Prop :=
  forall i j s, In (i, j, s) l -> opposable s = true -> In (j, i, ivopp s) l.

Definition pair_sym_op (l : list pair) : Prop :=
  forall r, In r l -> opposable (p_S r) = true -> exists r', In r' l /\ mirror r r'.

(** The components of a shift are [int64] values. *)
Definition shift_int64 (sh : ivec3) : Prop :=
  let '(x, y, z) := sh in
  (INT64_MIN <= x < 2 ^ 63) /\ (INT64_MIN <= y < 2 ^ 63) /\ (INT64_MIN <= z < 2 ^ 63).

Definition mirror_cand (c : cand) : cand :=
  let '(i, j, sh) := c in (j, i, ivopp sh).

(** The mask of one dictionary entry on one pair, [false] where the lookup of
    the atomic numbers fails. *)
Definition entry_selects (n : list Z) (el1 el2 : element) (r : pair) : bool :=
  match entry_mask n el1 el2 r with
  | Ok b => b
  | Raise _ => false
  end.

(** ** The half list *)

(** The rule of the half list in words: at zero shift the pair with
    [i <= j], otherwise the pair whose shift has a positive first nonzero
    component. *)
Definition first_nonzero (sh : ivec3) : Z :=
  let '(x, y, z) := sh in
  if negb (x =? 0) then x else if negb (y =? 0) then y else z.

Definition canonical (c : cand) : Prop :=
  let '(i, j, sh) := c in
  (sh = (0, 0, 0) /\ i <= j) \/ (sh <> (0, 0, 0) /\ 0 < first_nonzero sh).

(** The pairs that [NeighborList.build] stores, as triples. *)
Definition stored (self : NeighborList.t) : option (list cand) :=
  match NeighborList.pair_first self, NeighborList.pair_second self,
        NeighborList.offset_vec self with
  | Some pf, Some ps, Some ov => Some (combine (combine pf ps) ov)
  | _, _, _ => None
  end.

(** ** The table of bins *)

(** One round of the loop that fills [bins_ba] takes the first atom of every
    run of equal bin indices and leaves the others. *)
Fixpoint firsts (prev : Z) (l : list (Z * Z)) : list (Z * Z) :=
  match l with
  | [] => []
  | x :: t => if prev =? snd x then firsts (snd x) t else x :: firsts (snd x) t
  end.

Fixpoint others (prev : Z) (l : list (Z * Z)) : list (Z * Z) :=
  match l with
  | [] => []
  | x :: t => if prev =? snd x then x :: others (snd x) t else others (snd x) t
  end.

(** The state of the loop that fills [bins_ba], before round [k]. *)
Definition bins_inv (M nb : nat) (T : Z -> nat) (k : nat)
  (rest : list (Z * Z)) (B : list (list Z)) : Prop :=
  Forall (fun row => length row = M) B /\ length B = nb /\
  (forall b p, (k <= p)%nat -> nth p (nth b B []) (-1) = -1) /\
  StronglySorted Z.le (map snd rest) /\
  Forall (fun ab => 0 <= snd ab < Z.of_nat nb) rest /\
  (forall a, a <> -1 ->
     (count_occ Z.eq_dec (map fst rest) a + count_occ Z.eq_dec (concat B) a
      = T a)%nat).

Definition cnt {A : Type} (P : A -> bool) (l : list A) : nat := length (filter P l).

Definition unique_slot (B : list (list Z)) (M : nat) (a : Z) (b p : nat) : Prop :=
  (b < length B)%nat /\ (p < M)%nat /\ nth p (nth b B []) (-1) = a /\
  forall b' p', (b' < length B)%nat -> (p' < M)%nat ->
    nth p' (nth b' B []) (-1) = a -> b' = b /\ p' = p.

Definition is_self_zero (a : Z) (c : cand) : bool :=
  let '(i, j, s) := c in (i =? a) && (j =? a) && ivec_zero s.

(** Atom [a] sits in slot [p0] of the bin [(x0, y0, z0)] and nowhere else. *)
Definition only_slot (B : list (list Z)) (n0 n1 n2 M a x0 y0 z0 p0 : Z) : Prop :=
  (1 <= n0 /\ 1 <= n1 /\ 1 <= n2) /\
  (0 <= x0 < n0 /\ 0 <= y0 < n1 /\ 0 <= z0 < n2 /\ 0 <= p0 < M) /\
  a <> -1 /\
  bin_slot B (x0 + n0 * (y0 + n1 * z0)) p0 = a /\
  (forall b p, 0 <= b < n0 * n1 * n2 -> 0 <= p < M -> bin_slot B b p = a ->
               b = x0 + n0 * (y0 + n1 * z0) /\ p = p0).

(** The pair of atom [i] with itself at zero shift. *)
Definition self_zero_pair (i : Z) (r : pair) : bool :=
  (p_i r =? i) && (p_j r =? i) && ivec_zero (p_S r).

(** ** The index of first neighbours *)

(** The number of entries of [i] below [k]: where the neighbours of atom [k]
    start in a list sorted by first index. *)
Definition lower_bound (i : list Z) (k : Z) : Z :=
  len (filter (fun v => v <? k) i).

(** The run boundaries [s[i[1:][m]] = (np.arange(len(m))+1)[m]] as a
    recursion over the list. *)
Fixpoint boundaries (prev pos : Z) (l : list Z) : list (Z * Z) :=
  match l with
  | [] => []
  | x :: t => if prev =? x then boundaries x (pos + 1) t
              else (x, pos) :: boundaries x (pos + 1) t
  end.

(** The number of entries still unset. *)
Definition pads (s : list Z) : nat := count_occ Z.eq_dec s (-1).

(** Every entry of the table [s] for [N] atoms is still [-1] or already
    final. *)
Definition partial (N : Z) (i : list Z) (s : list Z) : Prop :=
  length s = Z.to_nat (N + 1) /\
  forall k, (k < Z.to_nat (N + 1))%nat ->
    nth k s (-1) = -1 \/ nth k s (-1) = lower_bound i (Z.of_nat k).

Definition marked (i : list Z) (s : list Z) (v : Z) : Prop :=
  nth (Z.to_nat v) s (-1) = lower_bound i v.

(** Every entry is final, or [-1] for an atom without neighbours; the last
    entry is final. *)
Definition settled (N : Z) (i : list Z) (s : list Z) : Prop :=
  length s = Z.to_nat (N + 1) /\
  (forall k, (k < Z.to_nat (N + 1))%nat ->
     nth k s (-1) = lower_bound i (Z.of_nat k)
     \/ (nth k s (-1) = -1 /\ ~ In (Z.of_nat k) i))
  /\ nth (Z.to_nat N) s (-1) = lower_bound i N.

Section Vocabulary.
Context {E : Externals}.

(** The stages of [neighbor_pairs]. *)
Record stages (a : Atoms) (cutoff : cutoff_spec) (si : bool)
  (mc : float) (n : ivec3) (M : Z) (B : list (list Z)) (c0 c1 : list cand)
  (pairs out : list pair) : Prop := {
  st_max_cutoff : max_cutoff cutoff = Ok mc;
  st_nbins : n = nbins_c (face_dist a) mc;
  st_fill :
    fill_bins (let '(n0, n1, n2) := n in n0 * n1 * n2) M
      (sort_by snd (combine (zrange 0 (len (positions a)))
         (map (fun cb => flat_bin n (snd cb))
              (map (atom_bin a n) (positions a))))) = Ok B;
  st_search : search B n M (loop_radius (face_dist a) mc n) = Ok c0;
  st_shift :
    mapM (add_cell_shift (map fst (map (atom_bin a n) (positions a)))) c0 = Ok c1;
  st_dist :
    mapM (with_distance a)
      (sort_by (fun c : cand => fst (fst c))
         (drop_nonperiodic (pbc a) (if si then c1 else filter not_self c1)))
    = Ok pairs;
  st_cut :
    apply_cutoff a cutoff (filter (fun p => (p_d p <? mc)%float) pairs) = Ok out
}.

(** The bin search of [neighbor_list] for this configuration and cutoff
    stays inside [int64]. *)
Definition search_fits (a : Atoms) (cutoff : cutoff_spec) : bool :=
  match max_cutoff cutoff with
  | Ok mc =>
      let n := nbins_c (face_dist a) mc in
      radius_fits n (loop_radius (face_dist a) mc n)
  | Raise _ => false
  end.

(** No atom of the configuration has the species [el]. *)
Definition species_absent (n : list Z) (el : element) : bool :=
  forallb (fun z => negb (number_is z (to_number el))) n.

End Vocabulary.

(** Both atoms of the pair have an atomic number in [n]. *)
Definition indexed (n : list Z) (r : pair) : Prop :=
  (exists ni, py_index n (p_i r) = Ok ni) /\ (exists nj, py_index n (p_j r) = Ok nj).

Local Open Scope float_scope.

(** ** A concrete instance: cells along the axes

    For a cell that is a diagonal matrix the pseudo-inverse and the scaled
    positions are computed entry by entry.  The symbol table is cut down
    to hydrogen and carbon. *)
Definition diag_inv (x : float) : float := if is_zero x then 0 else 1 / x.

Definition sym_H : String.string := String.String "H" String.EmptyString.
Definition sym_C : String.string := String.String "C" String.EmptyString.
Definition sym_Xx : String.string :=
  String.String "X" (String.String "x" String.EmptyString).

Definition axis_externals : Externals := {|
  pinv := fun m =>
    let '((a, _, _), (_, b, _), (_, _, c)) := m in
    ((diag_inv a, 0, 0), (0, diag_inv b, 0), (0, 0, diag_inv c));
  scaled_position := fun m p =>
    let '((a, _, _), (_, b, _), (_, _, c)) := m in
    let '(x, y, z) := p in (x / a, y / b, z / c);
  atomic_numbers := fun s =>
    if String.eqb s sym_H then Some 1%Z
    else if String.eqb s sym_C then Some 6%Z
    else None
|}.

Definition cube (s : float) : mat3 := ((s, 0, 0), (0, s, 0), (0, 0, s)).

(** Two hydrogen atoms [2.0] apart in a box without periodicity. *)
Definition dimer : Atoms :=
  {| positions := [(0, 0, 0); (0, 0, 2)];
     cell := cube 10;
     pbc := (false, false, false);
     numbers := [1; 1]%Z |}.

(** One atom in a periodic cube of edge [2.0]. *)
Definition lone_periodic : Atoms :=
  {| positions := [(0, 0, 0)];
     cell := cube 2;
     pbc := (true, true, true);
     numbers := [1]%Z |}.

(** One carbon atom in a box without periodicity. *)
Definition lone_open : Atoms :=
  {| positions := [(1, 2, 3)];
     cell := cube 10;
     pbc := (false, false, false);
     numbers := [6]%Z |}.







(** The two pairs of the dimer. *)
Definition dimer_pairs : list pair :=
  [ {| p_i := 0%Z; p_j := 1%Z; p_S := (0, 0, 0)%Z; p_D := (0, 0, 2); p_d := 2 |};
    {| p_i := 1%Z; p_j := 0%Z; p_S := (0, 0, 0)%Z; p_D := (0, 0, -2); p_d := 2 |} ].

(** * Vocabulary of the further properties *)

Local Close Scope float_scope.

(** The shift is zero along every direction without periodicity. *)
Definition shift_allowed (pb : bvec3) (sh : ivec3) : bool :=
  let '(p0, p1, p2) := pb in
  let '(x, y, z) := sh in
  (p0 || (x =? 0)) && (p1 || (y =? 0)) && (p2 || (z =? 0)).

(** The letters that [neighbor_list] knows. *)
Definition supported (q : Ascii.ascii) : bool :=
  Ascii.eqb q "i" || Ascii.eqb q "j" || Ascii.eqb q "D" || Ascii.eqb q "d"
  || Ascii.eqb q "S".

(** The arrays of a return value and the length of one of them. *)
Definition retval_columns (rv : retval) : list column_of :=
  match rv with
  | Single c => [c]
  | Tuple cs => cs
  end.

Definition column_len (c : column_of) : Z :=
  match c with
  | ColInt l => len l
  | ColVec l => len l
  | ColFloat l => len l
  | ColShift l => len l
  end.

(** The first atom of a stored pair is [a]. *)
Definition first_is (a : Z) (c : cand) : bool := fst (fst c) =? a.

(** What [get_neighbors] returns for a list of stored pairs. *)
Definition neighbors_of (a : Z) (kept : list cand) : list Z * list ivec3 :=
  (map (fun c : cand => snd (fst c)) (filter (first_is a) kept),
   map (fun c : cand => snd c) (filter (first_is a) kept)).

(** [build] keeps the pairs in the order of their first atom: always when it
    does not sort, and when it sorts if the key [i * len + j] orders by [i],
    which it does where every second index is below the number of pairs. *)
Definition keeps_order (self : NeighborList.t) (kept : list cand) : Prop :=
  NeighborList.sorted self = false
  \/ Forall (fun c : cand => snd (fst c) < len kept) kept.

(** The pair of an atom with itself at zero shift. *)
Definition self_pair (r : pair) : bool := (p_i r =? p_j r) && ivec_zero (p_S r).

(** The two lists of lists of [PrimitiveNeighborList]: one row for each of
    the [N] atoms, a displacement for every neighbour, every neighbour the
    number of an atom. *)
Definition aligned (N : nat) (nb : list (list Z)) (dp : list (list ivec3)) : Prop :=
  length nb = N /\ length dp = N
  /\ Forall2 (fun (n : list Z) (d : list ivec3) => length n = length d) nb dp
  /\ Forall (Forall (fun b => 0 <= b < Z.of_nat N)) nb.

Definition rows_aligned (N : nat) (st : PrimitiveNeighborList.lists) : Prop :=
  aligned N (PrimitiveNeighborList.l_neighbors st)
            (PrimitiveNeighborList.l_displacements st).

(** The entry [(b, d)] of row [a] is atom [a] itself at a displacement that
    is zero as a row of [int64]. *)
Definition ivec_zero64 (sh : ivec3) : bool :=
  let '(x, y, z) := sh in (wrap64 x =? 0) && (wrap64 y =? 0) && (wrap64 z =? 0).

Definition self_entry (a : Z) (bd : Z * ivec3) : bool :=
  (fst bd =? a) && ivec_zero64 (snd bd).

(** No row lists its own atom at zero displacement. *)
Definition no_self_entry (nb : list (list Z)) (dp : list (list ivec3)) : Prop :=
  forall p row drow,
    nth_error nb p = Some row -> nth_error dp p = Some drow ->
    Forall (fun bd => self_entry (Z.of_nat p) bd = false) (combine row drow).

Definition rows_no_self (N : nat) (st : PrimitiveNeighborList.lists) : Prop :=
  rows_aligned N st
  /\ no_self_entry (PrimitiveNeighborList.l_neighbors st)
                   (PrimitiveNeighborList.l_displacements st).

(** The quantities ['ix'], with a letter that is not known. *)
Definition quantities_ix : String.string :=
  String.String "i" (String.String "x" String.EmptyString).

Section CutoffVocabulary.
Context {E : Externals}.

(** The cutoff of a pair is the zero it starts with or the value of an entry
    that selects the pair. *)
Definition from_entry (n : list Z) (d : list (element * element * float))
  (r : pair) (c : float) : Prop :=
  c = 0%float
  \/ exists k1 k2, In (k1, k2, c) d
       /\ entry_selects n (to_number k1) (to_number k2) r = true.

(** The cutoff that a dictionary gives a pair: the value of the last entry
    that selects it, [g0] where none does. *)
Definition entry_fun (n : list Z) (d : list (element * element * float))
  (g0 : pair -> float) : pair -> float :=
  fold_left (fun (g : pair -> float) (e : element * element * float) =>
               fun r => if entry_selects n (to_number (fst (fst e)))
                                         (to_number (snd (fst e))) r
                        then snd e else g r) d g0.

(** The pair of atom [i] with itself at zero shift and zero distance. *)
Definition self_at (i : Z) : pair :=
  {| p_i := i; p_j := i; p_S := (0, 0, 0);
     p_D := (0, 0, 0)%float; p_d := 0%float |}.

(** Zero is below the cutoffs that decide on the pair of atom [i] with
    itself: the maximum cutoff of the first filter, and the cutoff that the
    policy in force gives the pair. *)
Definition self_within (a : Atoms) (cutoff : cutoff_spec) (i : Z) : bool :=
  match cutoff with
  | CutScalar c => (0 <? c)%float
  | CutDict d =>
      match fmax_list (map snd d) with
      | Ok m => (0 <? m)%float
                && (0 <? entry_fun (numbers a) d (fun _ => 0%float) (self_at i))%float
      | Raise _ => false
      end
  | CutArray r =>
      match fmax_list r, py_index r i with
      | Ok m, Ok ri => (0 <? 2 * m)%float && (0 <? ri + ri)%float
      | _, _ => false
      end
  end.

End CutoffVocabulary.

Local Open Scope float_scope.

(** ** [mic] *)

(** [np.round(x)] of a float: the nearest integer, ties to the even one, as a
    float with the sign of [x]; a float without fractional bits, an infinity
    and NaN stay as they are. *)
Definition np_round (x : float) : float :=
  match Prim2SF x with
  | S754_finite s m e =>
      if (0 <=? e)%Z then x
      else match SF_rint (S754_finite s m e) with
           | Some z => if (z =? 0)%Z then (if s then - 0 else 0) else Z2F z
           | None => x
           end
  | _ => x
  end.

Definition vround_float (v : vec3) : vec3 :=
  let '(x, y, z) := v in (np_round x, np_round y, np_round z).

(** [rec *= np.array(pbc, dtype=int).reshape(3,1)]: row [c] of the matrix
    times [1] or [0]. *)
Definition scale_row (r : vec3) (p : bool) : vec3 :=
  let '(x, y, z) := r in
  let f := Z2F (if p then 1 else 0) in (x * f, y * f, z * f).

Definition scale_rows (m : mat3) (pb : bvec3) : mat3 :=
  let '(r0, r1, r2) := m in
  let '(p0, p1, p2) := pb in
  (scale_row r0 p0, scale_row r1 p1, scale_row r2 p2).

Definition mat_finite (m : mat3) : bool :=
  let '(r0, r1, r2) := m in vec_finite r0 && vec_finite r1 && vec_finite r2.

Section Mic.
Context {E : Externals}.

(** [mic(dr, cell, pbc=None)] *)
Definition mic (dr : list vec3) (cell_ : mat3) (pbc_ : option bvec3) : list vec3 :=
  let rec0 := pinv cell_ in
  let rec1 := match pbc_ with
              | Some pb => scale_rows rec0 pb
              | None => rec0
              end in
  map (fun v => vsub v (vec_dot_mat (vround_float (vec_dot_mat v rec1)) cell_)) dr.

End Mic.

(** ** [LegacyNeighborList]: the class of the same interface on top of
    [PrimitiveNeighborList] *)

Module LegacyNeighborList.

Record t : Type := { nl : PrimitiveNeighborList.t }.

Definition init (cutoffs_ : list float) (skin_ : float)
  (sorted_ self_interaction_ bothways_ : bool) : t :=
  {| nl := PrimitiveNeighborList.init cutoffs_ skin_ sorted_ self_interaction_
             bothways_ false |}.

Section Methods.
Context {E : Externals}.

Definition update (self : t) (atoms : Atoms) : result (bool * t) :=
  ' (b, nl') <- PrimitiveNeighborList.update (nl self) (pbc atoms) (cell atoms)
                  (positions atoms) ;;
  Ok (b, {| nl := nl' |}).

Definition get_neighbors (self : t) (a : Z) : result (list Z * list ivec3) :=
  PrimitiveNeighborList.get_neighbors (nl self) a.

End Methods.

Definition nupdates (self : t) : Z := PrimitiveNeighborList.nupdates (nl self).
Definition nneighbors (self : t) : Z := PrimitiveNeighborList.nneighbors (nl self).
Definition npbcneighbors (self : t) : Z :=
  PrimitiveNeighborList.npbcneighbors (nl self).

End LegacyNeighborList.

(** * Properties *)

(** ** Floating point: comparison, opposites and zeros *)

Local Close Scope Z_scope.

Lemma SFcompare_antisym (x y : spec_float) :
  SFcompare y x = option_map CompOpp (SFcompare x y).
Proof.
  destruct x as [sx|sx| |sx mx ex], y as [sy|sy| |sy my ey]; simpl;
    try reflexivity;
    try (destruct sx; reflexivity); try (destruct sy; reflexivity);
    try (destruct sx, sy; reflexivity).
  destruct sx, sy; simpl; try reflexivity;
    rewrite (Z.compare_antisym ex ey);
    destruct (ex ?= ey)%Z eqn:He; simpl; try reflexivity;
    rewrite ?CompOpp_involutive, ?Pos.compare_cont_antisym; simpl;
    rewrite ?CompOpp_involutive; reflexivity.
Qed.

Lemma ltb_leb_false (x y : float) : (x <? y) = true -> (y <=? x) = false.
Proof.
  rewrite ltb_spec, leb_spec. unfold SFltb, SFleb.
  rewrite (SFcompare_antisym (Prim2SF x) (Prim2SF y)).
  destruct (SFcompare (Prim2SF x) (Prim2SF y)) as [[ | | ]|]; simpl; congruence.
Qed.

Section Mirror.
Variables prec emax : Z.

Lemma SFopp_involutive (a : spec_float) : SFopp (SFopp a) = a.
Proof. destruct a; simpl; rewrite ?negb_involutive; reflexivity. Qed.

Lemma sf_mirror_opp (a : spec_float) : sf_mirror a (SFopp a).
Proof. destruct a; simpl; auto. Qed.

Lemma sf_mirror_sym (a b : spec_float) : sf_mirror a b -> sf_mirror b a.
Proof.
  destruct a, b; simpl; intros H; auto; try discriminate;
    inversion H; subst; rewrite ?negb_involutive; reflexivity.
Qed.

Lemma binary_round_aux_opp s m e l :
  binary_round_aux prec emax (negb s) m e l
  = SFopp (binary_round_aux prec emax s m e l).
Proof.
  unfold binary_round_aux.
  destruct (shr_fexp prec emax m e l) as [mrs e'].
  destruct (shr_fexp prec emax _ e' loc_Exact) as [mrs' e''].
  destruct (shr_m mrs'); simpl; try reflexivity.
  destruct (Z.leb e'' (emax - prec)); reflexivity.
Qed.

Lemma binary_round_opp s m e :
  binary_round prec emax (negb s) m e = SFopp (binary_round prec emax s m e).
Proof.
  unfold binary_round.
  destruct (shl_align m e _) as [mz ez]. apply binary_round_aux_opp.
Qed.

Lemma binary_normalize_opp m e :
  sf_mirror (binary_normalize prec emax m e false)
            (binary_normalize prec emax (- m) e false).
Proof.
  destruct m as [|p|p]; simpl.
  - exact I.
  - change true with (negb false). rewrite binary_round_opp. apply sf_mirror_opp.
  - apply sf_mirror_sym. change true with (negb false).
    rewrite binary_round_opp. apply sf_mirror_opp.
Qed.

Lemma SFsub_mirror (a b : spec_float) :
  sf_mirror (SFsub prec emax a b) (SFsub prec emax b a).
Proof.
  destruct a as [sa|sa| |sa ma ea], b as [sb|sb| |sb mb eb]; simpl;
    try (destruct sa; simpl; auto; fail);
    try (destruct sb; simpl; auto; fail);
    try (destruct sa, sb; simpl; auto; fail);
    try (rewrite ?negb_involutive; reflexivity).
  rewrite (Z.min_comm eb ea).
  match goal with
  | |- sf_mirror (binary_normalize _ _ ?x _ _) (binary_normalize _ _ ?y _ _) =>
      replace y with (- x)%Z by (destruct sa, sb; unfold cond_Zopp; lia)
  end.
  apply binary_normalize_opp.
Qed.

Lemma SFmul_opp_l (a c : spec_float) :
  SFmul prec emax (SFopp a) c = SFopp (SFmul prec emax a c).
Proof.
  destruct a as [sa|sa| |sa ma ea], c as [sc|sc| |sc mc ec]; simpl;
    try reflexivity;
    try (destruct sa, sc; reflexivity).
  rewrite <- binary_round_aux_opp. destruct sa, sc; reflexivity.
Qed.

Lemma SFmul_mirror (a a' c : spec_float) :
  sf_mirror a a' -> sf_mirror (SFmul prec emax a c) (SFmul prec emax a' c).
Proof.
  intros H.
  destruct a as [sa|sa| |sa ma ea], a' as [sa'|sa'| |sa' ma' ea'];
    simpl in H; try discriminate;
    try (inversion H; subst;
         match goal with
         | |- sf_mirror (SFmul _ _ ?x _) _ =>
             change (sf_mirror (SFmul prec emax x c) (SFmul prec emax (SFopp x) c));
             rewrite SFmul_opp_l; apply sf_mirror_opp
         end).
  destruct c; simpl; auto.
Qed.

Lemma SFadd_mirror (a a' b b' : spec_float) :
  sf_mirror a a' -> sf_mirror b b' ->
  sf_mirror (SFadd prec emax a b) (SFadd prec emax a' b').
Proof.
  intros Ha Hb.
  destruct a as [sa|sa| |sa ma ea], a' as [sa'|sa'| |sa' ma' ea'];
    simpl in Ha; try discriminate; try (inversion Ha; subst; clear Ha);
    destruct b as [sb|sb| |sb mb eb], b' as [sb'|sb'| |sb' mb' eb'];
    simpl in Hb; try discriminate; try (inversion Hb; subst; clear Hb);
    simpl; auto;
    try (destruct sa; simpl; auto; fail);
    try (destruct sb; simpl; auto; fail);
    try (destruct sa, sb; simpl; auto; fail);
    try (destruct sa, sa', sb, sb'; simpl; auto; fail).
  match goal with
  | |- sf_mirror (binary_normalize _ _ ?x _ _) (binary_normalize _ _ ?y _ _) =>
      replace y with (- x)%Z by (destruct sa, sb; unfold cond_Zopp, negb; lia)
  end.
  apply binary_normalize_opp.
Qed.

Lemma SFmul_square_mirror (a a' : spec_float) :
  sf_mirror a a' -> SFmul prec emax a a = SFmul prec emax a' a'.
Proof.
  intros H.
  destruct a as [sa|sa| |sa ma ea], a' as [sa'|sa'| |sa' ma' ea'];
    simpl in H; try discriminate; try (inversion H; subst; clear H); simpl;
    try reflexivity;
    try (destruct sa; reflexivity);
    try (destruct sa, sa'; reflexivity).
Qed.

End Mirror.

Lemma fmirror_sub (x y : float) : fmirror (x - y) (y - x).
Proof. unfold fmirror. rewrite !sub_spec. apply SFsub_mirror. Qed.

Lemma fmirror_mul (x x' c : float) : fmirror x x' -> fmirror (x * c) (x' * c).
Proof. unfold fmirror. rewrite !mul_spec. apply SFmul_mirror. Qed.

Lemma fmirror_add (x x' y y' : float) :
  fmirror x x' -> fmirror y y' -> fmirror (x + y) (x' + y').
Proof. unfold fmirror. rewrite !add_spec. apply SFadd_mirror. Qed.

Lemma fmirror_square (x x' : float) : fmirror x x' -> x * x = x' * x'.
Proof.
  intros H. apply Prim2SF_inj. rewrite !mul_spec. now apply SFmul_square_mirror.
Qed.

Lemma fmirror_Z2F (z : Z) :
  (INT64_MIN < z < 2 ^ 63)%Z -> fmirror (Z2F z) (Z2F (- z)).
Proof.
  intros Hz. unfold fmirror, Z2F.
  destruct (Z.eqb_spec z INT64_MIN) as [Em|_]; [unfold INT64_MIN in *; lia|].
  destruct (Z.eqb_spec (- z) INT64_MIN) as [Em|_]; [unfold INT64_MIN in *; lia|].
  destruct (Z.ltb_spec z 0); destruct (Z.ltb_spec (- z) 0); try lia.
  - rewrite opp_spec. apply sf_mirror_sym, sf_mirror_opp.
  - rewrite Z.opp_involutive, opp_spec. apply sf_mirror_opp.
  - assert (z = 0%Z) by lia. subst. exact I.
Qed.

Lemma add_comm_float (x y : float) : x + y = y + x.
Proof.
  apply Prim2SF_inj. rewrite !add_spec.
  destruct (Prim2SF x) as [sa|sa| |sa ma ea], (Prim2SF y) as [sb|sb| |sb mb eb];
    simpl; try reflexivity; try (destruct sa, sb; reflexivity).
  unfold SF64add. simpl. rewrite (Z.min_comm eb ea). f_equal. lia.
Qed.

Lemma float_zero_finite (x : float) : float_zero x = true -> float_finite x = true.
Proof. unfold float_zero, float_finite. now destruct (Prim2SF x). Qed.

Lemma sub_self_zero (x : float) : float_finite x = true -> float_zero (x - x) = true.
Proof.
  unfold float_finite, float_zero. rewrite sub_spec.
  destruct (Prim2SF x) as [s|s| |s m e]; try discriminate; intros _.
  - now destruct s.
  - unfold SF64sub, SFsub. rewrite Z.sub_diag. reflexivity.
Qed.

Lemma mul_zero_finite (z c : float) :
  float_zero z = true -> float_finite c = true -> float_zero (z * c) = true.
Proof.
  unfold float_finite, float_zero. rewrite mul_spec.
  destruct (Prim2SF z); try discriminate.
  destruct (Prim2SF c); try discriminate; reflexivity.
Qed.

Lemma add_zero_zero (x y : float) :
  float_zero x = true -> float_zero y = true -> float_zero (x + y) = true.
Proof.
  unfold float_zero. rewrite add_spec.
  destruct (Prim2SF x) as [sx| | |]; try discriminate.
  destruct (Prim2SF y) as [sy| | |]; try discriminate.
  now destruct sx, sy.
Qed.

Lemma sqrt_zero (x : float) : float_zero x = true -> float_zero (sqrt x) = true.
Proof.
  unfold float_zero. rewrite sqrt_spec.
  now destruct (Prim2SF x).
Qed.

Lemma ltb_zero (x c : float) : float_zero x = true -> (x <? c) = (0 <? c).
Proof.
  unfold float_zero. rewrite !ltb_spec.
  destruct (Prim2SF x); try discriminate. intros _.
  change (Prim2SF 0) with (S754_zero false).
  unfold SFltb. now destruct (Prim2SF c).
Qed.

Lemma Z2F_0_zero : float_zero (Z2F 0) = true.
Proof. reflexivity. Qed.

Local Close Scope float_scope.
Local Open Scope Z_scope.

(** ** Integers of 64 bits *)

Lemma wrap64_range (z : Z) : INT64_MIN <= wrap64 z < 2 ^ 63.
Proof.
  unfold wrap64, INT64_MIN.
  pose proof (Z.mod_pos_bound (z + 2 ^ 63) (2 ^ 64) ltac:(lia)). lia.
Qed.

Lemma wrap64_small (z : Z) : INT64_MIN <= z < 2 ^ 63 -> wrap64 z = z.
Proof.
  unfold wrap64, INT64_MIN. intros H. rewrite Z.mod_small; lia.
Qed.

Lemma wrap64_wrap64 (z : Z) : wrap64 (wrap64 z) = wrap64 z.
Proof. apply wrap64_small, wrap64_range. Qed.

Lemma wrap64_congr (x y : Z) :
  (x + 2 ^ 63) mod 2 ^ 64 = (y + 2 ^ 63) mod 2 ^ 64 -> wrap64 x = wrap64 y.
Proof. unfold wrap64. now intros ->. Qed.

Lemma wrap64_add_r (x y : Z) : wrap64 (x + wrap64 y) = wrap64 (x + y).
Proof.
  apply wrap64_congr. unfold wrap64.
  replace (x + ((y + 2 ^ 63) mod 2 ^ 64 - 2 ^ 63) + 2 ^ 63)
    with (x + (y + 2 ^ 63) mod 2 ^ 64) by lia.
  rewrite Z.add_mod_idemp_r by lia. f_equal. lia.
Qed.

Lemma wrap64_add_l (x y : Z) : wrap64 (wrap64 x + y) = wrap64 (x + y).
Proof. rewrite Z.add_comm, wrap64_add_r. f_equal. lia. Qed.

Lemma wrap64_sub_r (x y : Z) : wrap64 (x - wrap64 y) = wrap64 (x - y).
Proof.
  apply wrap64_congr. unfold wrap64.
  replace (x - ((y + 2 ^ 63) mod 2 ^ 64 - 2 ^ 63) + 2 ^ 63)
    with (x + 2 ^ 64 - (y + 2 ^ 63) mod 2 ^ 64) by lia.
  rewrite Zminus_mod_idemp_r. f_equal. lia.
Qed.

(** Every [int64] but [INT64_MIN] has its opposite. *)
Lemma wrap64_opp (x : Z) : wrap64 x <> INT64_MIN -> wrap64 (- x) = - wrap64 x.
Proof.
  intros H. pose proof (wrap64_range x) as R.
  rewrite <- (wrap64_small (- wrap64 x)) by (unfold INT64_MIN in *; lia).
  replace (- wrap64 x) with (0 - wrap64 x) by lia.
  rewrite wrap64_sub_r. f_equal.
Qed.

Lemma wrap64_zero (z : Z) : INT64_MIN <= z < 2 ^ 63 -> wrap64 z = 0 -> z = 0.
Proof. intros H E. now rewrite wrap64_small in E. Qed.

Lemma in_int64_spec (z : Z) : in_int64 z = true <-> INT64_MIN <= z < 2 ^ 63.
Proof. unfold in_int64. rewrite andb_true_iff, Z.leb_le, Z.ltb_lt. tauto. Qed.

(** ** The error monad *)

Lemma bind_Ok {A B : Type} (c : result A) (k : A -> result B) (b : B) :
  bind c k = Ok b -> exists a, c = Ok a /\ k a = Ok b.
Proof. destruct c as [a|e]; simpl; intros H; [eauto | discriminate]. Qed.

Ltac inv_bind H :=
  let x := fresh "x" in
  let Hx := fresh "Hx" in
  apply bind_Ok in H; destruct H as (x & Hx & H).

Lemma mapM_Ok_Forall2 {A B : Type} (f : A -> result B) (l : list A) (l' : list B) :
  mapM f l = Ok l' -> Forall2 (fun x y => f x = Ok y) l l'.
Proof.
  revert l'. induction l as [|x t IH]; simpl; intros l' H.
  - inversion H. constructor.
  - inv_bind H. inv_bind H. inversion H; subst. constructor; auto.
Qed.

Lemma mapM_in {A B : Type} (f : A -> result B) (l : list A) (l' : list B) (y : B) :
  mapM f l = Ok l' -> In y l' -> exists x, In x l /\ f x = Ok y.
Proof.
  intros H. apply mapM_Ok_Forall2 in H.
  induction H; simpl; intros Hy; [contradiction|].
  destruct Hy as [<-|Hy]; [eauto|].
  destruct (IHForall2 Hy) as (x0 & ? & ?). eauto.
Qed.

Lemma mapM_in_inv {A B : Type} (f : A -> result B) (l : list A) (l' : list B) (x : A) :
  mapM f l = Ok l' -> In x l -> exists y, f x = Ok y /\ In y l'.
Proof.
  intros H. apply mapM_Ok_Forall2 in H.
  induction H; simpl; intros Hx; [contradiction|].
  destruct Hx as [<-|Hx]; [eauto|].
  destruct (IHForall2 Hx) as (y0 & ? & ?). eauto.
Qed.

Lemma mapM_total {A B : Type} (f : A -> result B) (g : A -> B) (l : list A) :
  (forall x, In x l -> f x = Ok (g x)) -> mapM f l = Ok (map g l).
Proof.
  induction l as [|x t IH]; simpl; intros H; [reflexivity|].
  rewrite (H x) by auto. simpl. rewrite IH by auto. reflexivity.
Qed.

Lemma mapM_Ok_map {A B : Type} (f : A -> result B) (d : B) (l : list A) (l' : list B) :
  mapM f l = Ok l' ->
  l' = map (fun x => match f x with Ok y => y | Raise _ => d end) l.
Proof.
  intros H. apply mapM_Ok_Forall2 in H.
  induction H; simpl; [reflexivity|]. rewrite H. f_equal. assumption.
Qed.

(** ** Sequences *)

Lemma in_zrange (lo hi k : Z) : In k (zrange lo hi) <-> lo <= k < hi.
Proof.
  unfold zrange. rewrite in_map_iff. split.
  - intros (p & <- & Hp). apply in_seq in Hp. lia.
  - intros H. exists (Z.to_nat (k - lo)). split; [lia|]. apply in_seq. lia.
Qed.

Lemma length_zrange (lo hi : Z) : length (zrange lo hi) = Z.to_nat (hi - lo).
Proof. unfold zrange. now rewrite length_map, length_seq. Qed.

Lemma nth_map_zrange {A : Type} (f : Z -> A) (d : A) (lo hi : Z) (k : nat) :
  (k < Z.to_nat (hi - lo))%nat ->
  nth k (map f (zrange lo hi)) d = f (lo + Z.of_nat k).
Proof.
  intros H. unfold zrange. rewrite map_map.
  rewrite (nth_indep _ d (f (lo + Z.of_nat 0)))
    by now rewrite length_map, length_seq.
  rewrite (map_nth (fun j => f (lo + Z.of_nat j)) (seq 0 (Z.to_nat (hi - lo))) 0%nat k).
  now rewrite seq_nth.
Qed.

Lemma NoDup_zrange (lo hi : Z) : NoDup (zrange lo hi).
Proof.
  unfold zrange. apply Finite.Injective_map_NoDup; [|apply seq_NoDup].
  intros x y H. lia.
Qed.

Lemma mask_select_map {A : Type} (f : A -> bool) (l : list A) :
  mask_select (map f l) l = filter f l.
Proof.
  induction l as [|x t IH]; simpl; [reflexivity|].
  rewrite IH. reflexivity.
Qed.

Lemma insert_by_perm {A : Type} (key : A -> Z) (x : A) (l : list A) :
  Permutation (insert_by key x l) (x :: l).
Proof.
  induction l as [|y t IH]; simpl; [reflexivity|].
  destruct (key x <=? key y); [reflexivity|].
  rewrite IH. apply perm_swap.
Qed.

Lemma sort_by_perm {A : Type} (key : A -> Z) (l : list A) :
  Permutation (sort_by key l) l.
Proof.
  induction l as [|x t IH]; simpl; [reflexivity|].
  rewrite insert_by_perm. now apply perm_skip.
Qed.

Lemma sort_by_in {A : Type} (key : A -> Z) (l : list A) (x : A) :
  In x (sort_by key l) <-> In x l.
Proof.
  split; apply Permutation_in; [|symmetry]; apply sort_by_perm.
Qed.

Lemma in_concat_nonempty {A : Type} (ls : list (list A)) (x : A) :
  In x (concat (filter nonempty ls)) <-> In x (concat ls).
Proof.
  induction ls as [|l t IH]; simpl; [tauto|].
  destruct l as [|y l]; [exact IH|].
  cbn [filter nonempty concat]. rewrite !in_app_iff, IH. tauto.
Qed.

(** ** The search over the bins is symmetric *)

Lemma in_offset_pairs B n0 n1 n2 M dx dy dz i j s :
  In (i, j, s) (offset_pairs B (n0, n1, n2) M (dx, dy, dz)) <->
  exists bx by_ bz p q,
    (0 <= bx < n0 /\ 0 <= by_ < n1 /\ 0 <= bz < n2) /\
    (0 <= p < M /\ 0 <= q < M) /\
    i = bin_slot B (bx + n0 * (by_ + n1 * bz)) p /\
    j = bin_slot B (wrap64 (bx + dx) mod n0
                    + n0 * (wrap64 (by_ + dy) mod n1
                            + n1 * (wrap64 (bz + dz) mod n2))) q /\
    i <> -1 /\ j <> -1 /\
    s = (wrap64 (bx + dx) / n0, wrap64 (by_ + dy) / n1, wrap64 (bz + dz) / n2).
Proof.
  unfold offset_pairs. split.
  - intros H.
    apply in_flat_map in H as (bz & Hbz & H).
    apply in_flat_map in H as (by_ & Hby & H).
    apply in_flat_map in H as (bx & Hbx & H).
    apply in_flat_map in H as (p & Hp & H).
    apply in_flat_map in H as (q & Hq & H).
    apply in_zrange in Hbz, Hby, Hbx, Hp, Hq.
    destruct (negb (bin_slot B _ p =? -1)) eqn:Hi; simpl in H; [|contradiction].
    destruct (negb (bin_slot B _ q =? -1)) eqn:Hj; simpl in H; [|contradiction].
    destruct H as [H|[]]. inversion H; subst.
    apply negb_true_iff, Z.eqb_neq in Hi, Hj.
    exists bx, by_, bz, p, q. repeat split; auto; lia.
  - intros (bx & by_ & bz & p & q & (Hbx & Hby & Hbz) & (Hp & Hq) & -> & -> & Hi & Hj & ->).
    apply in_flat_map. exists bz. split; [apply in_zrange; lia|].
    apply in_flat_map. exists by_. split; [apply in_zrange; lia|].
    apply in_flat_map. exists bx. split; [apply in_zrange; lia|].
    apply in_flat_map. exists p. split; [apply in_zrange; lia|].
    apply in_flat_map. exists q. split; [apply in_zrange; lia|].
    apply Z.eqb_neq in Hi, Hj. rewrite Hi, Hj. simpl. auto.
Qed.

(** Going back by the opposite offset from the neighbouring bin. *)
Lemma wrap_back (b d n : Z) :
  0 <= b < n ->
  ((b + d) mod n - d) mod n = b /\ ((b + d) mod n - d) / n = - ((b + d) / n).
Proof.
  intros Hb.
  assert (Hn : n <> 0) by lia.
  pose proof (Z.div_mod (b + d) n Hn) as E.
  replace ((b + d) mod n - d) with (b + (- ((b + d) / n)) * n) by lia.
  rewrite Z.mod_add, Z.div_add by lia.
  rewrite Z.mod_small, Z.div_small by lia. lia.
Qed.

(** The same in [int64], where bin coordinate plus offset does not wrap. *)
Lemma axis_fits_spec (n nd : Z) :
  axis_fits n nd = true <-> 0 <= nd /\ n + nd < 2 ^ 63.
Proof. unfold axis_fits. rewrite andb_true_iff, Z.leb_le, Z.ltb_lt. tauto. Qed.

Lemma wrap_back64 (b d n nd : Z) :
  0 <= b < n -> axis_fits n nd = true -> - nd <= d <= nd ->
  0 <= wrap64 (b + d) mod n < n
  /\ wrap64 (wrap64 (b + d) mod n + - d) mod n = b
  /\ wrap64 (wrap64 (b + d) mod n + - d) / n = - (wrap64 (b + d) / n).
Proof.
  intros Hb Hf Hd. apply axis_fits_spec in Hf as [Hnd Hf].
  rewrite (wrap64_small (b + d)) by (unfold INT64_MIN; lia).
  pose proof (Z.mod_pos_bound (b + d) n ltac:(lia)) as Hm.
  rewrite (wrap64_small ((b + d) mod n + - d)) by (unfold INT64_MIN; lia).
  rewrite Z.add_opp_r. destruct (wrap_back b d n Hb). auto.
Qed.

Lemma offset_pairs_mirror B n0 n1 n2 M ndx ndy ndz dx dy dz i j s :
  radius_fits (n0, n1, n2) (ndx, ndy, ndz) = true ->
  - ndx <= dx <= ndx -> - ndy <= dy <= ndy -> - ndz <= dz <= ndz ->
  In (i, j, s) (offset_pairs B (n0, n1, n2) M (dx, dy, dz)) ->
  In (j, i, ivopp s) (offset_pairs B (n0, n1, n2) M (- dx, - dy, - dz)).
Proof.
  intros Hf Hdx Hdy Hdz H. unfold radius_fits in Hf.
  apply andb_true_iff in Hf as [Hf Hf2]. apply andb_true_iff in Hf as [Hf0 Hf1].
  apply in_offset_pairs in H
    as (bx & by_ & bz & p & q & (Hbx & Hby & Hbz) & (Hp & Hq) & -> & -> & Hi & Hj & ->).
  apply in_offset_pairs.
  exists (wrap64 (bx + dx) mod n0), (wrap64 (by_ + dy) mod n1),
    (wrap64 (bz + dz) mod n2), q, p.
  destruct (wrap_back64 _ dx _ _ Hbx Hf0 Hdx) as (Rx & Ex & Sx).
  destruct (wrap_back64 _ dy _ _ Hby Hf1 Hdy) as (Ry & Ey & Sy).
  destruct (wrap_back64 _ dz _ _ Hbz Hf2 Hdz) as (Rz & Ez & Sz).
  rewrite Ex, Ey, Ez, Sx, Sy, Sz.
  repeat split; auto; lia.
Qed.

Lemma in_offset_range (nd d : Z) :
  0 <= nd -> nd + 1 < 2 ^ 63 -> (In d (offset_range nd) <-> - nd <= d <= nd).
Proof.
  intros H0 H1. unfold offset_range.
  rewrite !wrap64_small by (unfold INT64_MIN; lia). rewrite in_zrange. lia.
Qed.

Lemma offset_range_int64 (nd d : Z) :
  In d (offset_range nd) -> INT64_MIN <= d < 2 ^ 63.
Proof.
  unfold offset_range. rewrite in_zrange.
  pose proof (wrap64_range (- nd)). pose proof (wrap64_range (nd + 1)). lia.
Qed.

Lemma in_all_offsets ndx ndy ndz dx dy dz :
  In (dx, dy, dz) (all_offsets (ndx, ndy, ndz)) <->
  In dx (offset_range ndx) /\ In dy (offset_range ndy) /\ In dz (offset_range ndz).
Proof.
  unfold all_offsets. split.
  - intros H.
    apply in_flat_map in H as (z & Hz & H).
    apply in_flat_map in H as (y & Hy & H).
    apply in_map_iff in H as (x & E & Hx). inversion E; subst. auto.
  - intros (Hx & Hy & Hz).
    apply in_flat_map. exists dz. split; [assumption|].
    apply in_flat_map. exists dy. split; [assumption|].
    apply in_map_iff. exists dx. split; [reflexivity|assumption].
Qed.

Lemma in_search B n M nd c0 x :
  search B n M nd = Ok c0 ->
  (In x c0 <-> exists d, In d (all_offsets nd) /\ In x (offset_pairs B n M d)).
Proof.
  unfold search. intros H.
  assert (E : c0 = concat (filter nonempty (map (offset_pairs B n M) (all_offsets nd)))).
  { destruct (filter nonempty _); [discriminate|]. now inversion H. }
  rewrite E, in_concat_nonempty, <- flat_map_concat_map, in_flat_map. reflexivity.
Qed.

Lemma search_sym B n0 n1 n2 M nd c0 :
  radius_fits (n0, n1, n2) nd = true ->
  search B (n0, n1, n2) M nd = Ok c0 -> cand_sym c0.
Proof.
  intros Hf H i j s Hin. destruct nd as [[ndx ndy] ndz].
  assert (Hr : (0 <= ndx /\ ndx + 1 < 2 ^ 63) /\ (0 <= ndy /\ ndy + 1 < 2 ^ 63)
               /\ (0 <= ndz /\ ndz + 1 < 2 ^ 63) /\ 1 <= n0 /\ 1 <= n1 /\ 1 <= n2).
  { apply (in_search _ _ _ _ _ _ H) in Hin as ([[dx dy] dz] & _ & Hin).
    apply in_offset_pairs in Hin as (bx & by_ & bz & _ & _ & (? & ? & ?) & _).
    unfold radius_fits in Hf.
    apply andb_true_iff in Hf as [Hf Hf2]. apply andb_true_iff in Hf as [Hf0 Hf1].
    apply axis_fits_spec in Hf0, Hf1, Hf2. lia. }
  destruct Hr as ((? & ?) & (? & ?) & (? & ?) & _).
  apply (in_search _ _ _ _ _ _ H) in Hin as ([[dx dy] dz] & Hd & Hin).
  apply in_all_offsets in Hd as (Hdx & Hdy & Hdz).
  apply in_offset_range in Hdx, Hdy, Hdz; try assumption.
  apply (in_search _ _ _ _ _ _ H). exists (- dx, - dy, - dz). split.
  - apply in_all_offsets. rewrite !in_offset_range by assumption. lia.
  - now apply (offset_pairs_mirror _ _ _ _ _ ndx ndy ndz).
Qed.

Lemma opposable_spec (x y z : Z) :
  opposable (x, y, z) = true <-> INT64_MIN < x /\ INT64_MIN < y /\ INT64_MIN < z.
Proof. unfold opposable. rewrite !andb_true_iff, !Z.ltb_lt. tauto. Qed.

Lemma wrap64_shift_opp (s u v : Z) :
  INT64_MIN < wrap64 (s + wrap64 (u - v)) ->
  wrap64 (- s + wrap64 (v - u)) = - wrap64 (s + wrap64 (u - v)).
Proof.
  intros H. rewrite !wrap64_add_r in *.
  rewrite <- wrap64_opp by lia. f_equal. lia.
Qed.

Lemma ivopp_shift (s si sj : ivec3) :
  opposable (ivadd s (ivsub si sj)) = true ->
  ivadd (ivopp s) (ivsub sj si) = ivopp (ivadd s (ivsub si sj)).
Proof.
  destruct s as [[? ?] ?], si as [[? ?] ?], sj as [[? ?] ?].
  unfold ivadd, ivsub, ivopp, vmap2. intros H.
  apply opposable_spec in H as (? & ? & ?).
  now rewrite !wrap64_shift_opp.
Qed.

Lemma ivadd_int64 (s t : ivec3) : shift_int64 (ivadd s t).
Proof.
  destruct s as [[? ?] ?], t as [[? ?] ?]. unfold ivadd, vmap2, shift_int64.
  repeat split; apply wrap64_range.
Qed.

Lemma add_cell_shift_int64 cs c0 c1 i j s :
  mapM (add_cell_shift cs) c0 = Ok c1 -> In (i, j, s) c1 -> shift_int64 s.
Proof.
  intros H Hin.
  destruct (mapM_in _ _ _ _ H Hin) as ([[i0 j0] s0] & _ & E).
  unfold add_cell_shift in E. inv_bind E. inv_bind E. inversion E; subst.
  apply ivadd_int64.
Qed.

Lemma add_cell_shift_sym cs c0 c1 :
  mapM (add_cell_shift cs) c0 = Ok c1 -> cand_sym c0 -> cand_sym_op c1.
Proof.
  intros H Hs i j s Hin Hop.
  destruct (mapM_in _ _ _ _ H Hin) as ([[i0 j0] s0] & Hin0 & E).
  unfold add_cell_shift in E. inv_bind E. inv_bind E. inversion E; subst.
  apply Hs in Hin0.
  destruct (mapM_in_inv _ _ _ _ H Hin0) as (y & Ey & Hy).
  unfold add_cell_shift in Ey. rewrite Hx0, Hx in Ey. simpl in Ey.
  inversion Ey; subst. now rewrite ivopp_shift in Hy.
Qed.

Lemma opp_eqb_0 x : (- x =? 0) = (x =? 0).
Proof. destruct x; reflexivity. Qed.

Lemma ivec_zero_opp s : ivec_zero (ivopp s) = ivec_zero s.
Proof.
  destruct s as [[x y] z]. unfold ivec_zero, ivopp.
  now rewrite !opp_eqb_0.
Qed.

Lemma not_self_sym i j s : not_self (j, i, ivopp s) = not_self (i, j, s).
Proof. unfold not_self. now rewrite ivec_zero_opp, Z.eqb_sym. Qed.

Lemma filter_sym (f : cand -> bool) l :
  (forall i j s, f (j, i, ivopp s) = f (i, j, s)) ->
  cand_sym_op l -> cand_sym_op (filter f l).
Proof.
  intros Hf Hs i j s Hin Hop. apply filter_In in Hin as [Hin E].
  apply filter_In. split; [now apply Hs|]. now rewrite Hf.
Qed.

Lemma drop_nonperiodic_sym pb l :
  cand_sym_op l -> cand_sym_op (drop_nonperiodic pb l).
Proof.
  destruct pb as [[p0 p1] p2]. unfold drop_nonperiodic. intros Hs.
  assert (H0 : cand_sym_op (if p0 then l else
     filter (fun c : cand => let '(_, _, (x, _, _)) := c in x =? 0) l)).
  { destruct p0; [assumption|]. apply filter_sym; [|assumption].
    intros i j [[x y] z]. simpl. apply opp_eqb_0. }
  set (l0 := if p0 then l else _) in *. clearbody l0.
  assert (H1 : cand_sym_op (if p1 then l0 else
     filter (fun c : cand => let '(_, _, (_, y, _)) := c in y =? 0) l0)).
  { destruct p1; [assumption|]. apply filter_sym; [|assumption].
    intros i j [[x y] z]. simpl. apply opp_eqb_0. }
  set (l1 := if p1 then l0 else _) in *. clearbody l1.
  destruct p2; [assumption|]. apply filter_sym; [|assumption].
  intros i j [[x y] z]. simpl. apply opp_eqb_0.
Qed.

Lemma mask_select_In {A : Type} (m : list bool) (l : list A) (x : A) :
  In x (mask_select m l) -> In x l.
Proof.
  revert m. induction l as [|y t IH]; intros [|b m]; simpl; try tauto.
  destruct b; simpl; intros H; [destruct H; eauto|eauto].
Qed.

Lemma drop_nonperiodic_In (pb : bvec3) (l : list cand) (c : cand) :
  In c (drop_nonperiodic pb l) -> In c l.
Proof.
  destruct pb as [[p0 p1] p2]. unfold drop_nonperiodic.
  destruct p0, p1, p2; intros H;
    repeat match type of H with
           | In _ (filter _ _) => apply filter_In in H as [H _]
           end; assumption.
Qed.

Lemma sort_by_sym key l : cand_sym_op l -> cand_sym_op (sort_by key l).
Proof.
  intros Hs i j s Hin Hop. apply sort_by_in. apply Hs; [|assumption].
  now apply sort_by_in in Hin.
Qed.

(** ** Mirror pairs through distances and cutoffs *)

Local Open Scope float_scope.

Lemma fmirror_dot3 (x y z x' y' z' : float) (c : vec3) :
  fmirror x x' -> fmirror y y' -> fmirror z z' ->
  fmirror (dot3 (x, y, z) c) (dot3 (x', y', z') c).
Proof.
  intros Hx Hy Hz. destruct c as [[c0 c1] c2]. unfold dot3.
  repeat apply fmirror_add; now apply fmirror_mul.
Qed.

Lemma sqsum_mirror (x y z x' y' z' : float) :
  fmirror x x' -> fmirror y y' -> fmirror z z' ->
  sqsum (x, y, z) = sqsum (x', y', z').
Proof.
  intros Hx Hy Hz. unfold sqsum.
  now rewrite (fmirror_square _ _ Hx), (fmirror_square _ _ Hy),
    (fmirror_square _ _ Hz).
Qed.

Lemma displacement_mirror (a : Atoms) (pi pj : vec3) (s : ivec3) :
  shift_int64 s -> opposable s = true ->
  sqsum (displacement a pj pi (ivopp s)) = sqsum (displacement a pi pj s).
Proof.
  destruct pi as [[x0 x1] x2], pj as [[y0 y1] y2], s as [[s0 s1] s2].
  intros (R0 & R1 & R2) Hop. apply opposable_spec in Hop as (O0 & O1 & O2).
  unfold displacement, vadd, vsub, vmap2, ivec_dot_mat, vec_dot_mat,
    ivec_to_float, ivopp.
  symmetry. apply sqsum_mirror;
    (apply fmirror_add;
     [apply fmirror_sub|apply fmirror_dot3; apply fmirror_Z2F; split; tauto]).
Qed.

Lemma with_distance_mirror (a : Atoms) (i j : Z) (s : ivec3) (r : pair) :
  shift_int64 s -> opposable s = true ->
  with_distance a (i, j, s) = Ok r ->
  exists r', with_distance a (j, i, ivopp s) = Ok r' /\ mirror r r'.
Proof.
  unfold with_distance. intros Hr Hop H. inv_bind H. inv_bind H. inversion H; subst.
  rewrite Hx0, Hx. simpl. eexists. split; [reflexivity|].
  unfold mirror; simpl. repeat split. now rewrite displacement_mirror.
Qed.

Lemma with_distance_fields (a : Atoms) (c : cand) (r : pair) :
  with_distance a c = Ok r -> c = (p_i r, p_j r, p_S r).
Proof.
  destruct c as [[i j] s]. unfold with_distance. intros H.
  inv_bind H. inv_bind H. now inversion H.
Qed.

Lemma with_distance_sym (a : Atoms) (c4 : list cand) (pairs : list pair) :
  mapM (with_distance a) c4 = Ok pairs ->
  (forall i j s, In (i, j, s) c4 -> shift_int64 s) ->
  cand_sym_op c4 -> pair_sym_op pairs.
Proof.
  intros H Hr64 Hs r Hr Hop.
  destruct (mapM_in _ _ _ _ H Hr) as ([[i j] s] & Hin & E).
  pose proof (with_distance_fields _ _ _ E) as Ef. inversion Ef; subst i j s.
  destruct (with_distance_mirror _ _ _ _ _ (Hr64 _ _ _ Hin) Hop E) as (r' & E' & Hm).
  destruct (mapM_in_inv _ _ _ _ H (Hs _ _ _ Hin Hop)) as (y & Ey & Hy).
  rewrite E' in Ey. inversion Ey; subst. eauto.
Qed.

Lemma filter_pair_sym (f : pair -> bool) (l : list pair) :
  (forall r r', mirror r r' -> f r = f r') ->
  pair_sym_op l -> pair_sym_op (filter f l).
Proof.
  intros Hf Hs r Hr Hop. apply filter_In in Hr as [Hr E].
  destruct (Hs r Hr Hop) as (r' & Hr' & Hm). exists r'. split; [|assumption].
  apply filter_In. split; [assumption|]. now rewrite <- (Hf _ _ Hm).
Qed.

Lemma mask_select_mapM_in {A : Type} (g : A -> result bool) (l : list A)
  (m : list bool) (x : A) :
  mapM g l = Ok m -> (In x (mask_select m l) <-> In x l /\ g x = Ok true).
Proof.
  intros H. apply mapM_Ok_Forall2 in H.
  induction H as [|y b l m Hy H IH]; simpl; [tauto|].
  destruct b; simpl; rewrite IH; split.
  - intros [<-|[? ?]]; auto.
  - intros [[<-|?] ?]; auto.
  - intros [? ?]; auto.
  - intros [[<-|?] ?]; auto. congruence.
Qed.

Lemma combine_maps {A B C : Type} (f : A -> B) (g : A -> C) (l : list A) :
  combine (map f l) (map g l) = map (fun x => (f x, g x)) l.
Proof. induction l; simpl; congruence. Qed.

Lemma combine_map_r {A B : Type} (g : A -> B) (l : list A) :
  combine l (map g l) = map (fun x => (x, g x)) l.
Proof. induction l; simpl; congruence. Qed.

Lemma element_eqb_number_is (el1 el2 : element) (n : Z) :
  element_eqb el1 el2 = true -> number_is n el1 = number_is n el2.
Proof.
  destruct el1, el2; simpl; try discriminate; auto.
  intros H. apply Z.eqb_eq in H. now subst.
Qed.

Lemma entry_selects_mirror (n : list Z) (el1 el2 : element) (r r' : pair) :
  mirror r r' -> entry_selects n el1 el2 r = entry_selects n el1 el2 r'.
Proof.
  intros (Hi & Hj & _ & _). unfold entry_selects, entry_mask.
  rewrite Hi, Hj.
  destruct (py_index n (p_i r)) as [ni|]; destruct (py_index n (p_j r)) as [nj|];
    simpl; try reflexivity.
  destruct (element_eqb el1 el2) eqn:E.
  - rewrite (element_eqb_number_is _ _ ni E), (element_eqb_number_is _ _ nj E).
    apply andb_comm.
  - repeat match goal with
           | |- context [number_is ?u ?v] => destruct (number_is u v)
           end; reflexivity.
Qed.

Section CutoffSym.
Context {E : Externals}.

Lemma per_pair_cutoff_fun (n : list Z) (d : list (element * element * float))
  (pairs : list pair) (g0 : pair -> float) (pc : list float) :
  (forall r r', mirror r r' -> g0 r = g0 r') ->
  foldM (assign_entry n pairs) d (map g0 pairs) = Ok pc ->
  exists g, pc = map g pairs /\ (forall r r', mirror r r' -> g r = g r').
Proof.
  revert g0. induction d as [|[[k1 k2] c] d IH]; simpl; intros g0 Hg H.
  - inversion H. eauto.
  - inv_bind H. unfold assign_entry in Hx. inv_bind Hx. inversion Hx; subst.
    rewrite (mapM_Ok_map _ false _ _ Hx0) in H.
    change (fun x1 => match entry_mask n (to_number k1) (to_number k2) x1 with
                      | Ok y => y | Raise _ => false end)
      with (entry_selects n (to_number k1) (to_number k2)) in H.
    rewrite combine_maps, map_map in H. simpl in H.
    apply IH in H; [assumption|].
    intros r r' Hm. rewrite (entry_selects_mirror n _ _ _ _ Hm), (Hg _ _ Hm).
    reflexivity.
Qed.

Lemma ltb_cutoff_mirror (g : pair -> float) :
  (forall r r', mirror r r' -> g r = g r') ->
  forall r r', mirror r r' -> (p_d r <? g r) = (p_d r' <? g r').
Proof.
  intros Hg r r' Hm. rewrite (Hg _ _ Hm).
  destruct Hm as (_ & _ & _ & ->). reflexivity.
Qed.

Lemma apply_cutoff_sym (a : Atoms) (cutoff : cutoff_spec) (pairs out : list pair) :
  apply_cutoff a cutoff pairs = Ok out -> pair_sym_op pairs -> pair_sym_op out.
Proof.
  destruct cutoff as [c|d|rc]; simpl; intros H Hs.
  - inversion H; subst. assumption.
  - inv_bind H. inversion H; subst; clear H.
    unfold per_pair_cutoff in Hx.
    apply per_pair_cutoff_fun in Hx as (g & -> & Hg); [|reflexivity].
    rewrite combine_map_r, map_map. simpl.
    rewrite mask_select_map.
    apply filter_pair_sym; [|assumption]. now apply ltb_cutoff_mirror.
  - inv_bind H. inversion H; subst; clear H.
    intros r Hr Hop. apply (mask_select_mapM_in _ _ _ _ Hx) in Hr as [Hr Hg].
    destruct (Hs r Hr Hop) as (r' & Hr' & Hm). exists r'. split; [|assumption].
    apply (mask_select_mapM_in _ _ _ _ Hx). split; [assumption|].
    destruct Hm as (Hi & Hj & _ & Hd). rewrite Hi, Hj, Hd.
    inv_bind Hg. inv_bind Hg. rewrite Hx1, Hx0. simpl.
    rewrite add_comm_float. assumption.
Qed.

End CutoffSym.

Local Close Scope float_scope.

(** ** The pairs of [neighbor_list] *)

Section Props.
Context {E : Externals}.

Lemma neighbor_list_all (a : Atoms) (cutoff : cutoff_spec) (si : bool) :
  neighbor_list quantities_all a cutoff si
  = bind (neighbor_pairs a cutoff si) (fun out => Ok (all_columns out)).
Proof. unfold neighbor_list. destruct (neighbor_pairs a cutoff si); reflexivity. Qed.

Lemma neighbor_list_all_Ok (a : Atoms) (cutoff : cutoff_spec) (si : bool) (rv : retval) :
  neighbor_list quantities_all a cutoff si = Ok rv ->
  exists out, neighbor_pairs a cutoff si = Ok out /\ rv = all_columns out.
Proof.
  rewrite neighbor_list_all. intros H. inv_bind H. inversion H. eauto.
Qed.

Lemma nbins_c_pos (fd : vec3) (mc : float) (n0 n1 n2 : Z) :
  nbins_c fd mc = (n0, n1, n2) -> 1 <= n0 /\ 1 <= n1 /\ 1 <= n2.
Proof.
  destruct fd as [[f0 f1] f2]. unfold nbins_c. intros H. inversion H. lia.
Qed.

Lemma neighbor_pairs_stages (a : Atoms) (cutoff : cutoff_spec) (si : bool)
  (out : list pair) :
  neighbor_pairs a cutoff si = Ok out ->
  exists mc n M B c0 c1 pairs, stages a cutoff si mc n M B c0 c1 pairs out.
Proof.
  unfold neighbor_pairs. intros H.
  inv_bind H. inv_bind H. inv_bind H. inv_bind H. inv_bind H. inv_bind H.
  inv_bind H.
  do 7 eexists. constructor; eauto.
Qed.

Lemma stages_pair_sym a cutoff si mc n M B c0 c1 pairs out :
  radius_fits n (loop_radius (face_dist a) mc n) = true ->
  stages a cutoff si mc n M B c0 c1 pairs out -> pair_sym_op pairs.
Proof.
  intros Hf [Hmc Hn Hfill Hsearch Hshift Hdist Hcut].
  destruct n as [[n0 n1] n2].
  assert (Hc1 : cand_sym_op c1).
  { apply (add_cell_shift_sym _ _ _ Hshift).
    exact (search_sym _ _ _ _ _ _ _ Hf Hsearch). }
  apply (with_distance_sym _ _ _ Hdist).
  - intros i j s Hin. apply sort_by_in, drop_nonperiodic_In in Hin.
    apply (add_cell_shift_int64 _ _ _ i j s Hshift).
    destruct si; [assumption|now apply filter_In in Hin].
  - apply sort_by_sym, drop_nonperiodic_sym.
    destruct si; [assumption|].
    apply filter_sym; [apply not_self_sym|assumption].
Qed.

Lemma search_fits_stages a cutoff si mc n M B c0 c1 pairs out :
  search_fits a cutoff = true ->
  stages a cutoff si mc n M B c0 c1 pairs out ->
  radius_fits n (loop_radius (face_dist a) mc n) = true.
Proof.
  intros Hf H. unfold search_fits in Hf.
  rewrite (st_max_cutoff _ _ _ _ _ _ _ _ _ _ _ H) in Hf.
  now rewrite (st_nbins _ _ _ _ _ _ _ _ _ _ _ H).
Qed.

Lemma neighbor_pairs_sym (a : Atoms) (cutoff : cutoff_spec) (si : bool)
  (out : list pair) :
  search_fits a cutoff = true ->
  neighbor_pairs a cutoff si = Ok out -> pair_sym_op out.
Proof.
  intros Hf H.
  apply neighbor_pairs_stages in H as (mc & n & M & B & c0 & c1 & pairs & H).
  pose proof (stages_pair_sym _ _ _ _ _ _ _ _ _ _ _
                (search_fits_stages _ _ _ _ _ _ _ _ _ _ _ Hf H) H) as Hs.
  apply (apply_cutoff_sym _ _ _ _ (st_cut _ _ _ _ _ _ _ _ _ _ _ H)).
  apply filter_pair_sym; [|assumption].
  intros r r' (_ & _ & _ & ->). reflexivity.
Qed.


(** C1: every pair that [neighbor_list] returns for a scalar cutoff [c] has
    the displacement [D = positions[j] - positions[i] + S . cell], the
    distance [d = sqrt(sum(D * D))] and [d < c]; no returned pair has
    [d >= c].  The arithmetic is that of float64, in the order of the
    source. *)
Theorem neighbor_list_distance_bound (a : Atoms) (c : float) (si : bool)
  (rv : retval) :
  neighbor_list quantities_all a (CutScalar c) si = Ok rv ->
  exists out, rv = all_columns out /\
    forall r, In r out ->
      (exists pi pj,
          py_index (positions a) (p_i r) = Ok pi
          /\ py_index (positions a) (p_j r) = Ok pj
          /\ p_D r = vadd (vsub pj pi) (ivec_dot_mat (p_S r) (cell a)))
      /\ p_d r = sqrt (sqsum (p_D r))
      /\ (p_d r <? c)%float = true
      /\ (c <=? p_d r)%float = false.
Proof.
  intros H. apply neighbor_list_all_Ok in H as (out & H & ->).
  exists out. split; [reflexivity|]. intros r Hr.
  apply neighbor_pairs_stages in H as (mc & n & M & B & c0 & c1 & pairs & H).
  destruct H as [Hmc Hn Hfill Hsearch Hshift Hdist Hcut].
  simpl in Hmc, Hcut. inversion Hmc; subst mc. inversion Hcut; subst out.
  apply filter_In in Hr as [Hr Hlt].
  destruct (mapM_in _ _ _ _ Hdist Hr) as ([[i j] s] & _ & Hw).
  unfold with_distance in Hw. inv_bind Hw. inv_bind Hw. inversion Hw; subst r.
  simpl in *. repeat split; eauto using ltb_leb_false.
Qed.

End Props.

(** ** Indexed updates *)

Lemma py_norm_in_range (n k : Z) : 0 <= k < n -> py_norm n k = Some (Z.to_nat k).
Proof.
  intros H. unfold py_norm.
  destruct (Z.leb_spec 0 k); [|lia]. destruct (Z.ltb_spec k n); [|lia]. reflexivity.
Qed.

Lemma length_set_nth {A : Type} (p : nat) (v : A) (l : list A) :
  length (set_nth p v l) = length l.
Proof. revert p. induction l; destruct p; simpl; auto. Qed.

Lemma nth_set_nth_eq {A : Type} (p : nat) (v d : A) (l : list A) :
  (p < length l)%nat -> nth p (set_nth p v l) d = v.
Proof.
  revert p. induction l; destruct p; simpl; intros H; try lia; auto.
  apply IHl. lia.
Qed.

Lemma nth_set_nth_neq {A : Type} (p q : nat) (v d : A) (l : list A) :
  p <> q -> nth q (set_nth p v l) d = nth q l d.
Proof.
  revert p q. induction l; destruct p, q; simpl; intros H; try lia; auto.
Qed.

Lemma count_occ_set_nth (p : nat) (v a : Z) (l : list Z) :
  (p < length l)%nat -> nth p l (-1) <> a ->
  count_occ Z.eq_dec (set_nth p v l) a
  = (count_occ Z.eq_dec l a + if Z.eq_dec v a then 1 else 0)%nat.
Proof.
  revert p. induction l as [|x t IH]; destruct p; simpl; intros Hp Hold; try lia.
  - destruct (Z.eq_dec x a); [contradiction|].
    destruct (Z.eq_dec v a); lia.
  - rewrite IH by (auto; lia). destruct (Z.eq_dec x a); lia.
Qed.

Lemma count_occ_concat_set_nth (p : nat) (row row' : list Z) (a : Z)
  (B : list (list Z)) :
  nth_error B p = Some row ->
  (count_occ Z.eq_dec (concat (set_nth p row' B)) a + count_occ Z.eq_dec row a
   = count_occ Z.eq_dec (concat B) a + count_occ Z.eq_dec row' a)%nat.
Proof.
  revert p. induction B as [|r t IH]; destruct p; simpl; intros H; try discriminate.
  - inversion H; subst. rewrite !count_occ_app. lia.
  - rewrite !count_occ_app. specialize (IH _ H). lia.
Qed.

Lemma set2_spec (B : list (list Z)) (b i v : Z) (row : list Z) :
  0 <= b < len B -> nth_error B (Z.to_nat b) = Some row -> 0 <= i < len row ->
  set2 B b i v
  = Ok (set_nth (Z.to_nat b) (set_nth (Z.to_nat i) v row) B).
Proof.
  intros Hb Hrow Hi. unfold set2, py_index, py_set.
  rewrite (py_norm_in_range _ _ Hb), Hrow. simpl.
  rewrite (py_norm_in_range _ _ Hi). reflexivity.
Qed.

(** ** The first atom of every run of a sorted list *)

Lemma mask_firsts (x : Z * Z) (t : list (Z * Z)) :
  mask_select (neq_next (snd x :: map snd t)) t = firsts (snd x) t.
Proof.
  revert x. induction t as [|y t IH]; intros x; [reflexivity|].
  cbn [map neq_next mask_select firsts].
  destruct (snd x =? snd y); simpl; rewrite <- IH; reflexivity.
Qed.

Lemma mask_others (x : Z * Z) (t : list (Z * Z)) :
  mask_select (map negb (neq_next (snd x :: map snd t))) t = others (snd x) t.
Proof.
  revert x. induction t as [|y t IH]; intros x; [reflexivity|].
  cbn [map neq_next mask_select others].
  destruct (snd x =? snd y); simpl; rewrite <- IH; reflexivity.
Qed.

Lemma select_firsts (x : Z * Z) (t : list (Z * Z)) :
  mask_select (true :: neq_next (map snd (x :: t))) (x :: t)
  = x :: firsts (snd x) t.
Proof. cbn [mask_select map]. now rewrite mask_firsts. Qed.

Lemma select_others (x : Z * Z) (t : list (Z * Z)) :
  mask_select (map negb (true :: neq_next (map snd (x :: t)))) (x :: t)
  = others (snd x) t.
Proof. cbn [mask_select map negb]. now rewrite mask_others. Qed.

Lemma firsts_others_count (prev a : Z) (l : list (Z * Z)) :
  (count_occ Z.eq_dec (map fst (firsts prev l)) a
   + count_occ Z.eq_dec (map fst (others prev l)) a
   = count_occ Z.eq_dec (map fst l) a)%nat.
Proof.
  revert prev. induction l as [|x t IH]; intros prev; [reflexivity|].
  simpl. specialize (IH (snd x)).
  destruct (prev =? snd x); simpl; destruct (Z.eq_dec (fst x) a); lia.
Qed.

Lemma firsts_above (prev : Z) (l : list (Z * Z)) :
  Forall (fun x => prev <= snd x) l -> StronglySorted Z.le (map snd l) ->
  Forall (fun x => prev < snd x) (firsts prev l)
  /\ StronglySorted Z.lt (map snd (firsts prev l)).
Proof.
  revert prev. induction l as [|x t IH]; intros prev Hle Hs; simpl.
  - split; constructor.
  - inversion Hle; subst. simpl in Hs. inversion Hs; subst.
    assert (Ht : Forall (fun y => snd x <= snd y) t).
    { rewrite Forall_map in H4. exact H4. }
    destruct (IH (snd x) Ht H3) as [Ha Hsorted].
    destruct (Z.eqb_spec prev (snd x)) as [->|Hne].
    + split; assumption.
    + split.
      * constructor; [lia|]. eapply Forall_impl; [|exact Ha]. simpl. lia.
      * simpl. constructor; [assumption|]. rewrite Forall_map. exact Ha.
Qed.

Lemma others_sorted (prev : Z) (l : list (Z * Z)) :
  StronglySorted Z.le (map snd l) -> StronglySorted Z.le (map snd (others prev l)).
Proof.
  revert prev. induction l as [|x t IH]; intros prev Hs; simpl; [constructor|].
  simpl in Hs. inversion Hs; subst.
  destruct (prev =? snd x); [|auto].
  simpl. constructor; [auto|].
  rewrite Forall_map in *. rewrite Forall_forall in *.
  intros y Hy. apply H2.
  clear - Hy. revert Hy. generalize (snd x). induction t as [|z t IHt]; simpl; [tauto|].
  intros p. destruct (p =? snd z); simpl; intros H; [destruct H; auto|]; eauto.
Qed.

Lemma others_Forall (P : Z * Z -> Prop) (prev : Z) (l : list (Z * Z)) :
  Forall P l -> Forall P (others prev l).
Proof.
  revert prev. induction l as [|x t IH]; intros prev H; simpl; [constructor|].
  inversion H; subst. destruct (prev =? snd x); auto.
Qed.

Lemma firsts_Forall (P : Z * Z -> Prop) (prev : Z) (l : list (Z * Z)) :
  Forall P l -> Forall P (firsts prev l).
Proof.
  revert prev. induction l as [|x t IH]; intros prev H; simpl; [constructor|].
  inversion H; subst. destruct (prev =? snd x); auto.
Qed.

Lemma Forall_set_nth {A : Type} (P : A -> Prop) (p : nat) (v : A) (l : list A) :
  Forall P l -> P v -> Forall P (set_nth p v l).
Proof.
  intros H Hv. revert p. induction H; destruct p; simpl; auto.
Qed.

Lemma nth_error_nth_default {A : Type} (l : list A) (p : nat) (d : A) :
  (p < length l)%nat -> nth_error l p = Some (nth p l d).
Proof. intros H. now apply nth_error_nth'. Qed.

(** Writing one column of [bins_ba]: the atoms of [sel] go to column [k] of
    their bins, which are distinct. *)
Lemma fill_column (M k : nat) (sel : list (Z * Z)) :
  forall B B' : list (list Z),
  (k < M)%nat ->
  Forall (fun row => length row = M) B ->
  StronglySorted Z.lt (map snd sel) ->
  Forall (fun ab => 0 <= snd ab < len B) sel ->
  Forall (fun ab => nth k (nth (Z.to_nat (snd ab)) B []) (-1) = -1) sel ->
  foldM (fun B ab => set2 B (snd ab) (Z.of_nat k) (fst ab)) sel B = Ok B' ->
  Forall (fun row => length row = M) B' /\ length B' = length B /\
  (forall a, a <> -1 ->
     count_occ Z.eq_dec (concat B') a
     = (count_occ Z.eq_dec (concat B) a + count_occ Z.eq_dec (map fst sel) a)%nat) /\
  (forall b p, p <> k -> nth p (nth b B' []) (-1) = nth p (nth b B []) (-1)).
Proof.
  induction sel as [|[a0 b0] sel IH]; intros B B' Hk Hrows Hs Hin Hblank H.
  - simpl in H. inversion H; subst. repeat split; auto; try (intros; simpl; lia).
  - simpl in H. inversion Hs as [|? ? Hs' Hlt]; subst.
    inversion Hin as [|? ? Hb0 Hin']; subst. simpl in Hb0.
    inversion Hblank as [|? ? Hbl0 Hblank']; subst. simpl in Hbl0.
    set (pb := Z.to_nat b0) in *.
    set (row := nth pb B []) in *.
    assert (Hpb : (pb < length B)%nat) by (unfold len in Hb0; lia).
    assert (Hrow : nth_error B pb = Some row) by now apply nth_error_nth_default.
    assert (Hlen : length row = M).
    { rewrite Forall_forall in Hrows. apply Hrows. now apply nth_In. }
    rewrite (set2_spec B b0 (Z.of_nat k) a0 row Hb0 Hrow) in H
      by (unfold len; lia).
    simpl in H. rewrite Nat2Z.id in H. fold pb in H.
    set (B1 := set_nth pb (set_nth k a0 row) B) in *.
    assert (Hlen1 : length B1 = length B) by apply length_set_nth.
    assert (Hother : forall b, b <> pb -> nth b B1 [] = nth b B []).
    { intros b Hb. unfold B1. now apply nth_set_nth_neq. }
    apply IH in H; auto.
    + destruct H as (Hrows' & Hl' & Hcount & Hcols).
      repeat split; auto; try congruence.
      * intros a Ha. rewrite (Hcount a Ha).
        pose proof (count_occ_concat_set_nth pb row (set_nth k a0 row) a B Hrow) as E.
        fold B1 in E.
        rewrite (count_occ_set_nth k a0 a row) in E by (try lia; congruence).
        simpl. destruct (Z.eq_dec a0 a); lia.
      * intros b p Hp. rewrite (Hcols b p Hp).
        destruct (Nat.eq_dec b pb) as [->|Hb]; [|now rewrite Hother].
        unfold B1. rewrite nth_set_nth_eq by assumption.
        now apply nth_set_nth_neq.
    + apply Forall_set_nth; [assumption|]. now rewrite length_set_nth.
    + unfold len in *. now rewrite Hlen1.
    + rewrite Forall_map in Hlt.
      rewrite Forall_forall in *. intros ab Hab.
      specialize (Hlt ab Hab). specialize (Hin' ab Hab). simpl in Hlt.
      rewrite Hother by (unfold pb; lia). now apply Hblank'.
Qed.

Lemma peel_step_inv (M nb : nat) (T : Z -> nat) (k : nat)
  (rest rest' : list (Z * Z)) (B B' : list (list Z)) :
  (k < M)%nat -> bins_inv M nb T k rest B ->
  peel_step (rest, B) (Z.of_nat k) = Ok (rest', B') ->
  bins_inv M nb T (S k) rest' B'.
Proof.
  intros Hk (Hrows & Hlen & Hblank & Hs & Hin & Hcount) H.
  unfold peel_step in H. destruct rest as [|x t]; [discriminate|].
  cbv zeta in H. rewrite select_firsts, select_others in H.
  inv_bind H. inversion H; subst; clear H.
  simpl in Hs. inversion Hs as [|? ? Hs' Hle]; subst.
  rewrite Forall_map in Hle.
  destruct (firsts_above (snd x) t Hle Hs') as [Habove Hsorted].
  inversion Hin as [|? ? Hx0 Hin']; subst.
  apply fill_column with (M := M) in Hx; auto.
  - destruct Hx as (Hrows' & Hl' & Hc & Hcols).
    repeat split; auto; try congruence.
    + intros b p Hp. rewrite Hcols by lia. apply Hblank. lia.
    + now apply others_sorted.
    + now apply others_Forall.
    + intros a Ha. rewrite (Hc a Ha). rewrite <- (Hcount a Ha).
      pose proof (firsts_others_count (snd x) a t).
      simpl. destruct (Z.eq_dec (fst x) a); lia.
  - simpl. constructor; [assumption|]. rewrite Forall_map. exact Habove.
  - unfold len. constructor; [assumption|].
    now apply firsts_Forall.
  - rewrite Forall_forall. intros ab _. apply Hblank. lia.
Qed.

Lemma zrange_cons (lo hi : Z) : lo < hi -> zrange lo hi = lo :: zrange (lo + 1) hi.
Proof.
  intros H. unfold zrange.
  replace (Z.to_nat (hi - lo)) with (S (Z.to_nat (hi - (lo + 1)))) by lia.
  simpl. f_equal; [lia|].
  rewrite <- seq_shift, map_map. apply map_ext. intros; lia.
Qed.

Lemma zrange_nil (lo hi : Z) : hi <= lo -> zrange lo hi = [].
Proof. intros H. unfold zrange. now replace (Z.to_nat (hi - lo)) with 0%nat by lia. Qed.

Lemma peel_loop_inv (M nb : nat) (T : Z -> nat) (j : nat) :
  forall (k : nat) (rest rest' : list (Z * Z)) (B B' : list (list Z)),
  (k + j = M)%nat -> bins_inv M nb T k rest B ->
  foldM peel_step (zrange (Z.of_nat k) (Z.of_nat M)) (rest, B) = Ok (rest', B') ->
  bins_inv M nb T M rest' B'.
Proof.
  induction j as [|j IH]; intros k rest rest' B B' Hkj Hinv H.
  - rewrite zrange_nil in H by lia. simpl in H.
    assert (k = M) by lia. subst k. inversion H; subst. assumption.
  - rewrite zrange_cons in H by lia. simpl in H. inv_bind H.
    destruct x as [rest1 B1].
    apply (peel_step_inv M nb T k) in Hx; [|lia|assumption].
    replace (Z.of_nat k + 1) with (Z.of_nat (S k)) in H by lia.
    apply (IH (S k)) in H; [assumption|lia|assumption].
Qed.

Lemma count_occ_repeat_neq (a v : Z) (n : nat) :
  v <> a -> count_occ Z.eq_dec (repeat v n) a = 0%nat.
Proof.
  intros H. induction n; simpl; [reflexivity|].
  destruct (Z.eq_dec v a); [contradiction|assumption].
Qed.

Lemma count_occ_concat_repeat (a : Z) (row : list Z) (n : nat) :
  count_occ Z.eq_dec row a = 0%nat ->
  count_occ Z.eq_dec (concat (repeat row n)) a = 0%nat.
Proof.
  intros H. induction n; simpl; [reflexivity|]. rewrite count_occ_app. lia.
Qed.

(** What [fill_bins] returns: a table of [nbins] rows of [max_nat] slots that
    holds every atom of the sorted list as often as the list does. *)
Lemma fill_bins_spec (nbins M : Z) (sorted : list (Z * Z)) (B : list (list Z)) :
  StronglySorted Z.le (map snd sorted) ->
  Forall (fun ab => 0 <= snd ab < nbins) sorted ->
  fill_bins nbins M sorted = Ok B ->
  Forall (fun row => length row = Z.to_nat M) B /\ length B = Z.to_nat nbins /\
  (forall a, a <> -1 ->
     count_occ Z.eq_dec (concat B) a = count_occ Z.eq_dec (map fst sorted) a).
Proof.
  intros Hs Hin H. unfold fill_bins in H. inv_bind H.
  destruct x as [rest B']. destruct rest; [|discriminate]. inversion H; subst B'.
  assert (E : zrange 0 M = zrange (Z.of_nat 0) (Z.of_nat (Z.to_nat M))).
  { destruct (Z.le_gt_cases 0 M).
    - now rewrite Z2Nat.id.
    - rewrite !zrange_nil; [reflexivity|lia|lia]. }
  rewrite E in Hx.
  apply (peel_loop_inv (Z.to_nat M) (Z.to_nat nbins)
           (count_occ Z.eq_dec (map fst sorted)) (Z.to_nat M) 0) in Hx.
  - destruct Hx as (Hrows & Hlen & _ & _ & _ & Hc).
    repeat split; auto.
  - reflexivity.
  - repeat split; auto.
    + apply Forall_forall. intros row Hr. apply repeat_spec in Hr. subst.
      apply repeat_length.
    + apply repeat_length.
    + intros b p _.
      destruct (Nat.lt_ge_cases b (Z.to_nat nbins)) as [Hb|Hb].
      * rewrite nth_repeat_lt by assumption.
        destruct (Nat.lt_ge_cases p (Z.to_nat M)).
        -- now rewrite nth_repeat_lt.
        -- rewrite nth_overflow; [reflexivity|]. rewrite repeat_length. lia.
      * rewrite (nth_overflow (repeat (repeat (-1) (Z.to_nat M)) (Z.to_nat nbins)) [])
          by (rewrite repeat_length; lia).
        now destruct p.
    + destruct sorted as [|x t]; [constructor|].
      eapply Forall_impl; [|exact Hin]. simpl. intros ab Hab.
      assert (0 < nbins) by (inversion Hin; subst; lia). lia.
    + intros a Ha. rewrite count_occ_concat_repeat; [lia|].
      apply count_occ_repeat_neq. congruence.
Qed.

(** ** Counting *)

Lemma cnt_app {A : Type} (P : A -> bool) (l1 l2 : list A) :
  cnt P (l1 ++ l2) = (cnt P l1 + cnt P l2)%nat.
Proof. unfold cnt. now rewrite filter_app, length_app. Qed.

Lemma cnt_none {A : Type} (P : A -> bool) (l : list A) :
  (forall x, In x l -> P x = false) -> cnt P l = 0%nat.
Proof.
  unfold cnt. induction l as [|x t IH]; simpl; intros H; [reflexivity|].
  rewrite (H x) by auto. auto.
Qed.

Lemma cnt_flat_map_single {A B : Type} (P : B -> bool) (f : A -> list B)
  (l : list A) (x0 : A) :
  NoDup l -> In x0 l ->
  (forall y c, In y l -> y <> x0 -> In c (f y) -> P c = false) ->
  cnt P (flat_map f l) = cnt P (f x0).
Proof.
  induction l as [|x t IH]; simpl; intros Hnd Hin Hz; [contradiction|].
  inversion Hnd; subst. rewrite cnt_app.
  destruct Hin as [->|Hin].
  - rewrite (cnt_none P (flat_map f t)); [lia|].
    intros c Hc. apply in_flat_map in Hc as (y & Hy & Hc).
    apply (Hz y c); auto. intros ->. contradiction.
  - rewrite (cnt_none P (f x)).
    + apply IH; auto. intros y c Hy. apply Hz. auto.
    + intros c Hc. apply (Hz x c); auto. intros ->. contradiction.
Qed.

Lemma cnt_perm {A : Type} (P : A -> bool) (l l' : list A) :
  Permutation l l' -> cnt P l = cnt P l'.
Proof.
  unfold cnt. induction 1; simpl; auto.
  - destruct (P x); simpl; auto.
  - destruct (P x), (P y); simpl; auto.
  - congruence.
Qed.

Lemma cnt_filter {A : Type} (P f : A -> bool) (l : list A) :
  (forall x, In x l -> P x = true -> f x = true) ->
  cnt P (filter f l) = cnt P l.
Proof.
  unfold cnt. induction l as [|x t IH]; simpl; intros H; [reflexivity|].
  destruct (f x) eqn:Ef; simpl; destruct (P x) eqn:Ep; simpl; auto.
  rewrite (H x) in Ef; auto. discriminate.
Qed.

Lemma cnt_Forall2 {A B : Type} (P : A -> bool) (Q : B -> bool) (R : A -> B -> Prop)
  (l : list A) (l' : list B) :
  (forall x y, R x y -> P x = Q y) -> Forall2 R l l' -> cnt P l = cnt Q l'.
Proof.
  unfold cnt. intros H. induction 1; simpl; [reflexivity|].
  rewrite (H _ _ H0). destruct (Q y); simpl; auto.
Qed.

Lemma cnt_concat_nonempty {A : Type} (P : A -> bool) (ls : list (list A)) :
  cnt P (concat (filter nonempty ls)) = cnt P (concat ls).
Proof.
  induction ls as [|l t IH]; simpl; [reflexivity|].
  destruct l as [|y l]; [exact IH|].
  cbn [nonempty concat]. now rewrite !cnt_app, IH.
Qed.

Lemma flat_map_flat_map {A B C : Type} (f : B -> list C) (g : A -> list B)
  (l : list A) :
  flat_map f (flat_map g l) = flat_map (fun x => flat_map f (g x)) l.
Proof.
  induction l as [|x t IH]; simpl; [reflexivity|].
  now rewrite flat_map_app, IH.
Qed.

Lemma flat_map_map {A B C : Type} (f : B -> list C) (g : A -> B) (l : list A) :
  flat_map f (map g l) = flat_map (fun x => f (g x)) l.
Proof. induction l as [|x t IH]; simpl; [reflexivity|]. now rewrite IH. Qed.

(** ** An atom that sits in exactly one slot of the table *)

Lemma count_zero_nth (l : list Z) (a : Z) (q : nat) :
  count_occ Z.eq_dec l a = 0%nat -> (q < length l)%nat -> nth q l (-1) <> a.
Proof.
  intros H Hq E. apply count_occ_not_In in H. apply H. rewrite <- E.
  now apply nth_In.
Qed.

Lemma count_one_nth (l : list Z) (a : Z) :
  count_occ Z.eq_dec l a = 1%nat ->
  exists p, (p < length l)%nat /\ nth p l (-1) = a /\
    forall q, (q < length l)%nat -> nth q l (-1) = a -> q = p.
Proof.
  induction l as [|x t IH]; simpl; [discriminate|].
  destruct (Z.eq_dec x a) as [->|Hne]; intros H.
  - assert (H0 : count_occ Z.eq_dec t a = 0%nat) by lia.
    exists 0%nat. repeat split; [lia|].
    intros [|q] Hq Hn; [reflexivity|].
    exfalso. apply (count_zero_nth t a q H0); [lia|assumption].
  - destruct (IH H) as (p & Hp & Hn & Hu).
    exists (S p). repeat split; [lia|assumption|].
    intros [|q] Hq Hq'; [contradiction|]. f_equal. apply Hu; [lia|assumption].
Qed.

Lemma count_one_slot (M : nat) (a : Z) (B : list (list Z)) :
  Forall (fun row => length row = M) B ->
  count_occ Z.eq_dec (concat B) a = 1%nat ->
  exists b p, unique_slot B M a b p.
Proof.
  induction B as [|row t IH]; simpl; intros Hrows H; [discriminate|].
  inversion Hrows as [|? ? Hlen Hrows']; subst.
  rewrite count_occ_app in H.
  destruct (count_occ Z.eq_dec row a) as [|[|k]] eqn:Hrow.
  - destruct (IH Hrows' H) as (b & p & Hb & Hp & Hn & Hu).
    exists (S b), p. repeat split; simpl; try lia; try assumption;
      destruct b' as [|b']; simpl in *.
    + exfalso. apply (count_zero_nth row a p' Hrow); assumption.
    + f_equal. apply (Hu b' p'); auto; lia.
    + exfalso. apply (count_zero_nth row a p' Hrow); assumption.
    + apply (Hu b' p'); auto; lia.
  - assert (H0 : count_occ Z.eq_dec (concat t) a = 0%nat) by lia.
    destruct (count_one_nth row a Hrow) as (p & Hp & Hn & Hu).
    exists 0%nat, p. repeat split; simpl; try lia; try assumption;
      destruct b' as [|b']; simpl in *; auto.
    + exfalso. apply count_occ_not_In in H0. apply H0.
      rewrite <- H3. apply in_concat. exists (nth b' t []).
      assert (Hb' : (b' < length t)%nat) by lia.
      split; [now apply nth_In|].
      apply nth_In. rewrite Forall_forall in Hrows'.
      rewrite (Hrows' (nth b' t [])); [assumption|now apply nth_In].
    + exfalso. apply count_occ_not_In in H0. apply H0.
      rewrite <- H3. apply in_concat. exists (nth b' t []).
      assert (Hb' : (b' < length t)%nat) by lia.
      split; [now apply nth_In|].
      apply nth_In. rewrite Forall_forall in Hrows'.
      rewrite (Hrows' (nth b' t [])); [assumption|now apply nth_In].
  - lia.
Qed.

(** ** The pair of an atom with itself *)

(** ** The scalar index of a bin *)

Lemma flat_range (n0 n1 n2 x y z : Z) :
  0 <= x < n0 -> 0 <= y < n1 -> 0 <= z < n2 ->
  0 <= x + n0 * (y + n1 * z) < n0 * n1 * n2.
Proof.
  intros Hx Hy Hz.
  assert (H1 : 0 <= n1 * z) by (apply Z.mul_nonneg_nonneg; lia).
  assert (H2 : n1 * z <= n1 * (n2 - 1)) by (apply Z.mul_le_mono_nonneg_l; lia).
  assert (H3 : 0 <= n0 * (y + n1 * z)) by (apply Z.mul_nonneg_nonneg; lia).
  assert (H4 : n0 * (y + n1 * z) <= n0 * (n1 * n2 - 1))
    by (apply Z.mul_le_mono_nonneg_l; lia).
  lia.
Qed.

(** The search reads the table of bins inside its bounds: the bin, the
    neighbour bin and the slot are all in range, whatever the bin
    coordinates plus offset [tx], [ty], [tz] are. *)
Lemma neighbour_bin_range (B : list (list Z)) (M n0 n1 n2 bx by_ bz tx ty tz p : Z) :
  Forall (fun row => length row = Z.to_nat M) B ->
  length B = Z.to_nat (n0 * n1 * n2) ->
  1 <= n0 -> 1 <= n1 -> 1 <= n2 ->
  0 <= bx < n0 -> 0 <= by_ < n1 -> 0 <= bz < n2 -> 0 <= p < M ->
  (Z.to_nat (bx + n0 * (by_ + n1 * bz)) < length B)%nat
  /\ (Z.to_nat (tx mod n0 + n0 * (ty mod n1 + n1 * (tz mod n2)))
      < length B)%nat
  /\ forall row, In row B -> (Z.to_nat p < length row)%nat.
Proof.
  intros Hrows Hlen H0 H1 H2 Hx Hy Hz Hp.
  pose proof (flat_range n0 n1 n2 bx by_ bz Hx Hy Hz) as Hb.
  pose proof (flat_range n0 n1 n2 _ _ _
                (Z.mod_pos_bound tx n0 ltac:(lia))
                (Z.mod_pos_bound ty n1 ltac:(lia))
                (Z.mod_pos_bound tz n2 ltac:(lia))) as Hb1.
  rewrite Hlen. split; [lia|]. split; [lia|].
  intros row Hin. rewrite Forall_forall in Hrows. rewrite (Hrows row Hin). lia.
Qed.

Lemma mod_flat (n x k : Z) : 0 <= x < n -> (x + n * k) mod n = x.
Proof.
  intros H. rewrite (Z.mul_comm n k), Z.mod_add by lia. now apply Z.mod_small.
Qed.

Lemma div_flat (n x k : Z) : 0 <= x < n -> (x + n * k) / n = k.
Proof.
  intros H. rewrite (Z.mul_comm n k), Z.div_add by lia.
  rewrite Z.div_small by lia. lia.
Qed.

Lemma flat_inj (n0 n1 x y z x' y' z' : Z) :
  0 <= x < n0 -> 0 <= x' < n0 -> 0 <= y < n1 -> 0 <= y' < n1 ->
  x + n0 * (y + n1 * z) = x' + n0 * (y' + n1 * z') ->
  x = x' /\ y = y' /\ z = z'.
Proof.
  intros Hx Hx' Hy Hy' E.
  assert (Ex : x = x').
  { rewrite <- (mod_flat n0 x (y + n1 * z)), E by assumption.
    now apply mod_flat. }
  assert (E2 : y + n1 * z = y' + n1 * z').
  { rewrite <- (div_flat n0 x (y + n1 * z)), E by assumption.
    now apply div_flat. }
  assert (Ey : y = y').
  { rewrite <- (mod_flat n1 y z), E2 by assumption. now apply mod_flat. }
  assert (Ez : z = z').
  { rewrite <- (div_flat n1 y z), E2 by assumption. now apply div_flat. }
  auto.
Qed.

Lemma flat_decompose (n0 n1 n2 b : Z) :
  1 <= n0 -> 1 <= n1 -> 0 <= b < n0 * n1 * n2 ->
  exists x y z, 0 <= x < n0 /\ 0 <= y < n1 /\ 0 <= z < n2 /\
                b = x + n0 * (y + n1 * z).
Proof.
  intros H0 H1 Hb.
  exists (b mod n0), ((b / n0) mod n1), (b / n0 / n1).
  assert (0 <= b / n0) by (apply Z.div_pos; lia).
  assert (b / n0 < n1 * n2) by (apply Z.div_lt_upper_bound; nia).
  repeat split; try (apply Z.mod_pos_bound; lia).
  - apply Z.div_pos; lia.
  - apply Z.div_lt_upper_bound; nia.
  - pose proof (Z.div_mod (b / n0) n1 ltac:(lia)) as E1.
    pose proof (Z.div_mod b n0 ltac:(lia)) as E0.
    rewrite (Z.add_comm ((b / n0) mod n1)), <- E1. lia.
Qed.

Ltac open_slot H :=
  destruct H as ((Hn0 & Hn1 & Hn2) & (Hx0 & Hy0 & Hz0 & Hp0) & Ha & Hslot & Huniq).

(** Where the pair of [a] with itself at zero shift can come from: [tx],
    [ty], [tz] are the bin coordinates plus the offset. *)
Lemma self_zero_origin B n0 n1 n2 M a x0 y0 z0 p0 (bx by_ bz p q tx ty tz : Z) :
  only_slot B n0 n1 n2 M a x0 y0 z0 p0 ->
  0 <= bx < n0 -> 0 <= by_ < n1 -> 0 <= bz < n2 -> 0 <= p < M -> 0 <= q < M ->
  bin_slot B (bx + n0 * (by_ + n1 * bz)) p = a ->
  bin_slot B (tx mod n0 + n0 * (ty mod n1 + n1 * (tz mod n2))) q = a ->
  ivec_zero (tx / n0, ty / n1, tz / n2) = true ->
  (bx = x0 /\ by_ = y0 /\ bz = z0) /\ (p = p0 /\ q = p0)
  /\ (tx = bx /\ ty = by_ /\ tz = bz).
Proof.
  intros Hslot0 Hbx Hby Hbz Hp Hq Hi Hj Hs. open_slot Hslot0.
  pose proof (Z.mod_pos_bound tx n0 ltac:(lia)) as Rx.
  pose proof (Z.mod_pos_bound ty n1 ltac:(lia)) as Ry.
  pose proof (Z.mod_pos_bound tz n2 ltac:(lia)) as Rz.
  apply Huniq in Hi as [Eb Ep]; [|now apply flat_range|assumption].
  apply Huniq in Hj as [Eb1 Eq]; [|now apply flat_range|assumption].
  apply flat_inj in Eb as (Ex & Ey & Ez); try assumption.
  apply flat_inj in Eb1 as (Ex1 & Ey1 & Ez1); try assumption.
  unfold ivec_zero in Hs. apply andb_true_iff in Hs as [Hs Hsz].
  apply andb_true_iff in Hs as [Hsx Hsy].
  apply Z.eqb_eq in Hsx, Hsy, Hsz.
  pose proof (Z.div_mod tx n0 ltac:(lia)).
  pose proof (Z.div_mod ty n1 ltac:(lia)).
  pose proof (Z.div_mod tz n2 ltac:(lia)).
  repeat split; try assumption; nia.
Qed.

(** An [int64] offset that leaves a coordinate where it is, is zero. *)
Lemma wrap64_fixed (b d : Z) :
  INT64_MIN <= d < 2 ^ 63 -> wrap64 (b + d) = b -> d = 0.
Proof.
  unfold wrap64, INT64_MIN. intros Hd H.
  pose proof (Z.div_mod (b + d + 2 ^ 63) (2 ^ 64) ltac:(lia)) as E.
  lia.
Qed.

Lemma self_zero_away B n0 n1 n2 M a x0 y0 z0 p0 (d : ivec3) (c : cand) :
  only_slot B n0 n1 n2 M a x0 y0 z0 p0 ->
  shift_int64 d ->
  In c (offset_pairs B (n0, n1, n2) M d) -> is_self_zero a c = true ->
  d = (0, 0, 0).
Proof.
  destruct d as [[dx dy] dz], c as [[i j] s]. intros Hslot0 (Rx & Ry & Rz) Hin Hc.
  apply in_offset_pairs in Hin
    as (bx & by_ & bz & p & q & (Hbx & Hby & Hbz) & (Hp & Hq) & Hi & Hj & _ & _ & Hs).
  unfold is_self_zero in Hc. apply andb_true_iff in Hc as [Hc Hz].
  apply andb_true_iff in Hc as [Ei Ej]. apply Z.eqb_eq in Ei, Ej. subst s.
  destruct (self_zero_origin _ _ _ _ _ _ _ _ _ _ bx by_ bz p q
              (wrap64 (bx + dx)) (wrap64 (by_ + dy)) (wrap64 (bz + dz)) Hslot0)
    as (_ & _ & Ex & Ey & Ez); auto; try congruence.
  apply wrap64_fixed in Ex, Ey, Ez; try assumption. now subst.
Qed.

Ltac dig H :=
  repeat match type of H with
         | In _ (flat_map _ _) =>
             let v := fresh "v" in
             let Hv := fresh "Hv" in
             apply in_flat_map in H as (v & Hv & H); apply in_zrange in Hv
         end.

Lemma self_zero_leaf B n0 n1 n2 M a x0 y0 z0 p0 (bx by_ bz p q : Z) (c : cand) :
  only_slot B n0 n1 n2 M a x0 y0 z0 p0 ->
  0 <= bx < n0 -> 0 <= by_ < n1 -> 0 <= bz < n2 -> 0 <= p < M -> 0 <= q < M ->
  In c (let i := bin_slot B (bx + n0 * (by_ + n1 * bz)) p in
        let j := bin_slot B (wrap64 (bx + 0) mod n0
                   + n0 * (wrap64 (by_ + 0) mod n1
                           + n1 * (wrap64 (bz + 0) mod n2))) q in
        if negb (i =? -1) && negb (j =? -1)
        then [(i, j, (wrap64 (bx + 0) / n0, wrap64 (by_ + 0) / n1,
                      wrap64 (bz + 0) / n2))] else []) ->
  is_self_zero a c = true ->
  (bx = x0 /\ by_ = y0 /\ bz = z0) /\ (p = p0 /\ q = p0).
Proof.
  intros Hslot0 Hbx Hby Hbz Hp Hq Hin Hc. cbv zeta in Hin.
  destruct (negb _ && negb _); [|contradiction].
  destruct Hin as [<-|[]].
  unfold is_self_zero in Hc. apply andb_true_iff in Hc as [Hc Hz].
  apply andb_true_iff in Hc as [Ei Ej]. apply Z.eqb_eq in Ei, Ej.
  destruct (self_zero_origin _ _ _ _ _ _ _ _ _ _ bx by_ bz p q
              (wrap64 (bx + 0)) (wrap64 (by_ + 0)) (wrap64 (bz + 0)) Hslot0)
    as (? & ? & _); auto.
Qed.

Lemma self_zero_count B n0 n1 n2 M a x0 y0 z0 p0 :
  n0 < 2 ^ 63 -> n1 < 2 ^ 63 -> n2 < 2 ^ 63 ->
  only_slot B n0 n1 n2 M a x0 y0 z0 p0 ->
  cnt (is_self_zero a) (offset_pairs B (n0, n1, n2) M (0, 0, 0)) = 1%nat.
Proof.
  intros L0 L1 L2 Hslot0. pose proof Hslot0 as Hs0. open_slot Hs0.
  unfold offset_pairs.
  rewrite (cnt_flat_map_single _ _ _ z0);
    [|apply NoDup_zrange|apply in_zrange; lia|].
  2:{ intros bz c Hbz Hne Hin. apply in_zrange in Hbz. dig Hin.
      destruct (is_self_zero a c) eqn:Hc; [|reflexivity].
      destruct (self_zero_leaf _ _ _ _ _ _ _ _ _ _ v0 v bz v1 v2 c Hslot0) as ((? & ? & ?) & _); auto.
      contradiction. }
  rewrite (cnt_flat_map_single _ _ _ y0);
    [|apply NoDup_zrange|apply in_zrange; lia|].
  2:{ intros by_ c Hby Hne Hin. apply in_zrange in Hby. dig Hin.
      destruct (is_self_zero a c) eqn:Hc; [|reflexivity].
      destruct (self_zero_leaf _ _ _ _ _ _ _ _ _ _ v by_ z0 v0 v1 c Hslot0) as ((? & ? & ?) & _); auto.
      contradiction. }
  rewrite (cnt_flat_map_single _ _ _ x0);
    [|apply NoDup_zrange|apply in_zrange; lia|].
  2:{ intros bx c Hbx Hne Hin. apply in_zrange in Hbx. dig Hin.
      destruct (is_self_zero a c) eqn:Hc; [|reflexivity].
      destruct (self_zero_leaf _ _ _ _ _ _ _ _ _ _ bx y0 z0 v v0 c Hslot0) as ((? & ? & ?) & _); auto.
      contradiction. }
  rewrite (cnt_flat_map_single _ _ _ p0);
    [|apply NoDup_zrange|apply in_zrange; lia|].
  2:{ intros p c Hp Hne Hin. apply in_zrange in Hp. dig Hin.
      destruct (is_self_zero a c) eqn:Hc; [|reflexivity].
      destruct (self_zero_leaf _ _ _ _ _ _ _ _ _ _ x0 y0 z0 p v c Hslot0) as (_ & ? & ?); auto.
      contradiction. }
  rewrite (cnt_flat_map_single _ _ _ p0);
    [|apply NoDup_zrange|apply in_zrange; lia|].
  2:{ intros q c Hq Hne Hin. apply in_zrange in Hq.
      destruct (is_self_zero a c) eqn:Hc; [|reflexivity].
      destruct (self_zero_leaf _ _ _ _ _ _ _ _ _ _ x0 y0 z0 p0 q c Hslot0) as (_ & ? & ?); auto.
      contradiction. }
  rewrite !Z.add_0_r, !wrap64_small by (unfold INT64_MIN; lia).
  rewrite !Z.mod_small, !Z.div_small by lia.
  rewrite Hslot. apply Z.eqb_neq in Ha. rewrite Ha. simpl.
  unfold cnt. simpl. now rewrite Z.eqb_refl.
Qed.

(** ** Every atom has one bin *)

Lemma insert_by_sorted {A : Type} (key : A -> Z) (x : A) (l : list A) :
  StronglySorted Z.le (map key l) ->
  StronglySorted Z.le (map key (insert_by key x l)).
Proof.
  induction l as [|y t IH]; simpl; intros H.
  - constructor; constructor.
  - inversion H as [|? ? Ht Hy]; subst.
    destruct (Z.leb_spec (key x) (key y)); simpl.
    + constructor; [assumption|]. constructor; [lia|].
      eapply Forall_impl; [|exact Hy]. simpl. lia.
    + constructor; [auto|].
      rewrite Forall_map, Forall_forall in *. intros z Hz.
      apply (Permutation_in _ (insert_by_perm key x t)) in Hz.
      destruct Hz as [<-|Hz]; [lia|auto].
Qed.

Lemma sort_by_sorted {A : Type} (key : A -> Z) (l : list A) :
  StronglySorted Z.le (map key (sort_by key l)).
Proof.
  induction l as [|x t IH]; simpl; [constructor|]. now apply insert_by_sorted.
Qed.

Lemma wrap_bin_range (periodic : bool) (raw n c b : Z) :
  1 <= n -> wrap_bin periodic raw n = (c, b) -> 0 <= b < n.
Proof.
  unfold wrap_bin. intros Hn H. destruct periodic; inversion H; subst.
  - apply Z.mod_pos_bound. lia.
  - lia.
Qed.

Section Bins.
Context {E : Externals}.

Lemma atom_bin_range (a : Atoms) (n0 n1 n2 : Z) (p : vec3) :
  1 <= n0 -> 1 <= n1 -> 1 <= n2 ->
  0 <= flat_bin (n0, n1, n2) (snd (atom_bin a (n0, n1, n2) p)) < n0 * n1 * n2.
Proof.
  intros H0 H1 H2. unfold atom_bin.
  destruct (scaled_position (cell a) p) as [[s0 s1] s2].
  destruct (pbc a) as [[p0 p1] p2].
  destruct (wrap_bin p0 _ n0) as [c0 b0] eqn:E0.
  destruct (wrap_bin p1 _ n1) as [c1 b1] eqn:E1.
  destruct (wrap_bin p2 _ n2) as [c2 b2] eqn:E2.
  apply wrap_bin_range in E0, E1, E2; try assumption.
  simpl. now apply flat_range.
Qed.

Lemma map_fst_combine {A B : Type} (l : list A) (l' : list B) :
  length l = length l' -> map fst (combine l l') = l.
Proof.
  revert l'. induction l as [|x t IH]; destruct l'; simpl; intros H;
    try discriminate; [reflexivity|]. f_equal. apply IH. lia.
Qed.

(** The table of bins holds every atom in exactly one slot. *)
Lemma bins_unique_slot (a : Atoms) (n0 n1 n2 M : Z) (B : list (list Z)) (i : Z) :
  1 <= n0 -> 1 <= n1 -> 1 <= n2 ->
  fill_bins (n0 * n1 * n2) M
    (sort_by snd (combine (zrange 0 (len (positions a)))
       (map (fun cb => flat_bin (n0, n1, n2) (snd cb))
            (map (atom_bin a (n0, n1, n2)) (positions a))))) = Ok B ->
  0 <= i < len (positions a) ->
  exists x0 y0 z0 p0, only_slot B n0 n1 n2 M i x0 y0 z0 p0.
Proof.
  intros H0 H1 H2 Hfill Hi.
  set (bins := map _ (map _ (positions a))) in Hfill.
  assert (Hlb : length (zrange 0 (len (positions a))) = length bins).
  { unfold bins. rewrite length_zrange, !length_map. unfold len. lia. }
  apply fill_bins_spec in Hfill.
  - destruct Hfill as (Hrows & Hlen & Hcount).
    assert (Hone : count_occ Z.eq_dec (concat B) i = 1%nat).
    { rewrite Hcount by lia.
      rewrite (proj1 (Permutation_count_occ Z.eq_dec _ _)
                 (Permutation_map fst
                    (sort_by_perm snd
                       (combine (zrange 0 (len (positions a))) bins))) i).
      rewrite map_fst_combine by assumption.
      apply NoDup_count_occ'; [apply NoDup_zrange|apply in_zrange; lia]. }
    destruct (count_one_slot _ _ _ Hrows Hone) as (b & p & Hb & Hp & Hn & Hu).
    destruct (flat_decompose n0 n1 n2 (Z.of_nat b)) as (x0 & y0 & z0 & ? & ? & ? & Eb);
      try lia.
    exists x0, y0, z0, (Z.of_nat p). unfold only_slot. rewrite <- Eb.
    split; [lia|]. split; [lia|]. split; [lia|]. split.
    + unfold bin_slot. now rewrite !Nat2Z.id.
    + intros b' p' Hb' Hp' Hs.
      assert (Hb2 : (Z.to_nat b' < length B)%nat) by lia.
      assert (Hp2 : (Z.to_nat p' < Z.to_nat M)%nat) by lia.
      destruct (Hu _ _ Hb2 Hp2 Hs). lia.
  - apply sort_by_sorted.
  - rewrite Forall_forall. intros ab Hab.
    apply (Permutation_in _ (sort_by_perm snd _)) in Hab.
    destruct ab as [ia ib]. apply in_combine_r in Hab. unfold bins in Hab.
    rewrite map_map in Hab. apply in_map_iff in Hab as (p & <- & _).
    now apply atom_bin_range.
Qed.

End Bins.

Lemma NoDup_offset_range (nd : Z) : NoDup (offset_range nd).
Proof. apply NoDup_zrange. Qed.

Lemma search_self_zero_count B n0 n1 n2 M nd c0 i x0 y0 z0 p0 :
  radius_fits (n0, n1, n2) nd = true ->
  only_slot B n0 n1 n2 M i x0 y0 z0 p0 ->
  search B (n0, n1, n2) M nd = Ok c0 ->
  cnt (is_self_zero i) c0 = 1%nat.
Proof.
  intros Hf Hslot H.
  destruct nd as [[ndx ndy] ndz].
  assert (Hr : (0 <= ndx /\ ndx + 1 < 2 ^ 63) /\ (0 <= ndy /\ ndy + 1 < 2 ^ 63)
               /\ (0 <= ndz /\ ndz + 1 < 2 ^ 63)
               /\ n0 < 2 ^ 63 /\ n1 < 2 ^ 63 /\ n2 < 2 ^ 63).
  { destruct Hslot as ((? & ? & ?) & _). unfold radius_fits in Hf.
    apply andb_true_iff in Hf as [Hf Hf2]. apply andb_true_iff in Hf as [Hf0 Hf1].
    apply axis_fits_spec in Hf0, Hf1, Hf2. lia. }
  destruct Hr as ((? & ?) & (? & ?) & (? & ?) & L0 & L1 & L2).
  assert (Haway : forall dx dy dz c,
             In dx (offset_range ndx) -> In dy (offset_range ndy) ->
             In dz (offset_range ndz) ->
             In c (offset_pairs B (n0, n1, n2) M (dx, dy, dz)) ->
             is_self_zero i c = true -> (dx, dy, dz) = (0, 0, 0)).
  { intros dx dy dz c Hx Hy Hz. apply (self_zero_away _ _ _ _ _ _ _ _ _ _ _ c Hslot).
    apply offset_range_int64 in Hx, Hy, Hz. repeat split; lia. }
  assert (E : c0 = concat (filter nonempty
                 (map (offset_pairs B (n0, n1, n2) M) (all_offsets (ndx, ndy, ndz))))).
  { unfold search in H. destruct (filter nonempty _); [discriminate|].
    now inversion H. }
  rewrite E, cnt_concat_nonempty, <- flat_map_concat_map.
  unfold all_offsets. rewrite flat_map_flat_map.
  rewrite (cnt_flat_map_single _ _ _ 0);
    [|apply NoDup_offset_range|apply in_offset_range; lia|].
  2:{ intros dz c Hdz Hne Hin. rewrite flat_map_flat_map in Hin.
      apply in_flat_map in Hin as (dy & Hdy & Hin). rewrite flat_map_map in Hin.
      apply in_flat_map in Hin as (dx & Hdx & Hin).
      destruct (is_self_zero i c) eqn:Hc; [|reflexivity].
      specialize (Haway _ _ _ _ Hdx Hdy Hdz Hin Hc). congruence. }
  assert (Hz0 : In 0 (offset_range ndz)) by (apply in_offset_range; lia).
  rewrite flat_map_flat_map.
  rewrite (cnt_flat_map_single _ _ _ 0);
    [|apply NoDup_offset_range|apply in_offset_range; lia|].
  2:{ intros dy c Hdy Hne Hin. rewrite flat_map_map in Hin.
      apply in_flat_map in Hin as (dx & Hdx & Hin).
      destruct (is_self_zero i c) eqn:Hc; [|reflexivity].
      specialize (Haway _ _ _ _ Hdx Hdy Hz0 Hin Hc). congruence. }
  assert (Hy0 : In 0 (offset_range ndy)) by (apply in_offset_range; lia).
  rewrite flat_map_map.
  rewrite (cnt_flat_map_single _ _ _ 0);
    [|apply NoDup_offset_range|apply in_offset_range; lia|].
  2:{ intros dx c Hdx Hne Hin.
      destruct (is_self_zero i c) eqn:Hc; [|reflexivity].
      specialize (Haway _ _ _ _ Hdx Hy0 Hz0 Hin Hc). congruence. }
  exact (self_zero_count _ _ _ _ _ _ _ _ _ _ L0 L1 L2 Hslot).
Qed.

(** The shifts that the search finds are [int64] values. *)
Lemma div_int64 (t n : Z) :
  1 <= n -> INT64_MIN <= t < 2 ^ 63 -> INT64_MIN <= t / n < 2 ^ 63.
Proof.
  unfold INT64_MIN. intros Hn Ht.
  pose proof (Z.div_mod t n ltac:(lia)) as E.
  pose proof (Z.mod_pos_bound t n ltac:(lia)) as R.
  split; nia.
Qed.

Lemma search_shift_int64 B n0 n1 n2 M nd c0 i j s :
  search B (n0, n1, n2) M nd = Ok c0 -> In (i, j, s) c0 -> shift_int64 s.
Proof.
  intros H Hin.
  apply (in_search _ _ _ _ _ _ H) in Hin as ([[dx dy] dz] & _ & Hin).
  apply in_offset_pairs in Hin
    as (bx & by_ & bz & p & q & (Hbx & Hby & Hbz) & _ & _ & _ & _ & _ & ->).
  repeat split; apply div_int64; try lia; apply wrap64_range.
Qed.

Lemma py_index_In {A : Type} (l : list A) (k : Z) (x : A) :
  py_index l k = Ok x -> In x l.
Proof.
  unfold py_index. destruct (py_norm (len l) k); [|discriminate].
  destruct (nth_error l n) eqn:E; [|discriminate].
  intros H. inversion H; subst. eapply nth_error_In; eauto.
Qed.

Local Open Scope float_scope.

Lemma dot3_zero (x y z : float) (c : vec3) :
  float_zero x = true -> float_zero y = true -> float_zero z = true ->
  vec_finite c = true -> float_zero (dot3 (x, y, z) c) = true.
Proof.
  destruct c as [[c0 c1] c2]. unfold vec_finite, dot3. intros Hx Hy Hz Hc.
  apply andb_true_iff in Hc as [Hc Hc2]. apply andb_true_iff in Hc as [Hc0 Hc1].
  repeat apply add_zero_zero; now apply mul_zero_finite.
Qed.

Lemma column_finite (m : mat3) (c : nat) :
  (let '(r0, r1, r2) := m in vec_finite r0 && vec_finite r1 && vec_finite r2) = true ->
  vec_finite (column m c) = true.
Proof.
  destruct m as [[[[a0 a1] a2] [[b0 b1] b2]] [[c0 c1] c2]].
  unfold vec_finite, column. intros H.
  repeat match goal with
         | H : _ && _ = true |- _ => apply andb_true_iff in H; destruct H
         end.
  destruct c as [|[|c]]; repeat (apply andb_true_iff; split); assumption.
Qed.

Lemma self_distance_zero (a : Atoms) (p : vec3) :
  atoms_finite a = true -> In p (positions a) ->
  float_zero (sqrt (sqsum (displacement a p p (0, 0, 0)%Z))) = true.
Proof.
  unfold atoms_finite. intros H Hp. apply andb_true_iff in H as [Hpos Hcell].
  rewrite forallb_forall in Hpos. specialize (Hpos p Hp).
  destruct p as [[x y] z]. unfold vec_finite in Hpos.
  apply andb_true_iff in Hpos as [Hpos Hz]. apply andb_true_iff in Hpos as [Hx Hy].
  apply sqrt_zero.
  unfold displacement, vadd, vsub, vmap2, ivec_dot_mat, vec_dot_mat, ivec_to_float,
    sqsum. cbv beta iota zeta.
  assert (Zx : float_zero ((x - x) + dot3 (Z2F 0, Z2F 0, Z2F 0) (column (cell a) 0)) = true).
  { apply add_zero_zero; [now apply sub_self_zero|].
    apply dot3_zero; try apply Z2F_0_zero. now apply column_finite. }
  assert (Zy : float_zero ((y - y) + dot3 (Z2F 0, Z2F 0, Z2F 0) (column (cell a) 1)) = true).
  { apply add_zero_zero; [now apply sub_self_zero|].
    apply dot3_zero; try apply Z2F_0_zero. now apply column_finite. }
  assert (Zz : float_zero ((z - z) + dot3 (Z2F 0, Z2F 0, Z2F 0) (column (cell a) 2)) = true).
  { apply add_zero_zero; [now apply sub_self_zero|].
    apply dot3_zero; try apply Z2F_0_zero. now apply column_finite. }
  repeat apply add_zero_zero;
    (apply mul_zero_finite; [|apply float_zero_finite]); assumption.
Qed.

Local Open Scope Z_scope.

Lemma ivec_zero_eq (s : ivec3) : ivec_zero s = true <-> s = (0, 0, 0).
Proof.
  destruct s as [[x y] z]. unfold ivec_zero. rewrite !andb_true_iff, !Z.eqb_eq.
  split; [intros [[-> ->] ->]; reflexivity|intros H; inversion H; auto].
Qed.

Lemma add_cell_shift_self (cs : list ivec3) (i : Z) (c c' : cand) :
  shift_int64 (snd c) /\ add_cell_shift cs c = Ok c' ->
  is_self_zero i c = is_self_zero i c'.
Proof.
  destruct c as [[ci cj] s]. unfold add_cell_shift. intros [Hr H].
  inv_bind H. inv_bind H. inversion H; subst; clear H.
  unfold is_self_zero.
  destruct (Z.eqb_spec ci i) as [->|]; [|reflexivity].
  destruct (Z.eqb_spec cj i) as [->|]; [|reflexivity].
  rewrite Hx in Hx0. inversion Hx0; subst.
  destruct s as [[s0 s1] s2], x0 as [[u0 u1] u2]. destruct Hr as (R0 & R1 & R2).
  unfold ivadd, ivsub, vmap2, ivec_zero. simpl.
  rewrite !Z.sub_diag. change (wrap64 0) with 0.
  now rewrite !Z.add_0_r, !wrap64_small by assumption.
Qed.

Lemma Forall2_with {A B : Type} (P : A -> Prop) (R : A -> B -> Prop)
  (l : list A) (l' : list B) :
  Forall P l -> Forall2 R l l' -> Forall2 (fun x y => P x /\ R x y) l l'.
Proof.
  intros HP H. induction H; [constructor|].
  inversion HP; subst. constructor; auto.
Qed.

Lemma drop_nonperiodic_self (pb : bvec3) (i : Z) (l : list cand) :
  cnt (is_self_zero i) (drop_nonperiodic pb l) = cnt (is_self_zero i) l.
Proof.
  destruct pb as [[p0 p1] p2]. unfold drop_nonperiodic.
  assert (Hk : forall (f : cand -> bool) l',
             (forall c, is_self_zero i c = true -> f c = true) ->
             cnt (is_self_zero i) (filter f l') = cnt (is_self_zero i) l').
  { intros f l' Hf. apply cnt_filter. auto. }
  assert (Hz : forall (ci cj x y z : Z),
             is_self_zero i (ci, cj, (x, y, z)) = true -> x = 0 /\ y = 0 /\ z = 0).
  { intros ci cj x y z Hc. unfold is_self_zero in Hc.
    apply andb_true_iff in Hc as [_ Hc]. apply ivec_zero_eq in Hc.
    inversion Hc; auto. }
  assert (F0 : forall c : cand, is_self_zero i c = true ->
             (let '(_, _, (x, _, _)) := c in x =? 0) = true).
  { intros [[ci cj] [[x y] z]] Hc. now destruct (Hz _ _ _ _ _ Hc) as (-> & _ & _). }
  assert (F1 : forall c : cand, is_self_zero i c = true ->
             (let '(_, _, (_, y, _)) := c in y =? 0) = true).
  { intros [[ci cj] [[x y] z]] Hc. now destruct (Hz _ _ _ _ _ Hc) as (_ & -> & _). }
  assert (F2 : forall c : cand, is_self_zero i c = true ->
             (let '(_, _, (_, _, z)) := c in z =? 0) = true).
  { intros [[ci cj] [[x y] z]] Hc. now destruct (Hz _ _ _ _ _ Hc) as (_ & _ & ->). }
  destruct p0, p1, p2;
    rewrite ?(Hk _ _ F2), ?(Hk _ _ F1), ?(Hk _ _ F0); reflexivity.
Qed.

Local Close Scope float_scope.

Section SelfPairs.
Context {E : Externals}.

Lemma apply_cutoff_In (a : Atoms) (cutoff : cutoff_spec) (pairs out : list pair)
  (r : pair) :
  apply_cutoff a cutoff pairs = Ok out -> In r out -> In r pairs.
Proof.
  destruct cutoff as [c|d|rc]; simpl; intros H Hr.
  - now inversion H; subst.
  - inv_bind H. inversion H; subst. eapply mask_select_In; eauto.
  - inv_bind H. inversion H; subst. eapply mask_select_In; eauto.
Qed.

Lemma neighbor_pairs_no_self (a : Atoms) (cutoff : cutoff_spec) (out : list pair)
  (r : pair) :
  neighbor_pairs a cutoff false = Ok out -> In r out ->
  ~ (p_i r = p_j r /\ p_S r = (0, 0, 0)).
Proof.
  intros H Hr.
  apply neighbor_pairs_stages in H as (mc & n & M & B & c0 & c1 & pairs & H).
  destruct H as [Hmc Hn Hfill Hsearch Hshift Hdist Hcut].
  apply (apply_cutoff_In _ _ _ _ _ Hcut) in Hr.
  apply filter_In in Hr as [Hr _].
  destruct (mapM_in _ _ _ _ Hdist Hr) as (c & Hc & Hw).
  apply with_distance_fields in Hw. subst c.
  apply sort_by_in, drop_nonperiodic_In, filter_In in Hc as [_ Hc].
  unfold not_self in Hc. intros [Ei Es].
  rewrite Ei, Es, Z.eqb_refl in Hc. discriminate.
Qed.

Lemma with_distance_self (a : Atoms) (i : Z) (c : cand) (r : pair) :
  with_distance a c = Ok r -> is_self_zero i c = self_zero_pair i r.
Proof.
  intros H. apply with_distance_fields in H. subst c. reflexivity.
Qed.

Lemma self_zero_distance (a : Atoms) (i : Z) (cd : cand) (r : pair) :
  atoms_finite a = true ->
  with_distance a cd = Ok r -> self_zero_pair i r = true ->
  float_zero (p_d r) = true.
Proof.
  intros Hfin Hw Hr. destruct cd as [[ci cj] s].
  unfold with_distance in Hw. inv_bind Hw. inv_bind Hw.
  inversion Hw; subst r; clear Hw.
  unfold self_zero_pair in Hr. simpl in Hr |- *.
  apply andb_true_iff in Hr as [Hr Hs].
  apply andb_true_iff in Hr as [Hi Hj]. apply Z.eqb_eq in Hi, Hj.
  apply ivec_zero_eq in Hs. subst ci cj s.
  rewrite Hx0 in Hx. inversion Hx; subst x0.
  apply self_distance_zero; [assumption|]. eapply py_index_In; eauto.
Qed.

(** Before the cutoffs are applied every atom has its pair with itself at
    zero shift once, where the bin search stays inside [int64]. *)
Lemma stages_self_count a cutoff mc n M B c0 c1 pairs out (i : Z) :
  radius_fits n (loop_radius (face_dist a) mc n) = true ->
  stages a cutoff true mc n M B c0 c1 pairs out ->
  0 <= i < len (positions a) ->
  cnt (self_zero_pair i) pairs = 1%nat.
Proof.
  intros Hf [Hmc Hn Hfill Hsearch Hshift Hdist Hcut] Hi.
  destruct n as [[n0 n1] n2].
  symmetry in Hn. destruct (nbins_c_pos _ _ _ _ _ Hn) as (H0 & H1 & H2).
  destruct (bins_unique_slot a n0 n1 n2 M B i H0 H1 H2 Hfill Hi)
    as (x0 & y0 & z0 & p0 & Hslot).
  pose proof (search_self_zero_count _ _ _ _ _ _ _ _ _ _ _ _ Hf Hslot Hsearch) as Hcnt.
  assert (HR : Forall (fun c : cand => shift_int64 (snd c)) c0).
  { apply Forall_forall. intros [[ci cj] s] Hin.
    exact (search_shift_int64 _ _ _ _ _ _ _ _ _ _ Hsearch Hin). }
  rewrite <- (cnt_Forall2 (is_self_zero i) (self_zero_pair i)
                (fun x y => with_distance a x = Ok y) _ _
                (with_distance_self a i) (mapM_Ok_Forall2 _ _ _ Hdist)).
  rewrite (cnt_perm _ _ _ (sort_by_perm _ _)), drop_nonperiodic_self.
  rewrite <- (cnt_Forall2 (is_self_zero i) (is_self_zero i) _ _ _
                (add_cell_shift_self _ i)
                (Forall2_with _ _ _ _ HR (mapM_Ok_Forall2 _ _ _ Hshift))).
  exact Hcnt.
Qed.

End SelfPairs.

(** ** [first_neighbors] *)

Lemma lower_bound_nonneg (i : list Z) (k : Z) : 0 <= lower_bound i k.
Proof. unfold lower_bound, len. lia. Qed.

Lemma lower_bound_succ (i : list Z) (k : Z) :
  lower_bound i (k + 1) = lower_bound i k + zcount k i.
Proof.
  unfold lower_bound, zcount, len. induction i as [|v t IH]; [reflexivity|].
  cbn [filter].
  destruct (Z.ltb_spec v (k + 1)), (Z.ltb_spec v k), (Z.eqb_spec k v);
    cbn [length]; lia.
Qed.

Lemma zcount_notin (i : list Z) (k : Z) : ~ In k i -> zcount k i = 0.
Proof.
  unfold zcount, len. induction i as [|v t IH]; simpl; intros H; [reflexivity|].
  destruct (Z.eqb_spec k v); [subst; tauto|]. apply IH. tauto.
Qed.

Lemma lower_bound_app (pre l : list Z) (x : Z) :
  Forall (fun v => v < x) pre -> Forall (fun v => x <= v) l ->
  lower_bound (pre ++ l) x = len pre.
Proof.
  intros Hpre Hl. unfold lower_bound, len. rewrite filter_app, length_app.
  replace (filter (fun v => v <? x) l) with (@nil Z).
  - simpl. rewrite Nat.add_0_r. f_equal. f_equal.
    induction Hpre; simpl; [reflexivity|].
    destruct (Z.ltb_spec x0 x); [|lia]. now f_equal.
  - induction Hl; simpl; [reflexivity|].
    destruct (Z.ltb_spec x0 x); [lia|assumption].
Qed.

Lemma lower_bound_all (i : list Z) (n : Z) :
  Forall (fun v => v < n) i -> lower_bound i n = len i.
Proof.
  intros H. rewrite <- (app_nil_r i) at 1. now apply lower_bound_app.
Qed.

Lemma lower_bound_mono (i : list Z) (k k' : Z) :
  k <= k' -> lower_bound i k <= lower_bound i k'.
Proof.
  intros H. unfold lower_bound, len. induction i as [|v t IH]; simpl; [lia|].
  destruct (Z.ltb_spec v k), (Z.ltb_spec v k'); simpl; lia.
Qed.

Lemma length_neq_next (x : Z) (l : list Z) : length (neq_next (x :: l)) = length l.
Proof.
  revert x. induction l as [|y t IH]; intros x; [reflexivity|].
  change (neq_next (x :: y :: t)) with (negb (x =? y) :: neq_next (y :: t)).
  cbn [length]. now rewrite IH.
Qed.

Lemma boundaries_mask (prev pos : Z) (l : list Z) :
  combine (mask_select (neq_next (prev :: l)) l)
          (mask_select (neq_next (prev :: l)) (zrange pos (pos + len l)))
  = boundaries prev pos l.
Proof.
  revert prev pos. induction l as [|x t IH]; intros prev pos; [reflexivity|].
  rewrite zrange_cons by (unfold len; simpl; lia).
  change (neq_next (prev :: x :: t)) with (negb (prev =? x) :: neq_next (x :: t)).
  cbn [mask_select boundaries].
  replace (pos + len (x :: t)) with (pos + 1 + len t)
    by (unfold len; simpl length; lia).
  destruct (prev =? x); cbn [negb mask_select combine]; rewrite IH; reflexivity.
Qed.

Lemma boundaries_spec (i pre l : list Z) (prev : Z) :
  i = pre ++ l -> StronglySorted Z.le i ->
  Forall (fun v => v <= prev) pre -> Forall (fun v => prev <= v) l ->
  Forall (fun vp => snd vp = lower_bound i (fst vp) /\ In (fst vp) l)
         (boundaries prev (len pre) l)
  /\ forall v, In v l -> v = prev \/ In v (map fst (boundaries prev (len pre) l)).
Proof.
  revert pre prev. induction l as [|x t IH]; intros pre prev Ei Hs Hpre Hl.
  - split; [constructor|]. intros v [].
  - inversion Hl as [|? ? Hx Ht]; subst.
    assert (Hsorted_l : StronglySorted Z.le (x :: t)).
    { clear - Hs. induction pre; simpl in Hs; [assumption|].
      inversion Hs; auto. }
    inversion Hsorted_l as [|? ? Hst Hxt]; subst.
    assert (Ei' : pre ++ x :: t = (pre ++ [x]) ++ t) by now rewrite <- app_assoc.
    assert (Hpre' : Forall (fun v => v <= x) (pre ++ [x])).
    { apply Forall_app. split; [|constructor; [lia|constructor]].
      eapply Forall_impl; [|exact Hpre]. simpl. lia. }
    destruct (IH (pre ++ [x]) x Ei' Hs Hpre' Hxt) as [IH1 IH2].
    replace (len (pre ++ [x])) with (len pre + 1) in IH1, IH2
      by (unfold len; rewrite length_app; simpl; lia).
    simpl. destruct (Z.eqb_spec prev x) as [->|Hne].
    + split.
      * eapply Forall_impl; [|exact IH1]. simpl. intros vp [? ?]. auto.
      * intros v [<-|Hv]; [now left|]. apply IH2 in Hv. tauto.
    + split.
      * constructor.
        -- simpl. split; [|now left].
           symmetry. apply lower_bound_app.
           ++ eapply Forall_impl; [|exact Hpre]. simpl. lia.
           ++ constructor; [lia|assumption].
        -- eapply Forall_impl; [|exact IH1]. simpl. intros vp [? ?]. auto.
      * intros v [<-|Hv]; [right; now left|].
        apply IH2 in Hv. destruct Hv as [->|Hv]; right; [now left|now right].
Qed.

(** *** The loop that fills the gaps *)

Lemma fill_step_length (s s' : list Z) : fill_step s = Ok s' -> length s' = length s.
Proof.
  revert s'. induction s as [|x t IH]; simpl; intros s' H.
  - now inversion H.
  - inv_bind H. destruct (x =? -1).
    + destruct t; [discriminate|]. inversion H; subst. simpl. f_equal. now apply IH.
    + inversion H; subst. simpl. f_equal. now apply IH.
Qed.

Lemma fill_step_progress (s s' : list Z) :
  fill_step s = Ok s' ->
  (pads s' <= pads s)%nat
  /\ (In (-1) s -> (pads s' < pads s)%nat).
Proof.
  unfold pads. revert s'. induction s as [|x t IH]; simpl; intros s' H.
  - inversion H; subst. simpl. split; [lia|tauto].
  - inv_bind H. destruct (IH _ Hx) as [Hle Hlt].
    destruct (Z.eqb_spec x (-1)) as [->|Hne].
    + destruct t as [|y t']; [discriminate|]. inversion H; subst; clear H.
      simpl in *. destruct (Z.eq_dec (-1) (-1)); [|contradiction].
      destruct (Z.eq_dec y (-1)) as [->|Hy].
      * assert ((count_occ Z.eq_dec x0 (-1)%Z < S (count_occ Z.eq_dec t' (-1)%Z))%nat)
          by (apply Hlt; now left).
        split; [lia|]. intros _. lia.
      * split; [lia|]. intros _. lia.
    + inversion H; subst; clear H. simpl.
      destruct (Z.eq_dec x (-1)); [contradiction|].
      split; [assumption|]. intros [?|Hin]; [contradiction|auto].
Qed.

Lemma existsb_minus_one (s : list Z) :
  existsb (Z.eqb (-1)) s = true <-> In (-1) s.
Proof.
  rewrite existsb_exists. split.
  - intros (x & Hx & E). apply Z.eqb_eq in E. now subst.
  - intros H. exists (-1). split; [assumption|reflexivity].
Qed.

(** The loop of [first_neighbors] never runs out of rounds. *)
Lemma fill_loop_terminates (fuel : nat) (s : list Z) :
  (pads s <= fuel)%nat ->
  fill_loop fuel s <> Raise FuelExhausted.
Proof.
  revert s. induction fuel as [|fuel IH]; intros s Hc; simpl.
  - destruct (existsb (Z.eqb (-1)) s) eqn:Ex; [|discriminate].
    apply existsb_minus_one in Ex. apply (count_occ_In Z.eq_dec) in Ex.
    unfold pads in Hc. lia.
  - destruct (existsb (Z.eqb (-1)) s) eqn:Ex; [|discriminate].
    apply existsb_minus_one in Ex.
    destruct (fill_step s) as [s'|e] eqn:Es; simpl.
    + apply IH. destruct (fill_step_progress _ _ Es) as [_ Hlt].
      specialize (Hlt Ex). lia.
    + clear - Es. revert e Es. induction s as [|x t IHs]; simpl; intros e Es.
      * discriminate.
      * destruct (fill_step t) as [t'|e'] eqn:Et; simpl in Es.
        -- destruct (x =? -1); [|discriminate].
           destruct t; [|discriminate]. inversion Es. discriminate.
        -- inversion Es; subst. now apply (IHs e).
Qed.

Lemma fill_step_nth (s : list Z) :
  s <> [] -> nth (length s - 1) s (-1) <> -1 ->
  exists s', fill_step s = Ok s' /\
    forall k, (k < length s)%nat ->
      nth k s' (-1) = if nth k s (-1) =? -1 then nth (S k) s (-1) else nth k s (-1).
Proof.
  induction s as [|x t IH]; intros Hne Hlast; [contradiction|].
  destruct t as [|y t'].
  - simpl in *. destruct (Z.eqb_spec x (-1)); [contradiction|].
    exists [x]. split; [reflexivity|]. intros [|k] Hk; [|simpl in Hk; lia].
    simpl. destruct (Z.eqb_spec x (-1)); [contradiction|reflexivity].
  - destruct IH as (t1 & Et & Hn); [discriminate| |].
    { simpl in Hlast |- *. now rewrite Nat.sub_0_r in *. }
    cbn [fill_step]. cbn [fill_step] in Et. rewrite Et. cbn [bind].
    destruct (Z.eqb_spec x (-1)) as [->|Hx].
    + exists (y :: t1). split; [reflexivity|].
      intros [|k] Hk; [reflexivity|].
      cbn [nth]. apply Hn. simpl in Hk |- *. lia.
    + exists (x :: t1). split; [reflexivity|].
      intros [|k] Hk.
      * cbn [nth]. destruct (Z.eqb_spec x (-1)); [contradiction|reflexivity].
      * cbn [nth]. apply Hn. simpl in Hk |- *. lia.
Qed.

Section Table.
Variables (N : Z) (i : list Z).
Hypothesis HN : 0 <= N.
Hypothesis Hrange : Forall (fun v => 0 <= v < N) i.


Lemma set_partial (s : list Z) (p : nat) :
  partial N i s -> (p < (Z.to_nat (N + 1)))%nat ->
  partial N i (set_nth p ((lower_bound i) (Z.of_nat p)) s)
  /\ marked i (set_nth p ((lower_bound i) (Z.of_nat p)) s) (Z.of_nat p)
  /\ forall w, 0 <= w -> marked i s w -> marked i (set_nth p ((lower_bound i) (Z.of_nat p)) s) w.
Proof.
  intros [Hlen Hp] Hpn. split; [|split].
  - split; [now rewrite length_set_nth|].
    intros k Hk. destruct (Nat.eq_dec p k) as [->|Hne].
    + right. apply nth_set_nth_eq. lia.
    + rewrite nth_set_nth_neq by assumption. now apply Hp.
  - unfold marked. rewrite Nat2Z.id. apply nth_set_nth_eq. lia.
  - intros w Hw Hm. unfold marked in *.
    destruct (Nat.eq_dec p (Z.to_nat w)) as [->|Hne].
    + rewrite nth_set_nth_eq by lia. now rewrite Z2Nat.id.
    + now rewrite nth_set_nth_neq.
Qed.

Lemma py_set_partial (s : list Z) (v x : Z) :
  partial N i s -> 0 <= v <= N -> x = (lower_bound i) v ->
  exists s', py_set s v x = Ok s' /\ partial N i s' /\ marked i s' v
             /\ forall w, 0 <= w -> marked i s w -> marked i s' w.
Proof.
  intros Hs Hv ->. pose proof Hs as [Hlen _].
  exists (set_nth (Z.to_nat v) ((lower_bound i) v) s).
  unfold py_set. rewrite py_norm_in_range by (unfold len; lia).
  assert (Hvn : (Z.to_nat v < (Z.to_nat (N + 1)))%nat) by lia.
  destruct (set_partial s (Z.to_nat v) Hs Hvn) as (H1 & H2 & H3).
  rewrite Z2Nat.id in H1, H2, H3 by lia. auto.
Qed.

Lemma foldM_set_partial (bl : list (Z * Z)) :
  forall s,
  Forall (fun vp => snd vp = (lower_bound i) (fst vp) /\ 0 <= fst vp <= N) bl -> partial N i s ->
  exists s', foldM (fun s kv => py_set s (fst kv) (snd kv)) bl s = Ok s'
             /\ partial N i s'
             /\ (forall w, 0 <= w -> marked i s w -> marked i s' w)
             /\ (forall vp, In vp bl -> marked i s' (fst vp)).
Proof.
  induction bl as [|[v pos] bl IH]; intros s Hbl Hs.
  - exists s. simpl. split; [reflexivity|]. split; [assumption|].
    split; [auto|]. intros vp [].
  - inversion Hbl as [|? ? Hhd Hbl']; subst. cbv beta in Hhd.
    destruct Hhd as [Hpos Hv].
    simpl in Hpos, Hv.
    destruct (py_set_partial s v pos Hs Hv Hpos) as (s1 & E1 & Hs1 & Hm1 & Hk1).
    destruct (IH s1 Hbl' Hs1) as (s' & E' & Hs' & Hk' & Hm').
    exists s'. simpl. rewrite E1. simpl. rewrite E'.
    split; [reflexivity|]. split; [assumption|]. split; [auto|].
    intros vp [<-|Hin]; [|auto]. simpl. apply Hk'; [lia|assumption].
Qed.

Lemma lb_nonneg (k : Z) : (lower_bound i) k <> -1.
Proof. pose proof (lower_bound_nonneg i k). lia. Qed.

Lemma fill_step_settled (s : list Z) :
  settled N i s -> exists s', fill_step s = Ok s' /\ settled N i s'.
Proof.
  intros (Hlen & Hk & Hlast).
  assert (Hn : (Z.to_nat (N + 1)) = S (Z.to_nat N)) by lia.
  destruct (fill_step_nth s) as (s' & Es & Hnth).
  { destruct s; [simpl in Hlen; lia|discriminate]. }
  { rewrite Hlen, Hn. simpl. rewrite Nat.sub_0_r, Hlast. apply lb_nonneg. }
  exists s'. split; [assumption|].
  pose proof (fill_step_length _ _ Es) as Hlen'.
  split; [congruence|]. split.
  - intros k Hkn. rewrite Hnth by lia.
    destruct (Hk k Hkn) as [Ek|[Ek Hnot]].
    + rewrite Ek. destruct (Z.eqb_spec ((lower_bound i) (Z.of_nat k)) (-1)) as [E|_].
      * exfalso. now apply (lb_nonneg (Z.of_nat k)).
      * now left.
    + rewrite Ek. simpl.
      assert (Hk1 : (S k < (Z.to_nat (N + 1)))%nat).
      { destruct (Nat.eq_dec k (Z.to_nat N)) as [->|]; [|lia].
        exfalso. rewrite Hlast in Ek. now apply (lb_nonneg N). }
      assert (Elb : (lower_bound i) (Z.of_nat (S k)) = (lower_bound i) (Z.of_nat k)).
      { rewrite Nat2Z.inj_succ, <- Z.add_1_r, lower_bound_succ.
        rewrite zcount_notin by assumption. lia. }
      destruct (Hk (S k) Hk1) as [E1|[E1 _]].
      * left. congruence.
      * right. split; assumption.
  - rewrite Hnth by lia. rewrite Hlast.
    destruct (Z.eqb_spec ((lower_bound i) N) (-1)) as [E|_]; [|reflexivity].
    exfalso. now apply (lb_nonneg N).
Qed.

Lemma fill_loop_settled (fuel : nat) :
  forall s, (pads s <= fuel)%nat -> settled N i s ->
  exists s', fill_loop fuel s = Ok s' /\ settled N i s' /\ ~ In (-1) s'.
Proof.
  induction fuel as [|fuel IH]; intros s Hc Hs; simpl.
  - destruct (existsb (Z.eqb (-1)) s) eqn:Ex.
    + apply existsb_minus_one in Ex. apply (count_occ_In Z.eq_dec) in Ex.
      unfold pads in Hc. lia.
    + exists s. split; [reflexivity|]. split; [assumption|].
      rewrite <- existsb_minus_one. congruence.
  - destruct (existsb (Z.eqb (-1)) s) eqn:Ex.
    + apply existsb_minus_one in Ex.
      destruct (fill_step_settled s Hs) as (s1 & E1 & Hs1).
      rewrite E1. simpl. apply IH; [|assumption].
      destruct (fill_step_progress _ _ E1) as [_ Hlt]. specialize (Hlt Ex). lia.
    + exists s. split; [reflexivity|]. split; [assumption|].
      rewrite <- existsb_minus_one. congruence.
Qed.

Lemma settled_final (s : list Z) :
  settled N i s -> ~ In (-1) s -> s = map (lower_bound i) (zrange 0 (N + 1)).
Proof.
  intros (Hlen & Hk & _) Hno.
  apply (nth_ext _ _ (-1) ((lower_bound i) (-1))).
  - rewrite length_map, length_zrange. rewrite Hlen. f_equal. lia.
  - intros k Hkl. rewrite Hlen in Hkl.
    rewrite nth_map_zrange by lia. simpl.
    destruct (Hk k Hkl) as [E|[E _]]; [assumption|].
    exfalso. apply Hno. rewrite <- E. apply nth_In. lia.
Qed.

End Table.

Lemma py_set_last {A : Type} (s : list A) (N : Z) (x : A) :
  0 <= N -> len s = N + 1 -> py_set s (-1) x = py_set s N x.
Proof.
  intros HN Hlen. unfold py_set. rewrite Hlen.
  rewrite (py_norm_in_range (N + 1) N) by lia.
  unfold py_norm. simpl.
  destruct (Z.leb_spec (- (N + 1)) (-1)); [|lia]. simpl.
  do 2 f_equal. lia.
Qed.

Lemma py_index_map_zrange {A : Type} (f : Z -> A) (hi k : Z) :
  0 <= k < hi -> py_index (map f (zrange 0 hi)) k = Ok (f k).
Proof.
  intros Hk. unfold py_index, len.
  rewrite length_map, length_zrange, py_norm_in_range by lia.
  rewrite (nth_error_nth' _ (f 0)) by (rewrite length_map, length_zrange; lia).
  rewrite nth_map_zrange by lia. do 2 f_equal. lia.
Qed.

Lemma sorted_map_zrange (f : Z -> Z) (m : nat) :
  (forall u v, u <= v -> f u <= f v) ->
  forall lo hi, Z.to_nat (hi - lo) = m -> StronglySorted Z.le (map f (zrange lo hi)).
Proof.
  intros Hf. induction m as [|m IH]; intros lo hi Hm.
  - rewrite zrange_nil by lia. constructor.
  - rewrite zrange_cons by lia. simpl. constructor.
    + apply IH. lia.
    + rewrite Forall_map, Forall_forall. intros k Hk.
      apply in_zrange in Hk. apply Hf. lia.
Qed.

Lemma sorted_head_le (x : Z) (l : list Z) :
  StronglySorted Z.le (x :: l) -> Forall (fun v => x <= v) (x :: l).
Proof. intros H. inversion H; subst. constructor; [lia|assumption]. Qed.

(** What [first_neighbors] computes on a sorted list of first indices. *)
Lemma first_neighbors_table (N : Z) (i : list Z) :
  0 <= N -> StronglySorted Z.le i -> Forall (fun v => 0 <= v < N) i ->
  first_neighbors N i = Ok (map (lower_bound i) (zrange 0 (N + 1))).
Proof.
  intros HN Hs Hr. unfold first_neighbors, np_full.
  destruct (Z.ltb_spec (N + 1) 0); [lia|].
  destruct i as [|i0 i1].
  - f_equal. rewrite (map_ext _ (fun _ => 0)) by reflexivity.
    now rewrite map_const, length_zrange, Z.sub_0_r.
  - set (i := i0 :: i1) in *. cbn [bind].
    assert (Hp0 : partial N i (repeat (-1) (Z.to_nat (N + 1)))).
    { split; [apply repeat_length|]. intros k Hk. left. apply nth_repeat. }
    inversion Hr as [|? ? Hi0 Hr1]; subst.
    assert (Hle : Forall (fun v => i0 <= v) i) by now apply sorted_head_le.
    (* s[i[0]] = 0 *)
    destruct (py_set_partial N i HN _ i0 0 Hp0) as (s1 & E1 & Hp1 & Hm1 & Hk1);
      [lia| |].
    { symmetry. apply (lower_bound_app [] i i0); [constructor|assumption]. }
    rewrite E1. cbn [bind].
    (* s[-1] = len(i) *)
    destruct (py_set_partial N i HN s1 N (len i) Hp1) as (s2 & E2 & Hp2 & Hm2 & Hk2);
      [lia| |].
    { symmetry. apply lower_bound_all.
      eapply Forall_impl; [|exact Hr]. simpl. lia. }
    assert (Hl1 : len s1 = N + 1) by (unfold len; destruct Hp1 as [-> _]; lia).
    rewrite (py_set_last s1 N _ HN Hl1).
    rewrite E2. cbn [bind].
    (* the run boundaries *)
    replace (len (neq_next i) + 1) with (1 + len i1)
      by (unfold i, len; rewrite length_neq_next; lia).
    unfold i at 1 2. rewrite boundaries_mask.
    destruct (boundaries_spec i [i0] i1 i0 eq_refl Hs) as [Hb1 Hb2].
    { constructor; [lia|constructor]. }
    { now inversion Hle. }
    change (len [i0]) with 1 in Hb1, Hb2.
    destruct (foldM_set_partial N i HN (boundaries i0 1 i1) s2) as (s3 & E3 & Hp3 & Hk3 & Hm3);
      [|assumption|].
    { eapply Forall_impl; [|exact Hb1]. intros vp [Hv Hin]. split; [assumption|].
      rewrite Forall_forall in Hr1. specialize (Hr1 _ Hin). lia. }
    rewrite E3. cbn [bind].
    assert (Hall : forall v, In v i -> marked i s3 v).
    { intros v [<-|Hv].
      - apply Hk3; [lia|]. apply Hk2; [lia|assumption].
      - destruct (Hb2 v Hv) as [->|Hin].
        + apply Hk3; [lia|]. apply Hk2; [lia|assumption].
        + apply in_map_iff in Hin as (vp & <- & Hvp). now apply Hm3. }
    assert (Hset : settled N i s3).
    { destruct Hp3 as [Hlen3 Hp3]. split; [assumption|]. split.
      - intros k Hk. destruct (Hp3 k Hk) as [E|E]; [|now left].
        right. split; [assumption|]. intros Hin.
        specialize (Hall _ Hin). unfold marked in Hall.
        rewrite Nat2Z.id, E in Hall.
        pose proof (lower_bound_nonneg i (Z.of_nat k)). lia.
      - apply Hk3; [lia|assumption]. }
    destruct (fill_loop_settled N i HN (length s3) s3) as (s' & E' & Hs' & Hno);
      [apply count_occ_bound|assumption|].
    rewrite E'. f_equal. now apply settled_final.
Qed.

(** C3: for [N] atoms and a non-decreasing list [i] of first indices in
    [0, N), [first_neighbors N i] returns an array [index] of length [N + 1]
    that is non-decreasing, with [index[N]] the number of pairs and
    [index[k+1] - index[k]] the number of pairs whose first index is [k];
    for the empty list it is all zeros. *)
Theorem first_neighbors_csr (N : Z) (i : list Z) :
  0 <= N -> StronglySorted Z.le i -> Forall (fun v => 0 <= v < N) i ->
  exists index,
    first_neighbors N i = Ok index
    /\ len index = N + 1
    /\ StronglySorted Z.le index
    /\ py_index index N = Ok (len i)
    /\ (forall k, 0 <= k < N ->
          exists lo hi, py_index index k = Ok lo /\ py_index index (k + 1) = Ok hi
                        /\ hi - lo = zcount k i)
    /\ (i = [] -> index = repeat 0 (Z.to_nat (N + 1))).
Proof.
  intros HN Hs Hr. exists (map (lower_bound i) (zrange 0 (N + 1))).
  split; [now apply first_neighbors_table|].
  split; [unfold len; rewrite length_map, length_zrange; lia|].
  split.
  { apply (sorted_map_zrange _ (Z.to_nat (N + 1 - 0))); [|reflexivity].
    apply lower_bound_mono. }
  split.
  { rewrite py_index_map_zrange by lia. f_equal. apply lower_bound_all.
    eapply Forall_impl; [|exact Hr]. simpl. lia. }
  split.
  - intros k Hk. exists (lower_bound i k), (lower_bound i (k + 1)).
    rewrite !py_index_map_zrange by lia.
    split; [reflexivity|]. split; [reflexivity|].
    rewrite lower_bound_succ. lia.
  - intros ->. rewrite (map_ext _ (fun _ => 0)) by reflexivity.
    now rewrite map_const, length_zrange, Z.sub_0_r.
Qed.

(** ** The half list of [NeighborList.build] *)

Ltac cases_Z :=
  repeat match goal with
  | |- context [Z.eqb ?a ?b] => destruct (Z.eqb_spec a b)
  | |- context [Z.ltb ?a ?b] => destruct (Z.ltb_spec a b)
  | |- context [Z.leb ?a ?b] => destruct (Z.leb_spec a b)
  end.

Ltac canon_side :=
  solve [ left; split; [reflexivity || (f_equal; [f_equal|]; lia) | lia]
        | right; split; [intros Habs; inversion Habs; lia | lia] ].

Ltac canon_elim H :=
  destruct H as [[Heq Hle]|[Hne Hlt]];
  [ inversion Heq; subst; try lia
  | try lia; try (exfalso; apply Hne; f_equal; [f_equal|]; lia) ].

Lemma half_keep_canonical (c : cand) : half_keep c = true <-> canonical c.
Proof.
  destruct c as [[i j] [[x y] z]]. unfold half_keep, canonical, first_nonzero, ivec_zero.
  cases_Z; subst; simpl; split; intros Hk; try reflexivity; try discriminate;
    try canon_side; canon_elim Hk.
Qed.

Lemma canonical_total (c : cand) : canonical c \/ canonical (mirror_cand c).
Proof.
  destruct c as [[i j] [[x y] z]]. unfold canonical, mirror_cand, ivopp, first_nonzero.
  destruct (Z.lt_trichotomy x 0) as [?|[?|?]], (Z.lt_trichotomy y 0) as [?|[?|?]],
    (Z.lt_trichotomy z 0) as [?|[?|?]], (Z.le_gt_cases i j);
    destruct (Z.eqb_spec x 0), (Z.eqb_spec (- x) 0), (Z.eqb_spec y 0), (Z.eqb_spec (- y) 0);
    simpl; try lia;
    solve [ left; canon_side | right; canon_side ].
Qed.

Lemma canonical_both (c : cand) :
  canonical c -> canonical (mirror_cand c) -> mirror_cand c = c.
Proof.
  destruct c as [[i j] [[x y] z]]. unfold canonical, mirror_cand, ivopp, first_nonzero.
  intros H1 H2.
  assert (x = 0 /\ y = 0 /\ z = 0 /\ i = j) as (-> & -> & -> & ->);
    [|reflexivity].
  destruct (Z.eqb_spec x 0), (Z.eqb_spec (- x) 0), (Z.eqb_spec y 0), (Z.eqb_spec (- y) 0);
    simpl in H1, H2; try lia;
    destruct H1 as [[E1 L1]|[N1 L1]], H2 as [[E2 L2]|[N2 L2]];
    try (inversion E1); try (inversion E2); try lia;
    try (exfalso; apply N1; f_equal; [f_equal|]; lia);
    try (exfalso; apply N2; f_equal; [f_equal|]; lia).
Qed.

Lemma combine_triples (l : list cand) :
  combine (combine (map (fun c : cand => fst (fst c)) l)
                   (map (fun c : cand => snd (fst c)) l))
          (map (fun c : cand => snd c) l) = l.
Proof.
  induction l as [|[[i j] s] t IH]; simpl; [reflexivity|]. now rewrite IH.
Qed.

Lemma combine_columns (out : list pair) :
  combine (combine (map p_i out) (map p_j out)) (map p_S out) = map triple out.
Proof. induction out as [|r t IH]; simpl; [reflexivity|]. now rewrite IH. Qed.

Section HalfList.
Context {E : Externals}.

Lemma neighbor_list_ijS (a : Atoms) (cutoff : cutoff_spec) (si : bool) :
  neighbor_list quantities_ijS a cutoff si
  = bind (neighbor_pairs a cutoff si)
      (fun out => Ok (Tuple [ColInt (map p_i out); ColInt (map p_j out);
                             ColShift (map p_S out)])).
Proof. unfold neighbor_list. destruct (neighbor_pairs a cutoff si); reflexivity. Qed.

Lemma build_stored (self self' : NeighborList.t) (atoms : Atoms) :
  NeighborList.build self atoms = Ok self' ->
  exists full kept,
    neighbor_pairs atoms (CutArray (NeighborList.cutoffs self))
      (NeighborList.self_interaction self) = Ok full
    /\ stored self' = Some kept
    /\ Permutation kept
         (if NeighborList.bothways self then map triple full
          else filter half_keep (map triple full)).
Proof.
  unfold NeighborList.build. rewrite neighbor_list_ijS. intros H.
  inv_bind H. inv_bind Hx. inversion Hx; subst x; clear Hx.
  rewrite combine_columns in H. inv_bind H. inversion H; subst self'; clear H.
  exists x0. eexists. split; [assumption|]. unfold stored. simpl.
  rewrite combine_triples. split; [reflexivity|].
  rewrite mask_select_map.
  destruct (NeighborList.sorted self); [apply sort_by_perm|reflexivity].
Qed.

(** C5: when [NeighborList.build] runs without [bothways], the stored
    pairs are exactly the pairs of the full list that satisfy the canonical
    rule: zero shift and [i <= j], or a nonzero shift whose first nonzero
    component is positive.  Of a pair and its mirror pair that are both in
    the full list one is stored, and both only when the pair is its own
    mirror.  The full list holds the mirror of every pair whose shift has
    no component [INT64_MIN], where the bin search stays inside [int64]. *)
Theorem build_half_list (self self' : NeighborList.t) (atoms : Atoms) :
  NeighborList.bothways self = false ->
  NeighborList.build self atoms = Ok self' ->
  exists full kept,
    neighbor_pairs atoms (CutArray (NeighborList.cutoffs self))
      (NeighborList.self_interaction self) = Ok full
    /\ stored self' = Some kept
    /\ (forall c, In c kept <-> In c (map triple full) /\ canonical c)
    /\ (forall c, In c (map triple full) -> In (mirror_cand c) (map triple full) ->
          (In c kept \/ In (mirror_cand c) kept)
          /\ (In c kept -> In (mirror_cand c) kept -> mirror_cand c = c))
    /\ (search_fits atoms (CutArray (NeighborList.cutoffs self)) = true ->
        forall c, In c (map triple full) -> opposable (snd c) = true ->
          In (mirror_cand c) (map triple full)).
Proof.
  intros Hb H. destruct (build_stored _ _ _ H) as (full & kept & Hfull & Hst & Hperm).
  rewrite Hb in Hperm.
  assert (Hkept : forall c, In c kept <-> In c (map triple full) /\ canonical c).
  { intros c. rewrite <- half_keep_canonical, <- filter_In.
    split; apply Permutation_in; [assumption|now symmetry]. }
  exists full, kept.
  split; [assumption|]. split; [assumption|]. split; [assumption|]. split.
  - intros c Hc Hm. split.
    + destruct (canonical_total c); [left|right]; apply Hkept; auto.
    + intros H1 H2. apply Hkept in H1, H2. apply canonical_both; tauto.
  - intros Hf c Hc Hop.
    apply in_map_iff in Hc as (r & <- & Hr).
    destruct (neighbor_pairs_sym _ _ _ _ Hf Hfull r Hr Hop)
      as (r' & Hr' & Hi & Hj & HS & _).
    apply in_map_iff. exists r'. split; [|assumption].
    unfold triple, mirror_cand. now rewrite Hi, Hj, HS.
Qed.

End HalfList.

(** ** No atoms *)

Section Degenerate.
Context {E : Externals}.

Lemma max_cutoff_error (cutoff : cutoff_spec) (e : exn) :
  max_cutoff cutoff = Raise e -> e = ValueError.
Proof.
  destruct cutoff as [c|d|r]; simpl.
  - discriminate.
  - destruct (map snd d); simpl; congruence.
  - destruct r; simpl; congruence.
Qed.

Lemma neighbor_pairs_no_atoms (cell_ : mat3) (pbc_ : bvec3) (numbers_ : list Z)
  (cutoff : cutoff_spec) (si : bool) :
  neighbor_pairs {| positions := []; cell := cell_; pbc := pbc_; numbers := numbers_ |}
    cutoff si = Raise ValueError.
Proof.
  unfold neighbor_pairs. destruct (max_cutoff cutoff) as [mc|e] eqn:Hmc; simpl.
  - reflexivity.
  - now rewrite (max_cutoff_error _ _ Hmc).
Qed.

(** C8: called on a configuration without atoms, [neighbor_list] raises
    [ValueError], the maximum of an empty array of bin counts (or of
    cutoffs), whatever the cutoff, the quantities and the cell. *)
Theorem neighbor_list_no_atoms (q : String.string) (cell_ : mat3) (pbc_ : bvec3)
  (numbers_ : list Z) (cutoff : cutoff_spec) (si : bool) :
  neighbor_list q {| positions := []; cell := cell_; pbc := pbc_; numbers := numbers_ |}
    cutoff si = Raise ValueError.
Proof. unfold neighbor_list. now rewrite neighbor_pairs_no_atoms. Qed.


(** C7: without atoms the second [update] never returns [false].
    [NeighborList.update] raises [ValueError] on the first call already;
    [PrimitiveNeighborList.update] builds and returns [true] on the first
    call, and on the second call with the same arguments raises
    [ValueError], where it takes the maximum of an empty array of
    displacements. *)
Theorem update_twice_no_atoms (cs : list float) (sk : float) (so si bw us : bool)
  (cell_ : mat3) (numbers_ : list Z) :
  NeighborList.update (NeighborList.init cs sk so si bw)
    {| positions := []; cell := cell_; pbc := (false, false, false);
       numbers := numbers_ |} = Raise ValueError
  /\ exists nl,
       PrimitiveNeighborList.update (PrimitiveNeighborList.init [] sk so si bw us)
         (false, false, false) cell_ [] = Ok (true, nl)
       /\ (mat_differs cell_ cell_ = false ->
           PrimitiveNeighborList.update nl (false, false, false) cell_ []
           = Raise ValueError).
Proof.
  split.
  - unfold NeighborList.update, NeighborList.build, neighbor_list. simpl.
    now rewrite neighbor_pairs_no_atoms.
  - eexists. split.
    + destruct so, bw, us; reflexivity.
    + intros Hc. unfold PrimitiveNeighborList.update. simpl.
      rewrite Hc. destruct so, bw, us; reflexivity.
Qed.

(** C10: [get_neighbors] on a [NeighborList] or a
    [PrimitiveNeighborList] that no [update] or [build] has touched raises
    [AttributeError]. *)
Theorem get_neighbors_before_build (cs : list float) (sk : float)
  (so si bw us : bool) (a : Z) :
  NeighborList.get_neighbors (NeighborList.init cs sk so si bw) a
  = Raise AttributeError
  /\ PrimitiveNeighborList.get_neighbors
       (PrimitiveNeighborList.init cs sk so si bw us) a
     = Raise AttributeError.
Proof. split; reflexivity. Qed.

End Degenerate.

Local Open Scope float_scope.

(** ** Updating twice *)









Lemma binary_round_aux_not_below_zero (prec emax : Z) (m e : Z) (l : location)
  (b : bool) :
  SFltb (binary_round_aux prec emax false m e l) (S754_zero b) = false.
Proof.
  unfold binary_round_aux.
  destruct (shr_fexp prec emax m e l) as [mrs e'].
  destruct (shr_fexp prec emax _ e' loc_Exact) as [mrs' e''].
  destruct (shr_m mrs'); simpl; try reflexivity.
  destruct (Z.leb e'' (emax - prec)); reflexivity.
Qed.


Section UpdateTwice.
Context {E : Externals}.






End UpdateTwice.

Local Close Scope float_scope.

(** ** Species that no atom has *)

Section UnknownSpecies.
Context {E : Externals}.

Lemma species_absent_spec (n : list Z) (el : element) (z : Z) :
  species_absent n el = true -> In z n -> number_is z (to_number el) = false.
Proof.
  unfold species_absent. rewrite forallb_forall. intros H Hz.
  apply negb_true_iff. now apply H.
Qed.

Lemma entry_mask_absent (n : list Z) (k1 k2 : element) (r : pair) :
  species_absent n k1 || species_absent n k2 = true ->
  indexed n r ->
  entry_mask n (to_number k1) (to_number k2) r = Ok false.
Proof.
  intros Habs [[ni Hi] [nj Hj]]. unfold entry_mask. rewrite Hi, Hj. simpl.
  apply py_index_In in Hi, Hj.
  apply orb_true_iff in Habs as [Habs|Habs];
    rewrite (species_absent_spec _ _ _ Habs Hi), (species_absent_spec _ _ _ Habs Hj);
    rewrite ?andb_false_r; simpl; now destruct (element_eqb _ _).
Qed.

Lemma map_keep {A : Type} (c : A) (pairs : list pair) (pc : list A) :
  length pc = length pairs ->
  map (fun bo : bool * A => if fst bo then c else snd bo)
      (combine (map (fun _ : pair => false) pairs) pc) = pc.
Proof.
  revert pc. induction pairs as [|r t IH]; intros [|x pc] H; try discriminate;
    simpl; [reflexivity|].
  f_equal. apply IH. simpl in H. lia.
Qed.

Lemma assign_entry_absent (n : list Z) (pairs : list pair) (pc : list float)
  (k1 k2 : element) (c : float) :
  species_absent n k1 || species_absent n k2 = true ->
  Forall (indexed n) pairs ->
  length pc = length pairs ->
  assign_entry n pairs pc (k1, k2, c) = Ok pc.
Proof.
  intros Habs Hidx Hlen. unfold assign_entry.
  rewrite (mapM_total _ (fun _ => false)).
  - simpl. now rewrite map_keep.
  - intros r Hr. apply entry_mask_absent; [assumption|].
    rewrite Forall_forall in Hidx. now apply Hidx.
Qed.

Lemma mapM_length {A B : Type} (f : A -> result B) (l : list A) (l' : list B) :
  mapM f l = Ok l' -> length l' = length l.
Proof.
  intros H. apply mapM_Ok_Forall2 in H. symmetry. eapply Forall2_length; eauto.
Qed.

Lemma assign_entry_length (n : list Z) (pairs : list pair) (pc pc' : list float)
  (e : element * element * float) :
  assign_entry n pairs pc e = Ok pc' ->
  length pc = length pairs -> length pc' = length pairs.
Proof.
  destruct e as [[k1 k2] c]. unfold assign_entry. intros H Hlen.
  inv_bind H. inversion H; subst. apply mapM_length in Hx.
  rewrite length_map, length_combine. lia.
Qed.

Lemma foldM_app {A S : Type} (f : S -> A -> result S) (l1 l2 : list A) (s : S) :
  foldM f (l1 ++ l2) s = bind (foldM f l1 s) (foldM f l2).
Proof.
  revert s. induction l1 as [|x t IH]; intros s; simpl; [reflexivity|].
  destruct (f s x); simpl; [apply IH|reflexivity].
Qed.

Lemma foldM_assign_length (n : list Z) (pairs : list pair)
  (d : list (element * element * float)) (pc pc' : list float) :
  foldM (assign_entry n pairs) d pc = Ok pc' ->
  length pc = length pairs -> length pc' = length pairs.
Proof.
  revert pc. induction d as [|e d IH]; simpl; intros pc H Hlen.
  - inversion H; subst. assumption.
  - inv_bind H. eapply IH; [eassumption|]. eapply assign_entry_length; eauto.
Qed.

Lemma per_pair_cutoff_absent (n : list Z) (d1 d2 : list (element * element * float))
  (k1 k2 : element) (c : float) (pairs : list pair) :
  species_absent n k1 || species_absent n k2 = true ->
  Forall (indexed n) pairs ->
  per_pair_cutoff n (d1 ++ (k1, k2, c) :: d2) pairs
  = per_pair_cutoff n (d1 ++ d2) pairs.
Proof.
  intros Habs Hidx. unfold per_pair_cutoff. rewrite !foldM_app.
  destruct (foldM (assign_entry n pairs) d1 (map (fun _ => 0%float) pairs))
    as [pc|e] eqn:H1; cbn [bind foldM]; [|reflexivity].
  rewrite assign_entry_absent; [reflexivity|assumption|assumption|].
  eapply foldM_assign_length; [eassumption|]. apply length_map.
Qed.

End UnknownSpecies.

(** ** The theorems at concrete configurations *)

Lemma first_neighbors_csr_example :
  exists index,
    first_neighbors 5 [0; 0; 2; 2; 2; 4] = Ok index /\ len index = 5 + 1
    /\ StronglySorted Z.le index /\ py_index index 5 = Ok (len [0; 0; 2; 2; 2; 4])
    /\ (forall k, 0 <= k < 5 -> exists lo hi, py_index index k = Ok lo
          /\ py_index index (k + 1) = Ok hi /\ hi - lo = zcount k [0; 0; 2; 2; 2; 4])
    /\ ([0; 0; 2; 2; 2; 4] = [] -> index = repeat 0 (Z.to_nat (5 + 1))).
Proof.
  apply (first_neighbors_csr 5 [0; 0; 2; 2; 2; 4]).
  - lia.
  - repeat constructor; lia.
  - repeat constructor; lia.
Defined.

Local Open Scope float_scope.

Lemma neighbor_list_distance_bound_dimer :
  exists rv,
    neighbor_list (E := axis_externals) quantities_all dimer (CutScalar 3) false = Ok rv
    /\ exists out, rv = all_columns out /\
       forall r, In r out ->
         (exists pi pj, py_index (positions dimer) (p_i r) = Ok pi
            /\ py_index (positions dimer) (p_j r) = Ok pj
            /\ p_D r = vadd (vsub pj pi) (ivec_dot_mat (p_S r) (cell dimer)))
         /\ p_d r = sqrt (sqsum (p_D r)) /\ (p_d r <? 3) = true
         /\ (3 <=? p_d r) = false.
Proof.
  eexists. split; [vm_compute; reflexivity|].
  apply (neighbor_list_distance_bound (E := axis_externals) dimer 3 false).
  vm_compute. reflexivity.
Defined.



Lemma build_half_list_lone :
  exists built,
    NeighborList.build (E := axis_externals)
      (NeighborList.init [1] 0.25 true false false) lone_periodic = Ok built
    /\ exists full kept,
         neighbor_pairs (E := axis_externals) lone_periodic
           (CutArray [1.25]) false = Ok full
         /\ stored built = Some kept
         /\ (forall c, In c kept <-> In c (map triple full) /\ canonical c)
         /\ (forall c, In c (map triple full) ->
               In (mirror_cand c) (map triple full) ->
               (In c kept \/ In (mirror_cand c) kept)
               /\ (In c kept -> In (mirror_cand c) kept -> mirror_cand c = c))
         /\ (search_fits (E := axis_externals) lone_periodic (CutArray [1.25]) = true ->
             forall c, In c (map triple full) -> opposable (snd c) = true ->
               In (mirror_cand c) (map triple full)).
Proof.
  eexists. split; [vm_compute; reflexivity|].
  apply (build_half_list (E := axis_externals)
           (NeighborList.init [1] 0.25 true false false) _ lone_periodic).
  - reflexivity.
  - vm_compute. reflexivity.
Defined.

(** With a cutoff radius of [2^100] the loop radius of the bin search is
    [INT64_MIN]: the full list of the periodic atom holds the one pair
    [(0, 0)] with the shift [INT64_MIN] along every axis, which has no
    mirror pair, and the half list drops it. *)
Lemma build_half_list_unpaired :
  exists built,
    NeighborList.build (E := axis_externals)
      (NeighborList.init [0x1p100] 0.25 false true false) lone_periodic = Ok built
    /\ stored built = Some []
    /\ exists r,
         neighbor_pairs (E := axis_externals) lone_periodic
           (CutArray [0x1p100 + 0.25]) true = Ok [r]
         /\ triple r = (0, 0, (INT64_MIN, INT64_MIN, INT64_MIN))%Z.
Proof.
  eexists. split; [vm_compute; reflexivity|]. split; [reflexivity|].
  eexists. split; [vm_compute; reflexivity|]. reflexivity.
Qed.

Lemma update_twice_no_atoms_cube :
  NeighborList.update (E := axis_externals)
    (NeighborList.init [] 0.5 false true false)
    {| positions := []; cell := cube 0; pbc := (false, false, false);
       numbers := [] |} = Raise ValueError
  /\ exists nl,
       PrimitiveNeighborList.update (E := axis_externals)
         (PrimitiveNeighborList.init [] 0.5 false true false false)
         (false, false, false) (cube 0) [] = Ok (true, nl)
       /\ PrimitiveNeighborList.update (E := axis_externals) nl
            (false, false, false) (cube 0) [] = Raise ValueError.
Proof.
  destruct (update_twice_no_atoms (E := axis_externals) [] 0.5 false true false
              false (cube 0) []) as [Hfirst [nl [Hbuilt Hagain]]].
  split; [exact Hfirst|]. exists nl. split; [exact Hbuilt|].
  apply Hagain. vm_compute. reflexivity.
Defined.

(** One atom without periodicity and without [self_interaction] has no
    neighbour: the call returns empty columns. *)
Example neighbor_list_one_atom :
  neighbor_list (E := axis_externals) quantities_all lone_open (CutScalar 3) false
  = Ok (all_columns []).
Proof. vm_compute. reflexivity. Qed.

(** The dictionary branch accepts a species that no atom has and a symbol
    that is no element: the call returns, with the pairs of the entries
    that match, or with no pair. *)
Lemma unknown_species_accepted :
  species_absent (E := axis_externals) (numbers dimer) (ElSym sym_Xx) = true
  /\ species_absent (E := axis_externals) (numbers dimer) (ElNum 6%Z) = true
  /\ neighbor_list (E := axis_externals) quantities_ijS dimer
       (CutDict [(ElSym sym_H, ElSym sym_H, 2.5); (ElSym sym_Xx, ElNum 6%Z, 3)])
       false
     = Ok (Tuple [ColInt [0; 1]%Z; ColInt [1; 0]%Z;
                  ColShift [(0, 0, 0); (0, 0, 0)]%Z])
  /\ neighbor_list (E := axis_externals) quantities_ijS dimer
       (CutDict [(ElSym sym_Xx, ElNum 1%Z, 3)]) false
     = Ok (Tuple [ColInt []; ColInt []; ColShift []]).
Proof. vm_compute. repeat split; reflexivity. Qed.

(** * Further properties *)

Local Close Scope float_scope.

(** ** The order and the range of the pairs *)

Lemma filter_sorted {A : Type} (key : A -> Z) (P : A -> bool) (l : list A) :
  StronglySorted Z.le (map key l) -> StronglySorted Z.le (map key (filter P l)).
Proof.
  induction l as [|x t IH]; simpl; intros H; [constructor|].
  inversion H as [|? ? Ht Hx]; subst.
  destruct (P x); simpl; [|auto].
  constructor; [auto|].
  rewrite Forall_forall in *. intros y Hy. apply Hx.
  apply in_map_iff in Hy as (z & <- & Hz). apply filter_In in Hz as [Hz _].
  now apply in_map.
Qed.

Lemma mask_select_sorted {A : Type} (key : A -> Z) (m : list bool) (l : list A) :
  StronglySorted Z.le (map key l) ->
  StronglySorted Z.le (map key (mask_select m l)).
Proof.
  revert m. induction l as [|x t IH]; intros [|b m] H; simpl; try constructor.
  inversion H as [|? ? Ht Hx]; subst.
  destruct b; simpl; [|auto].
  constructor; [auto|].
  rewrite Forall_forall in *. intros y Hy. apply Hx.
  apply in_map_iff in Hy as (z & <- & Hz). apply mask_select_In in Hz.
  now apply in_map.
Qed.

Lemma mapM_with_distance_first {E : Externals} (a : Atoms) (l : list cand)
  (pairs : list pair) :
  mapM (with_distance a) l = Ok pairs ->
  map p_i pairs = map (fun c : cand => fst (fst c)) l.
Proof.
  intros H. apply mapM_Ok_Forall2 in H.
  induction H as [|c r l0 l1 Hc _ IH]; simpl; [reflexivity|].
  apply with_distance_fields in Hc. subst c. simpl. now rewrite IH.
Qed.

Lemma bin_slot_In (B : list (list Z)) (b p i : Z) :
  bin_slot B b p = i -> i <> -1 -> In i (concat B).
Proof.
  unfold bin_slot. intros H Hi.
  destruct (nth_in_or_default (Z.to_nat p) (nth (Z.to_nat b) B []) (-1)) as [Hp|Hp];
    [|congruence].
  destruct (nth_in_or_default (Z.to_nat b) B []) as [Hb|Hb].
  - apply in_concat. exists (nth (Z.to_nat b) B []). split; [assumption|].
    now rewrite <- H.
  - rewrite Hb in Hp. contradiction.
Qed.

Section Output.
Context {E : Externals}.

Lemma neighbor_pairs_sorted (a : Atoms) (cutoff : cutoff_spec) (si : bool)
  (out : list pair) :
  neighbor_pairs a cutoff si = Ok out -> StronglySorted Z.le (map p_i out).
Proof.
  intros H.
  apply neighbor_pairs_stages in H as (mc & n & M & B & c0 & c1 & pairs & H).
  destruct H as [Hmc Hn Hfill Hsearch Hshift Hdist Hcut].
  assert (Hs : StronglySorted Z.le
                 (map p_i (filter (fun p => (p_d p <? mc)%float) pairs))).
  { apply filter_sorted. rewrite (mapM_with_distance_first _ _ _ Hdist).
    apply sort_by_sorted. }
  destruct cutoff as [c|d|r]; simpl in Hcut.
  - inversion Hcut; subst out. assumption.
  - inv_bind Hcut. inversion Hcut; subst out. now apply mask_select_sorted.
  - inv_bind Hcut. inversion Hcut; subst out. now apply mask_select_sorted.
Qed.

(** Whatever the table of bins holds besides the pad [-1] is the number of
    an atom. *)
Lemma bins_hold_atoms (a : Atoms) (n0 n1 n2 M : Z) (B : list (list Z)) (b p i : Z) :
  1 <= n0 -> 1 <= n1 -> 1 <= n2 ->
  fill_bins (n0 * n1 * n2) M
    (sort_by snd (combine (zrange 0 (len (positions a)))
       (map (fun cb => flat_bin (n0, n1, n2) (snd cb))
            (map (atom_bin a (n0, n1, n2)) (positions a))))) = Ok B ->
  bin_slot B b p = i -> i <> -1 -> 0 <= i < len (positions a).
Proof.
  intros H0 H1 H2 Hfill Hs Hi.
  set (bins := map _ (map _ (positions a))) in Hfill.
  assert (Hlb : length (zrange 0 (len (positions a))) = length bins).
  { unfold bins. rewrite length_zrange, !length_map. unfold len. lia. }
  apply fill_bins_spec in Hfill.
  - destruct Hfill as (_ & _ & Hcount).
    apply bin_slot_In in Hs; [|assumption].
    apply (count_occ_In Z.eq_dec) in Hs. rewrite (Hcount i Hi) in Hs.
    apply (count_occ_In Z.eq_dec) in Hs.
    apply (Permutation_in _ (Permutation_map fst (sort_by_perm snd _))) in Hs.
    rewrite map_fst_combine in Hs by assumption.
    now apply in_zrange in Hs.
  - apply sort_by_sorted.
  - rewrite Forall_forall. intros ab Hab.
    apply (Permutation_in _ (sort_by_perm snd _)) in Hab.
    destruct ab as [ia ib]. apply in_combine_r in Hab. unfold bins in Hab.
    rewrite map_map in Hab. apply in_map_iff in Hab as (q & <- & _).
    now apply atom_bin_range.
Qed.

Lemma neighbor_pairs_range (a : Atoms) (cutoff : cutoff_spec) (si : bool)
  (out : list pair) (r : pair) :
  neighbor_pairs a cutoff si = Ok out -> In r out ->
  0 <= p_i r < len (positions a) /\ 0 <= p_j r < len (positions a).
Proof.
  intros H Hr.
  apply neighbor_pairs_stages in H as (mc & n & M & B & c0 & c1 & pairs & H).
  destruct H as [Hmc Hn Hfill Hsearch Hshift Hdist Hcut].
  apply (apply_cutoff_In _ _ _ _ _ Hcut) in Hr. apply filter_In in Hr as [Hr _].
  destruct (mapM_in _ _ _ _ Hdist Hr) as (c & Hc & Hw).
  apply with_distance_fields in Hw.
  apply sort_by_in, drop_nonperiodic_In in Hc.
  assert (Hc1 : In c c1) by (destruct si; [|apply filter_In in Hc]; tauto).
  destruct (mapM_in _ _ _ _ Hshift Hc1) as ([[i j] s] & Hc0 & Hadd).
  unfold add_cell_shift in Hadd. inv_bind Hadd. inv_bind Hadd.
  rewrite Hw in Hadd. inversion Hadd as [[Ei Ej ES]].
  destruct n as [[n0 n1] n2]. destruct (nbins_c_pos _ _ _ _ _ (eq_sym Hn)) as (? & ? & ?).
  destruct (loop_radius _ _ _) as [[ndx ndy] ndz].
  apply (in_search _ _ _ _ _ _ Hsearch) in Hc0 as ([[dx dy] dz] & _ & Hin).
  apply in_offset_pairs in Hin
    as (bx & by_ & bz & p & q & _ & _ & Hi & Hj & Hi1 & Hj1 & _).
  rewrite <- Ei, <- Ej. simpl in Hfill.
  split; [eapply (bins_hold_atoms a n0 n1 n2 M B _ p i)
         |eapply (bins_hold_atoms a n0 n1 n2 M B _ q j)]; eauto.
Qed.

(** X1: the first-index column of the result is in non-decreasing order. *)
Theorem neighbor_list_sorted (a : Atoms) (cutoff : cutoff_spec) (si : bool)
  (rv : retval) :
  neighbor_list quantities_all a cutoff si = Ok rv ->
  exists out, rv = all_columns out /\ StronglySorted Z.le (map p_i out).
Proof.
  intros H. apply neighbor_list_all_Ok in H as (out & H & ->).
  exists out. split; [reflexivity|]. now apply (neighbor_pairs_sorted a cutoff si).
Qed.

(** X2: both indices of every pair are numbers of atoms. *)
Theorem neighbor_list_indices (a : Atoms) (cutoff : cutoff_spec) (si : bool)
  (rv : retval) :
  neighbor_list quantities_all a cutoff si = Ok rv ->
  exists out, rv = all_columns out /\
    forall r, In r out ->
      0 <= p_i r < len (positions a) /\ 0 <= p_j r < len (positions a).
Proof.
  intros H. apply neighbor_list_all_Ok in H as (out & H & ->).
  exists out. split; [reflexivity|]. intros r.
  now apply (neighbor_pairs_range a cutoff si).
Qed.


Lemma drop_nonperiodic_allowed (pb : bvec3) (l : list cand) (i j : Z) (sh : ivec3) :
  In (i, j, sh) (drop_nonperiodic pb l) -> shift_allowed pb sh = true.
Proof.
  destruct pb as [[p0 p1] p2]. destruct sh as [[x y] z].
  unfold drop_nonperiodic, shift_allowed. intros H.
  destruct p0, p1, p2; simpl in *;
    repeat match goal with
           | Hf : In _ (filter _ _) |- _ => apply filter_In in Hf; destruct Hf
           end;
    repeat match goal with
           | Hz : (_ =? 0) = true |- _ => rewrite Hz; clear Hz
           end;
    reflexivity.
Qed.

(** What the stages before the cutoff give every pair: the displacement, the
    distance and the first filter by the greatest cutoff. *)
Lemma neighbor_pairs_geometry (a : Atoms) (cutoff : cutoff_spec) (si : bool)
  (out : list pair) (r : pair) :
  neighbor_pairs a cutoff si = Ok out -> In r out ->
  (exists pi pj,
      py_index (positions a) (p_i r) = Ok pi
      /\ py_index (positions a) (p_j r) = Ok pj
      /\ p_D r = vadd (vsub pj pi) (ivec_dot_mat (p_S r) (cell a)))
  /\ p_d r = sqrt (sqsum (p_D r))
  /\ shift_allowed (pbc a) (p_S r) = true.
Proof.
  intros H Hr.
  apply neighbor_pairs_stages in H as (mc & n & M & B & c0 & c1 & pairs & H).
  destruct H as [Hmc Hn Hfill Hsearch Hshift Hdist Hcut].
  apply (apply_cutoff_In _ _ _ _ _ Hcut) in Hr. apply filter_In in Hr as [Hr _].
  destruct (mapM_in _ _ _ _ Hdist Hr) as ([[i j] s] & Hc & Hw).
  apply sort_by_in in Hc. apply drop_nonperiodic_allowed in Hc.
  unfold with_distance in Hw. inv_bind Hw. inv_bind Hw. inversion Hw; subst r.
  simpl. repeat split; eauto.
Qed.

(** X3: no pair crosses the cell along a direction without periodicity. *)
Theorem neighbor_list_nonperiodic (a : Atoms) (cutoff : cutoff_spec) (si : bool)
  (rv : retval) :
  neighbor_list quantities_all a cutoff si = Ok rv ->
  exists out, rv = all_columns out /\
    forall r, In r out -> shift_allowed (pbc a) (p_S r) = true.
Proof.
  intros H. apply neighbor_list_all_Ok in H as (out & H & ->).
  exists out. split; [reflexivity|]. intros r Hr.
  now destruct (neighbor_pairs_geometry a cutoff si out r H Hr) as (_ & _ & Hs).
Qed.

Lemma neighbor_pairs_radii (a : Atoms) (radii : list float) (si : bool)
  (out : list pair) (r : pair) :
  neighbor_pairs a (CutArray radii) si = Ok out -> In r out ->
  exists ri rj,
    py_index radii (p_i r) = Ok ri /\ py_index radii (p_j r) = Ok rj
    /\ (p_d r <? ri + rj)%float = true.
Proof.
  intros H Hr.
  apply neighbor_pairs_stages in H as (mc & n & M & B & c0 & c1 & pairs & H).
  destruct H as [Hmc Hn Hfill Hsearch Hshift Hdist Hcut].
  simpl in Hcut. inv_bind Hcut. inversion Hcut; subst out.
  apply (mask_select_mapM_in _ _ _ r Hx) in Hr as [_ Hr].
  inv_bind Hr. inv_bind Hr. inversion Hr. eauto.
Qed.

(** X4: with one radius per atom a pair is returned only where the two
    spheres overlap, [d < r[i] + r[j]], with displacement and distance as
    for a scalar cutoff. *)
Theorem neighbor_list_radii (a : Atoms) (radii : list float) (si : bool)
  (rv : retval) :
  neighbor_list quantities_all a (CutArray radii) si = Ok rv ->
  exists out, rv = all_columns out /\
    forall r, In r out ->
      (exists pi pj,
          py_index (positions a) (p_i r) = Ok pi
          /\ py_index (positions a) (p_j r) = Ok pj
          /\ p_D r = vadd (vsub pj pi) (ivec_dot_mat (p_S r) (cell a)))
      /\ p_d r = sqrt (sqsum (p_D r))
      /\ exists ri rj,
          py_index radii (p_i r) = Ok ri /\ py_index radii (p_j r) = Ok rj
          /\ (p_d r <? ri + rj)%float = true.
Proof.
  intros H. apply neighbor_list_all_Ok in H as (out & H & ->).
  exists out. split; [reflexivity|]. intros r Hr.
  destruct (neighbor_pairs_geometry a _ si out r H Hr) as (HD & Hd & _).
  split; [exact HD|]. split; [exact Hd|].
  now apply (neighbor_pairs_radii a radii si out).
Qed.

End Output.

(** ** The cutoff of a dictionary *)

Lemma sqrt_not_below_zero (x : float) : (sqrt x <? 0)%float = false.
Proof.
  rewrite ltb_spec, sqrt_spec. change (Prim2SF 0) with (S754_zero false).
  destruct (Prim2SF x) as [s|s| |s m e]; simpl.
  - reflexivity.
  - now destruct s.
  - reflexivity.
  - destruct s; [reflexivity|]. unfold SF64sqrt, SFsqrt.
    destruct (SFsqrt_core_binary prec emax (Z.pos m) e) as [[mz ez] lz].
    apply binary_round_aux_not_below_zero.
Qed.

Lemma mask_select_combine_In {A B : Type} (f : A * B -> bool) (l : list A)
  (l' : list B) (x : A) :
  In x (mask_select (map f (combine l l')) l) ->
  exists y, In (x, y) (combine l l') /\ f (x, y) = true.
Proof.
  revert l'. induction l as [|u t IH]; intros [|v l'] H; simpl in H;
    try contradiction.
  destruct (f (u, v)) eqn:Ef.
  - destruct H as [->|H].
    + exists v. split; [now left|assumption].
    + destruct (IH _ H) as (y & Hy & Hf). exists y. split; [now right|assumption].
  - destruct (IH _ H) as (y & Hy & Hf). exists y. split; [now right|assumption].
Qed.

Lemma Forall2_combine_In {A B : Type} (P : A -> B -> Prop) (l : list A)
  (l' : list B) (x : A) (y : B) :
  Forall2 P l l' -> In (x, y) (combine l l') -> P x y.
Proof.
  induction 1 as [|u v t t' Huv _ IH]; simpl; [contradiction|].
  intros [E|H]; [now inversion E; subst|auto].
Qed.

Section Dictionary.
Context {E : Externals}.

Lemma assign_entry_from (n : list Z) (d : list (element * element * float))
  (e : element * element * float) (pairs : list pair) (pc pc' : list float) :
  In e d ->
  Forall2 (from_entry n d) pairs pc ->
  assign_entry n pairs pc e = Ok pc' ->
  Forall2 (from_entry n d) pairs pc'.
Proof.
  destruct e as [[k1 k2] c]. intros He Hinv H. unfold assign_entry in H.
  inv_bind H. inversion H; subst pc'; clear H.
  apply mapM_Ok_Forall2 in Hx. revert pc Hinv.
  induction Hx as [|r b t m Hr _ IH]; intros pc Hinv;
    inversion Hinv as [|? c0 ? pc0 Hc Ht]; subst; simpl; constructor.
  - destruct b; [|assumption]. right. exists k1, k2. split; [assumption|].
    unfold entry_selects. now rewrite Hr.
  - now apply IH.
Qed.

Lemma per_pair_cutoff_from (n : list Z) (d : list (element * element * float))
  (pairs : list pair) (pc : list float) :
  per_pair_cutoff n d pairs = Ok pc -> Forall2 (from_entry n d) pairs pc.
Proof.
  unfold per_pair_cutoff.
  assert (Hgen : forall d0 pc0,
             incl d0 d -> Forall2 (from_entry n d) pairs pc0 ->
             foldM (assign_entry n pairs) d0 pc0 = Ok pc ->
             Forall2 (from_entry n d) pairs pc).
  { induction d0 as [|e d0 IH]; simpl; intros pc0 Hincl Hinv H.
    - now inversion H; subst.
    - inv_bind H. apply (IH x); [intros y Hy; apply Hincl; now right| |assumption].
      eapply assign_entry_from; [apply Hincl; now left|eassumption|eassumption]. }
  apply Hgen; [apply incl_refl|].
  clear Hgen. induction pairs; simpl; constructor; [now left|assumption].
Qed.

(** X5: with a dictionary of cutoffs a pair is returned only where an entry
    names the species of its two atoms, in either order, and the distance
    is below the value of that entry. *)
Theorem neighbor_list_dict (a : Atoms) (d : list (element * element * float))
  (si : bool) (rv : retval) :
  neighbor_list quantities_all a (CutDict d) si = Ok rv ->
  exists out, rv = all_columns out /\
    forall r, In r out ->
      exists k1 k2 c,
        In (k1, k2, c) d
        /\ entry_selects (numbers a) (to_number k1) (to_number k2) r = true
        /\ (p_d r <? c)%float = true.
Proof.
  intros H. apply neighbor_list_all_Ok in H as (out & H & ->).
  exists out. split; [reflexivity|]. intros r Hr.
  destruct (neighbor_pairs_geometry a _ si out r H Hr) as (_ & Hd & _).
  apply neighbor_pairs_stages in H as (mc & n & M & B & c0 & c1 & pairs & H).
  destruct H as [Hmc Hn Hfill Hsearch Hshift Hdist Hcut].
  simpl in Hcut. inv_bind Hcut. inversion Hcut; subst out.
  apply mask_select_combine_In in Hr as (c & Hin & Hlt). simpl in Hlt.
  apply per_pair_cutoff_from in Hx.
  destruct (Forall2_combine_In _ _ _ _ _ Hx Hin) as [->|(k1 & k2 & Hk & Hs)].
  - rewrite Hd, sqrt_not_below_zero in Hlt. discriminate.
  - exists k1, k2, c. auto.
Qed.

End Dictionary.

(** ** The return value *)

Lemma mapM_raise {A B : Type} (f : A -> result B) (e : exn) (l : list A) (x : A) :
  (forall y, In y l -> (exists c, f y = Ok c) \/ f y = Raise e) ->
  In x l -> f x = Raise e -> mapM f l = Raise e.
Proof.
  induction l as [|u t IH]; simpl; intros Hall Hin Hx; [contradiction|].
  destruct (Hall u (or_introl eq_refl)) as [[c Hu]|Hu]; rewrite Hu; simpl;
    [|reflexivity].
  destruct Hin as [->|Hin]; [congruence|].
  rewrite IH; auto.
Qed.

Lemma length_list_ascii (s : String.string) :
  length (String.list_ascii_of_string s) = String.length s.
Proof. induction s as [|c s IH]; simpl; [reflexivity|]. now rewrite IH. Qed.

Lemma quantity_supported (pairs : list pair) (q : ascii) :
  (supported q = true /\ exists c, quantity pairs q = Ok c /\ column_len c = len pairs)
  \/ (supported q = false /\ quantity pairs q = Raise ValueError).
Proof.
  unfold supported, quantity.
  destruct (Ascii.eqb q "i"); [left; split; [reflexivity|]; eexists; split;
    [reflexivity|simpl; unfold len; now rewrite length_map]|].
  destruct (Ascii.eqb q "j"); [left; split; [reflexivity|]; eexists; split;
    [reflexivity|simpl; unfold len; now rewrite length_map]|].
  destruct (Ascii.eqb q "D"); [left; split; [reflexivity|]; eexists; split;
    [reflexivity|simpl; unfold len; now rewrite length_map]|].
  destruct (Ascii.eqb q "d"); [left; split; [reflexivity|]; eexists; split;
    [reflexivity|simpl; unfold len; now rewrite length_map]|].
  destruct (Ascii.eqb q "S"); [left; split; [reflexivity|]; eexists; split;
    [reflexivity|simpl; unfold len; now rewrite length_map]|].
  right. split; reflexivity.
Qed.

Section ReturnValue.
Context {E : Externals}.

(** X8: a letter that is none of [i], [j], [D], [d], [S] makes the call raise
    [ValueError], once the search itself has gone through. *)
Theorem neighbor_list_unsupported (quantities : String.string) (a : Atoms)
  (cutoff : cutoff_spec) (si : bool) (out : list pair) (q : ascii) :
  neighbor_pairs a cutoff si = Ok out ->
  In q (String.list_ascii_of_string quantities) -> supported q = false ->
  neighbor_list quantities a cutoff si = Raise ValueError.
Proof.
  intros H Hq Hs. unfold neighbor_list. rewrite H. simpl.
  rewrite (mapM_raise (quantity out) ValueError _ q); [reflexivity| |assumption|].
  - intros y _. destruct (quantity_supported out y) as [(_ & c & Hc & _)|[_ Hy]];
      eauto.
  - destruct (quantity_supported out q) as [[Hq' _]|[_ Hy]]; congruence.
Qed.

(** X9: the call returns one array for every letter, all as long as the list
    of pairs; one letter alone gives the bare array and not a tuple. *)
Theorem neighbor_list_columns (quantities : String.string) (a : Atoms)
  (cutoff : cutoff_spec) (si : bool) (rv : retval) :
  neighbor_list quantities a cutoff si = Ok rv ->
  exists out,
    neighbor_pairs a cutoff si = Ok out
    /\ length (retval_columns rv) = String.length quantities
    /\ Forall (fun c => column_len c = len out) (retval_columns rv)
    /\ (String.length quantities = 1%nat <-> exists c, rv = Single c).
Proof.
  unfold neighbor_list. intros H. inv_bind H. inv_bind H. exists x.
  split; [assumption|].
  assert (Hlen : length x0 = String.length quantities).
  { apply mapM_Ok_Forall2, Forall2_length in Hx0.
    now rewrite <- Hx0, length_list_ascii. }
  assert (Hall : Forall (fun c => column_len c = len x) x0).
  { apply Forall_forall. intros c Hc.
    destruct (mapM_in _ _ _ _ Hx0 Hc) as (q & _ & Hq).
    destruct (quantity_supported x q) as [(_ & c' & Hc' & Hl)|[_ Hy]]; congruence. }
  destruct x0 as [|c [|c' t]]; inversion H; subst rv; simpl in *;
    (split; [assumption|]); (split; [assumption|]).
  - split; [intros E1; rewrite <- Hlen in E1; discriminate|intros [c E1]; discriminate].
  - split; [eauto|auto].
  - split; [intros E1; rewrite <- Hlen in E1; discriminate|intros [c0 E1]; discriminate].
Qed.

End ReturnValue.

(** ** The ranges of [first_neighbors] *)

Lemma lower_bound_cons (x : Z) (t : list Z) (k : Z) :
  lower_bound (x :: t) k = (if x <? k then 1 else 0) + lower_bound t k.
Proof.
  unfold lower_bound, len. cbn [filter]. destruct (x <? k); cbn [length]; lia.
Qed.

Lemma lower_bound_none (t : list Z) (k : Z) :
  Forall (fun v => k <= v) t -> lower_bound t k = 0.
Proof.
  intros H. change t with ([] ++ t). rewrite lower_bound_app; auto.
Qed.

Lemma lower_bound_le_len (i : list Z) (k : Z) : lower_bound i k <= len i.
Proof.
  unfold lower_bound, len. pose proof (filter_length_le (fun v => v <? k) i). lia.
Qed.

Lemma sorted_tail_above (x : Z) (t : list Z) (k : Z) :
  StronglySorted Z.le (x :: t) -> k <= x -> Forall (fun v => k <= v) t.
Proof.
  intros H Hk. inversion H as [|? ? _ Hx]; subst.
  eapply Forall_impl; [|exact Hx]. simpl. lia.
Qed.

(** In a sorted list the entries below [k] are those before position
    [lower_bound i k]. *)
Lemma sorted_below (i : list Z) (k : Z) (p : nat) :
  StronglySorted Z.le i -> (p < length i)%nat ->
  nth p i 0 < k <-> Z.of_nat p < lower_bound i k.
Proof.
  revert p. induction i as [|x t IH]; simpl; intros p Hs Hp; [lia|].
  rewrite lower_bound_cons.
  pose proof (lower_bound_nonneg t k) as Hnn.
  inversion Hs as [|? ? Ht Hx]; subst.
  destruct (Z.ltb_spec x k) as [Hlt|Hge].
  - destruct p as [|p]; [lia|].
    rewrite (IH p Ht) by lia. lia.
  - rewrite (lower_bound_none t k (sorted_tail_above _ _ _ Hs Hge)).
    destruct p as [|p]; [lia|].
    assert (Hin : In (nth p t 0) t) by (apply nth_In; lia).
    rewrite Forall_forall in Hx. specialize (Hx _ Hin). lia.
Qed.

Lemma py_index_nth (l : list Z) (p : Z) :
  0 <= p < len l -> py_index l p = Ok (nth (Z.to_nat p) l 0).
Proof.
  intros Hp. unfold py_index. rewrite py_norm_in_range by assumption.
  destruct (nth_error l (Z.to_nat p)) eqn:En.
  - now rewrite (nth_error_nth _ _ 0 En).
  - apply nth_error_None in En. unfold len in Hp. lia.
Qed.

(** X10: neighbours of atom [k] have the indices from [s[k]] to [s[k+1]-1]:
    these are exactly the positions of the pairs whose first index is
    [k]. *)
Theorem first_neighbors_ranges (N : Z) (i : list Z) :
  0 <= N -> StronglySorted Z.le i -> Forall (fun v => 0 <= v < N) i ->
  exists s,
    first_neighbors N i = Ok s
    /\ forall k, 0 <= k < N ->
         exists lo hi,
           py_index s k = Ok lo /\ py_index s (k + 1) = Ok hi
           /\ 0 <= lo <= hi /\ hi <= len i
           /\ forall p, 0 <= p < len i -> (lo <= p < hi <-> py_index i p = Ok k).
Proof.
  intros HN Hs Hr. exists (map (lower_bound i) (zrange 0 (N + 1))).
  split; [now apply first_neighbors_table|].
  intros k Hk. exists (lower_bound i k), (lower_bound i (k + 1)).
  rewrite !py_index_map_zrange by lia.
  split; [reflexivity|]. split; [reflexivity|].
  split; [split; [apply lower_bound_nonneg|apply lower_bound_mono; lia]|].
  split; [apply lower_bound_le_len|].
  intros p Hp. rewrite (py_index_nth i p Hp).
  assert (Hpn : (Z.to_nat p < length i)%nat) by (unfold len in Hp; lia).
  pose proof (sorted_below i k _ Hs Hpn) as H1.
  pose proof (sorted_below i (k + 1) _ Hs Hpn) as H2.
  rewrite Z2Nat.id in H1, H2 by lia.
  split.
  - intros [Hlo Hhi]. f_equal. lia.
  - intros E. assert (E1 : nth (Z.to_nat p) i 0 = k) by congruence. lia.
Qed.

(** ** The loop of [first_neighbors] ends *)

Lemma bind_not_exhausted {A B : Type} (c : result A) (k : A -> result B) :
  c <> Raise FuelExhausted ->
  (forall x, c = Ok x -> k x <> Raise FuelExhausted) ->
  bind c k <> Raise FuelExhausted.
Proof.
  destruct c as [x|e]; simpl; intros Hc Hk; [now apply Hk|].
  intros Heq. apply Hc. now inversion Heq.
Qed.

Lemma py_set_not_exhausted {A : Type} (l : list A) (k : Z) (v : A) :
  py_set l k v <> Raise FuelExhausted.
Proof. unfold py_set. destruct (py_norm _ _); discriminate. Qed.

Lemma foldM_py_set_not_exhausted (kv : list (Z * Z)) (s : list Z) :
  foldM (fun s kv => py_set s (fst kv) (snd kv)) kv s <> Raise FuelExhausted.
Proof.
  revert s. induction kv as [|x t IH]; simpl; intros s; [discriminate|].
  apply bind_not_exhausted; [apply py_set_not_exhausted|auto].
Qed.

(** X11: the [while] loop of [first_neighbors] stops within [len(s)] rounds,
    whatever the list of first indices. *)
Theorem first_neighbors_terminates (N : Z) (i : list Z) :
  first_neighbors N i <> Raise FuelExhausted.
Proof.
  unfold first_neighbors, np_full. destruct i as [|i0 i1].
  - destruct (N + 1 <? 0); discriminate.
  - apply bind_not_exhausted; [destruct (N + 1 <? 0); discriminate|intros s0 _].
    apply bind_not_exhausted; [apply py_set_not_exhausted|intros s1 _].
    apply bind_not_exhausted; [apply py_set_not_exhausted|intros s2 _].
    apply bind_not_exhausted; [apply foldM_py_set_not_exhausted|intros s3 _].
    apply fill_loop_terminates. unfold pads. apply count_occ_bound.
Qed.

(** ** Slices of a sorted list *)

Lemma py_slice_firstn_skipn {A : Type} (l : list A) (lo hi : Z) :
  0 <= lo <= len l -> 0 <= hi <= len l ->
  py_slice l lo hi = firstn (Z.to_nat hi - Z.to_nat lo) (skipn (Z.to_nat lo) l).
Proof.
  intros Hlo Hhi. unfold py_slice, py_bound.
  destruct (Z.ltb_spec lo 0); [lia|]. destruct (Z.ltb_spec hi 0); [lia|].
  rewrite !Z.max_r, !Z.min_r by lia. reflexivity.
Qed.

Lemma cnt_below_zero {A : Type} (key : A -> Z) (t : list A) (k : Z) :
  Forall (fun v => k <= v) (map key t) -> cnt (fun x => key x <? k) t = 0%nat.
Proof.
  intros H. apply cnt_none. intros x Hx. rewrite Forall_forall in H.
  specialize (H (key x) (in_map key _ _ Hx)). apply Z.ltb_ge. assumption.
Qed.

Lemma slice_sorted_nat {A : Type} (key : A -> Z) (l : list A) (k : Z) :
  StronglySorted Z.le (map key l) ->
  firstn (cnt (fun x => key x <? k + 1) l - cnt (fun x => key x <? k) l)
         (skipn (cnt (fun x => key x <? k) l) l)
  = filter (fun x => key x =? k) l.
Proof.
  induction l as [|x t IH]; simpl; intros Hs; [reflexivity|].
  inversion Hs as [|? ? Ht Hx]; subst. specialize (IH Ht).
  unfold cnt in *. simpl.
  destruct (Z.ltb_spec (key x) k) as [H1|H1].
  - destruct (Z.ltb_spec (key x) (k + 1)); [|lia].
    destruct (Z.eqb_spec (key x) k); [lia|]. simpl. exact IH.
  - assert (H0 : length (filter (fun y => key y <? k) t) = 0%nat).
    { apply (cnt_below_zero key t k). eapply Forall_impl; [|exact Hx]. simpl. lia. }
    rewrite H0 in *. simpl in IH. rewrite Nat.sub_0_r in *.
    destruct (Z.ltb_spec (key x) (k + 1)) as [H2|H2].
    + destruct (Z.eqb_spec (key x) k); [|lia]. simpl. now rewrite IH.
    + destruct (Z.eqb_spec (key x) k); [lia|].
      assert (H3 : length (filter (fun y => key y <? k + 1) t) = 0%nat).
      { apply (cnt_below_zero key t (k + 1)).
        eapply Forall_impl; [|exact Hx]. simpl. lia. }
      rewrite H3 in *. simpl in *. exact IH.
Qed.

Lemma lower_bound_map {A : Type} (key : A -> Z) (l : list A) (k : Z) :
  lower_bound (map key l) k = Z.of_nat (cnt (fun x => key x <? k) l).
Proof.
  unfold lower_bound, len, cnt. f_equal.
  induction l as [|x t IH]; simpl; [reflexivity|].
  destruct (key x <? k); simpl; now rewrite IH.
Qed.

(** Between the two bounds of [k] a list sorted by its key holds the
    entries whose key is [k]. *)
Lemma slice_sorted {A : Type} (key : A -> Z) (l : list A) (k : Z) :
  StronglySorted Z.le (map key l) ->
  py_slice l (lower_bound (map key l) k) (lower_bound (map key l) (k + 1))
  = filter (fun x => key x =? k) l.
Proof.
  intros Hs.
  pose proof (lower_bound_nonneg (map key l) k).
  pose proof (lower_bound_nonneg (map key l) (k + 1)).
  pose proof (lower_bound_le_len (map key l) k) as H1.
  pose proof (lower_bound_le_len (map key l) (k + 1)) as H2.
  unfold len in H1, H2. rewrite length_map in H1, H2.
  rewrite py_slice_firstn_skipn by (unfold len; lia).
  rewrite !lower_bound_map, !Nat2Z.id. now apply slice_sorted_nat.
Qed.

Lemma py_slice_map {A B : Type} (f : A -> B) (l : list A) (lo hi : Z) :
  py_slice (map f l) lo hi = map f (py_slice l lo hi).
Proof.
  unfold py_slice, len. rewrite length_map.
  now rewrite skipn_map, firstn_map.
Qed.

(** ** [NeighborList.get_neighbors] after [build] *)

Lemma sort_key_first (n : Z) (l : list cand) :
  Forall (fun c : cand => 0 <= snd (fst c) < n) l ->
  StronglySorted Z.le (map (fun c : cand => fst (fst c) * n + snd (fst c)) l) ->
  StronglySorted Z.le (map (fun c : cand => fst (fst c)) l).
Proof.
  induction l as [|x t IH]; simpl; intros Hr Hs; [constructor|].
  inversion Hr as [|? ? Hx Ht]; subst. inversion Hs as [|? ? Hst Hxt]; subst.
  constructor; [auto|].
  rewrite Forall_forall in *. intros v Hv.
  apply in_map_iff in Hv as (y & <- & Hy).
  specialize (Hxt _ (in_map (fun c : cand => fst (fst c) * n + snd (fst c)) _ _ Hy)).
  specialize (Ht _ Hy). simpl in Hxt. nia.
Qed.

Section GetNeighbors.
Context {E : Externals}.

Lemma build_fields (self self' : NeighborList.t) (atoms : Atoms) :
  NeighborList.build self atoms = Ok self' ->
  exists full kept fn,
    neighbor_pairs atoms (CutArray (NeighborList.cutoffs self))
      (NeighborList.self_interaction self) = Ok full
    /\ kept = (let l1 := if NeighborList.bothways self then map triple full
                         else filter half_keep (map triple full) in
               if NeighborList.sorted self
               then sort_by (fun c : cand => fst (fst c) * len l1 + snd (fst c)) l1
               else l1)
    /\ stored self' = Some kept
    /\ NeighborList.pair_second self' = Some (map (fun c : cand => snd (fst c)) kept)
    /\ NeighborList.offset_vec self' = Some (map (fun c : cand => snd c) kept)
    /\ NeighborList.first_neigh self' = Some fn
    /\ first_neighbors (len (positions atoms)) (map (fun c : cand => fst (fst c)) kept)
       = Ok fn.
Proof.
  unfold NeighborList.build. rewrite neighbor_list_ijS. intros H.
  inv_bind H. inv_bind Hx. inversion Hx; subst x; clear Hx.
  rewrite combine_columns, mask_select_map in H. inv_bind H.
  inversion H; subst self'; clear H.
  exists x0. eexists. exists x. split; [assumption|]. split; [reflexivity|].
  unfold stored. simpl. rewrite combine_triples. repeat split. exact Hx.
Qed.

Lemma kept_from_full (self : NeighborList.t) (full : list pair) (c : cand) :
  In c (let l1 := if NeighborList.bothways self then map triple full
                  else filter half_keep (map triple full) in
        if NeighborList.sorted self
        then sort_by (fun c : cand => fst (fst c) * len l1 + snd (fst c)) l1
        else l1) ->
  In c (map triple full).
Proof.
  simpl. intros H.
  destruct (NeighborList.sorted self); [apply sort_by_in in H|];
    (destruct (NeighborList.bothways self); [assumption|]);
    now apply filter_In in H.
Qed.

Lemma kept_sorted (self : NeighborList.t) (atoms : Atoms) (full : list pair)
  (kept : list cand) :
  neighbor_pairs atoms (CutArray (NeighborList.cutoffs self))
    (NeighborList.self_interaction self) = Ok full ->
  kept = (let l1 := if NeighborList.bothways self then map triple full
                    else filter half_keep (map triple full) in
          if NeighborList.sorted self
          then sort_by (fun c : cand => fst (fst c) * len l1 + snd (fst c)) l1
          else l1) ->
  keeps_order self kept ->
  StronglySorted Z.le (map (fun c : cand => fst (fst c)) kept)
  /\ Forall (fun v => 0 <= v < len (positions atoms))
       (map (fun c : cand => fst (fst c)) kept).
Proof.
  intros Hfull Hkept Hord. split.
  - assert (Hl1 : forall l1, l1 = (if NeighborList.bothways self then map triple full
                                   else filter half_keep (map triple full)) ->
                  StronglySorted Z.le (map (fun c : cand => fst (fst c)) l1)).
    { intros l1 ->. pose proof (neighbor_pairs_sorted _ _ _ _ Hfull) as Hs.
      assert (Hm : map (fun c : cand => fst (fst c)) (map triple full) = map p_i full)
        by (rewrite map_map; reflexivity).
      destruct (NeighborList.bothways self).
      - now rewrite Hm.
      - apply filter_sorted. now rewrite Hm. }
    simpl in Hkept. destruct (NeighborList.sorted self) eqn:Eso.
    + destruct Hord as [Hord|Hord]; [congruence|].
      apply (sort_key_first (len kept)).
      * rewrite Forall_forall in *. intros c Hc. split; [|now apply Hord].
        rewrite Hkept in Hc. apply sort_by_in in Hc.
        assert (Hc' : In c (map triple full))
          by (destruct (NeighborList.bothways self);
              [assumption|now apply filter_In in Hc]).
        apply in_map_iff in Hc' as (r & <- & Hr).
        now destruct (neighbor_pairs_range _ _ _ _ r Hfull Hr).
      * assert (Hlen : len kept
                       = len (if NeighborList.bothways self then map triple full
                              else filter half_keep (map triple full))).
        { rewrite Hkept. unfold len. f_equal.
          apply Permutation_length, sort_by_perm. }
        rewrite Hlen, Hkept. apply sort_by_sorted.
    + rewrite Hkept. now apply Hl1.
  - apply Forall_forall. intros v Hv. apply in_map_iff in Hv as (c & <- & Hc).
    rewrite Hkept in Hc. apply kept_from_full in Hc.
    apply in_map_iff in Hc as (r & <- & Hr).
    now destruct (neighbor_pairs_range _ _ _ _ r Hfull Hr).
Qed.

Lemma get_neighbors_stored (self self' : NeighborList.t) (atoms : Atoms)
  (kept : list cand) (a : Z) :
  NeighborList.build self atoms = Ok self' ->
  stored self' = Some kept ->
  keeps_order self kept ->
  0 <= a < len (positions atoms) ->
  NeighborList.get_neighbors self' a = Ok (neighbors_of a kept).
Proof.
  intros Hb Hst Hord Ha.
  destruct (build_fields _ _ _ Hb) as (full & kept' & fn & Hfull & Hk & Hst' & H2 & H3 & H4 & Hfn).
  assert (Ek : kept' = kept) by congruence. rewrite Ek in Hk, H2, H3, Hfn. clear Ek Hst'.
  destruct (kept_sorted _ _ _ _ Hfull Hk Hord) as [Hs Hr].
  rewrite first_neighbors_table in Hfn by (assumption || lia).
  inversion Hfn; subst fn; clear Hfn.
  unfold NeighborList.get_neighbors. rewrite H2, H3, H4. simpl.
  rewrite !py_index_map_zrange by lia. simpl.
  rewrite !py_slice_map, !slice_sorted by assumption. reflexivity.
Qed.

(** X13: after [build], [get_neighbors a] returns the stored pairs whose first
    atom is [a], second indices and offsets side by side, in the order in
    which they are stored. *)
Theorem get_neighbors_after_build (self self' : NeighborList.t) (atoms : Atoms)
  (kept : list cand) (a : Z) :
  NeighborList.build self atoms = Ok self' ->
  stored self' = Some kept ->
  keeps_order self kept ->
  0 <= a < len (positions atoms) ->
  NeighborList.get_neighbors self' a = Ok (neighbors_of a kept).
Proof. apply get_neighbors_stored. Qed.

End GetNeighbors.

Lemma in_combine_maps {A B C : Type} (f : A -> B) (g : A -> C) (l : list A)
  (x : B) (y : C) :
  In (x, y) (combine (map f l) (map g l)) <-> exists c, In c l /\ f c = x /\ g c = y.
Proof.
  induction l as [|u t IH]; simpl.
  - split; [contradiction|intros (c & [] & _)].
  - rewrite IH. split.
    + intros [E1|(c & Hc & H)]; [inversion E1; exists u; auto|exists c; auto].
    + intros (c & [->|Hc] & <- & <-); [now left|right; exists c; auto].
Qed.

Lemma in_neighbors_of (a b : Z) (sh : ivec3) (kept : list cand) :
  In (b, sh) (combine (fst (neighbors_of a kept)) (snd (neighbors_of a kept)))
  <-> In (a, b, sh) kept.
Proof.
  unfold neighbors_of. simpl. rewrite in_combine_maps. split.
  - intros ([[i j] s] & Hc & <- & <-). apply filter_In in Hc as [Hc Hf].
    unfold first_is in Hf. simpl in *. apply Z.eqb_eq in Hf. now subst.
  - intros H. exists (a, b, sh). split; [|auto].
    apply filter_In. split; [assumption|]. unfold first_is. simpl. apply Z.eqb_refl.
Qed.

Lemma py_index_map_inv {A B : Type} (f : A -> B) (l : list A) (k : Z) (y : B) :
  py_index (map f l) k = Ok y -> exists x, py_index l k = Ok x /\ y = f x.
Proof.
  unfold py_index, len. rewrite length_map.
  destruct (py_norm _ k) as [p|]; [|discriminate].
  rewrite nth_error_map. destruct (nth_error l p); simpl; [|discriminate].
  intros H. inversion H. eauto.
Qed.

Section Docstring.
Context {E : Externals}.

Lemma kept_in_full (self self' : NeighborList.t) (atoms : Atoms) (kept : list cand) :
  NeighborList.build self atoms = Ok self' -> stored self' = Some kept ->
  exists full,
    neighbor_pairs atoms (CutArray (NeighborList.cutoffs self))
      (NeighborList.self_interaction self) = Ok full
    /\ forall c, In c kept <->
         In c (map triple full)
         /\ (NeighborList.bothways self = false -> half_keep c = true).
Proof.
  intros Hb Hst.
  destruct (build_stored _ _ _ Hb) as (full & kept' & Hfull & Hst' & Hperm).
  assert (kept' = kept) by congruence. subst kept'.
  exists full. split; [assumption|]. intros c.
  destruct (NeighborList.bothways self).
  - split.
    + intros Hc. split; [eapply Permutation_in; eassumption|discriminate].
    + intros [Hc _]. eapply Permutation_in; [symmetry; eassumption|assumption].
  - split.
    + intros Hc. apply (Permutation_in _ Hperm) in Hc.
      apply filter_In in Hc as [Hc Hk]. auto.
    + intros [Hc Hk]. apply (Permutation_in _ (Permutation_sym Hperm)).
      apply filter_In. auto.
Qed.

Lemma full_mirror (atoms : Atoms) (cutoff : cutoff_spec) (si : bool)
  (full : list pair) (c : cand) :
  search_fits atoms cutoff = true ->
  neighbor_pairs atoms cutoff si = Ok full ->
  In c (map triple full) -> opposable (snd c) = true ->
  In (mirror_cand c) (map triple full).
Proof.
  intros Hf Hfull Hc Hop. apply in_map_iff in Hc as (r & <- & Hr).
  destruct (neighbor_pairs_sym _ _ _ _ Hf Hfull r Hr Hop)
    as (r' & Hr' & Hi & Hj & HS & _).
  apply in_map_iff. exists r'. split; [|assumption].
  unfold triple, mirror_cand. now rewrite Hi, Hj, HS.
Qed.

Lemma full_range (atoms : Atoms) (cutoff : cutoff_spec) (si : bool)
  (full : list pair) (i j : Z) (sh : ivec3) :
  neighbor_pairs atoms cutoff si = Ok full ->
  In (i, j, sh) (map triple full) ->
  0 <= i < len (positions atoms) /\ 0 <= j < len (positions atoms).
Proof.
  intros Hfull Hc. apply in_map_iff in Hc as (r & Er & Hr).
  inversion Er; subst. now apply (neighbor_pairs_range atoms cutoff si full).
Qed.

(** X14: with [bothways], if [get_neighbors a] gives atom [b] with offset
    [S], then [get_neighbors b] gives atom [a] with offset [-S], where
    [build] keeps the pairs in the order of their first atom (it does
    without [sorted], and with [sorted] if every second index is below the
    number of pairs), the bin search stays inside [int64] and no component
    of [S] is [INT64_MIN]. *)
Theorem get_neighbors_bothways (self self' : NeighborList.t) (atoms : Atoms)
  (kept : list cand) (a b : Z) (sh : ivec3) (js : list Z) (ss : list ivec3) :
  NeighborList.bothways self = true ->
  NeighborList.build self atoms = Ok self' ->
  stored self' = Some kept ->
  keeps_order self kept ->
  search_fits atoms (CutArray (NeighborList.cutoffs self)) = true ->
  0 <= a < len (positions atoms) ->
  NeighborList.get_neighbors self' a = Ok (js, ss) ->
  In (b, sh) (combine js ss) ->
  opposable sh = true ->
  exists js' ss',
    NeighborList.get_neighbors self' b = Ok (js', ss')
    /\ In (a, ivopp sh) (combine js' ss').
Proof.
  intros Hbw Hb Hst Hord Hf Ha Hget Hin Hop.
  rewrite (get_neighbors_stored _ _ _ _ _ Hb Hst Hord Ha) in Hget.
  inversion Hget; subst js ss; clear Hget.
  apply (in_neighbors_of a b sh kept) in Hin.
  destruct (kept_in_full _ _ _ _ Hb Hst) as (full & Hfull & Hk).
  pose proof (proj1 (Hk _) Hin) as [Hfl _].
  pose proof (full_mirror _ _ _ _ _ Hf Hfull Hfl Hop) as Hm. simpl in Hm.
  destruct (full_range _ _ _ _ _ _ _ Hfull Hfl) as [_ Hbr].
  exists (fst (neighbors_of b kept)), (snd (neighbors_of b kept)).
  split.
  - rewrite (get_neighbors_stored _ _ _ _ _ Hb Hst Hord Hbr).
    now destruct (neighbors_of b kept).
  - apply in_neighbors_of. apply Hk. split; [assumption|congruence].
Qed.

(** X15: without [bothways], if [get_neighbors a] gives atom [b] with offset
    [S], then [get_neighbors b] does not give [a] with offset [-S], unless
    the pair is an atom with itself at zero offset, where [build] keeps
    the pairs in the order of their first atom (it does without [sorted],
    and with [sorted] if every second index is below the number of
    pairs). *)
Theorem get_neighbors_one_way (self self' : NeighborList.t) (atoms : Atoms)
  (kept : list cand) (a b : Z) (sh : ivec3) (js js' : list Z) (ss ss' : list ivec3) :
  NeighborList.bothways self = false ->
  NeighborList.build self atoms = Ok self' ->
  stored self' = Some kept ->
  keeps_order self kept ->
  0 <= a < len (positions atoms) ->
  NeighborList.get_neighbors self' a = Ok (js, ss) ->
  In (b, sh) (combine js ss) ->
  NeighborList.get_neighbors self' b = Ok (js', ss') ->
  In (a, ivopp sh) (combine js' ss') ->
  a = b /\ sh = (0, 0, 0).
Proof.
  intros Hbw Hb Hst Hord Ha Hget Hin Hget' Hin'.
  rewrite (get_neighbors_stored _ _ _ _ _ Hb Hst Hord Ha) in Hget.
  inversion Hget; subst js ss; clear Hget.
  apply (in_neighbors_of a b sh kept) in Hin.
  destruct (kept_in_full _ _ _ _ Hb Hst) as (full & Hfull & Hk).
  pose proof (proj1 (Hk _) Hin) as [Hfl Hc].
  destruct (full_range _ _ _ _ _ _ _ Hfull Hfl) as [_ Hbr].
  rewrite (get_neighbors_stored _ _ _ _ _ Hb Hst Hord Hbr) in Hget'.
  inversion Hget'; subst js' ss'; clear Hget'.
  apply (in_neighbors_of b a (ivopp sh) kept) in Hin'.
  pose proof (proj1 (Hk _) Hin') as [_ Hc'].
  specialize (Hc Hbw). specialize (Hc' Hbw).
  apply half_keep_canonical in Hc, Hc'.
  pose proof (canonical_both (a, b, sh) Hc Hc') as Em. simpl in Em.
  destruct sh as [[x y] z]. unfold ivopp in Em.
  injection Em as E1 E2 E3 E4 E5. split; [congruence|].
  f_equal; [f_equal|]; lia.
Qed.

(** X17: every stored pair lies within the sum of the two radii, each with
    the skin added: [|r_j - r_i + S . cell| < (c_i + skin) + (c_j + skin)]. *)
Theorem build_within_radii (cs : list float) (sk : float) (so si bw : bool)
  (self' : NeighborList.t) (atoms : Atoms) (kept : list cand)
  (i j : Z) (sh : ivec3) :
  NeighborList.build (NeighborList.init cs sk so si bw) atoms = Ok self' ->
  stored self' = Some kept ->
  In (i, j, sh) kept ->
  exists pi pj ci cj,
    py_index (positions atoms) i = Ok pi /\ py_index (positions atoms) j = Ok pj
    /\ py_index cs i = Ok ci /\ py_index cs j = Ok cj
    /\ (sqrt (sqsum (vadd (vsub pj pi) (ivec_dot_mat sh (cell atoms))))
        <? (ci + sk) + (cj + sk))%float = true.
Proof.
  intros Hb Hst Hin.
  destruct (kept_in_full _ _ _ _ Hb Hst) as (full & Hfull & Hk).
  pose proof (proj1 (Hk _) Hin) as [Hfl _]. apply in_map_iff in Hfl as (r & Er & Hr).
  inversion Er; subst i j sh. simpl in Hfull.
  destruct (neighbor_pairs_geometry _ _ _ _ r Hfull Hr)
    as ((pi & pj & Hpi & Hpj & HD) & Hd & _).
  destruct (neighbor_pairs_radii _ _ _ _ r Hfull Hr) as (ri & rj & Hri & Hrj & Hlt).
  apply py_index_map_inv in Hri as (ci & Hci & ->).
  apply py_index_map_inv in Hrj as (cj & Hcj & ->).
  exists pi, pj, ci, cj. rewrite <- HD, <- Hd. auto 6.
Qed.

(** X12: [first_neighbors] applied to the first indices that [neighbor_list]
    returns gives, for every atom [k], the bounds of the slice that holds
    the pairs of [k]. *)
Theorem neighbor_list_first_neighbors (a : Atoms) (cutoff : cutoff_spec)
  (si : bool) (rv : retval) :
  neighbor_list quantities_all a cutoff si = Ok rv ->
  exists out s,
    rv = all_columns out
    /\ first_neighbors (len (positions a)) (map p_i out) = Ok s
    /\ forall k, 0 <= k < len (positions a) ->
         exists lo hi,
           py_index s k = Ok lo /\ py_index s (k + 1) = Ok hi
           /\ py_slice out lo hi = filter (fun r => p_i r =? k) out.
Proof.
  intros H. apply neighbor_list_all_Ok in H as (out & H & ->).
  exists out, (map (lower_bound (map p_i out)) (zrange 0 (len (positions a) + 1))).
  split; [reflexivity|]. split.
  - apply first_neighbors_table.
    + unfold len. lia.
    + now apply (neighbor_pairs_sorted a cutoff si).
    + apply Forall_forall. intros v Hv. apply in_map_iff in Hv as (r & <- & Hr).
      now destruct (neighbor_pairs_range a cutoff si out r H Hr).
  - intros k Hk. exists (lower_bound (map p_i out) k), (lower_bound (map p_i out) (k + 1)).
    rewrite !py_index_map_zrange by lia.
    split; [reflexivity|]. split; [reflexivity|].
    apply slice_sorted. now apply (neighbor_pairs_sorted a cutoff si).
Qed.

End Docstring.

(** ** With and without [self_interaction] *)

Lemma insert_by_front {A : Type} (key : A -> Z) (P : A -> bool) (x : A) (l : list A) :
  Forall (fun v => key x <= v) (map key l) ->
  insert_by key x (filter P l) = x :: filter P l.
Proof.
  induction l as [|z t IH]; simpl; intros H; [reflexivity|].
  inversion H as [|? ? Hz Ht]; subst.
  destruct (P z); simpl; [|auto].
  destruct (Z.leb_spec (key x) (key z)); [reflexivity|lia].
Qed.

Lemma filter_insert_by {A : Type} (key : A -> Z) (P : A -> bool) (x : A) (l : list A) :
  StronglySorted Z.le (map key l) ->
  filter P (insert_by key x l)
  = if P x then insert_by key x (filter P l) else filter P l.
Proof.
  induction l as [|y t IH]; simpl; intros Hs.
  - now destruct (P x).
  - inversion Hs as [|? ? Ht Hy]; subst. specialize (IH Ht).
    destruct (Z.leb_spec (key x) (key y)) as [Hlt|Hge]; simpl.
    + destruct (P x) eqn:Px; [|reflexivity].
      change (if P y then y :: filter P t else filter P t) with (filter P (y :: t)).
      rewrite insert_by_front; [reflexivity|].
      simpl. constructor; [assumption|].
      eapply Forall_impl; [|exact Hy]. simpl. lia.
    + rewrite IH. destruct (P x), (P y); simpl; try reflexivity.
      destruct (Z.leb_spec (key x) (key y)); [lia|reflexivity].
Qed.

Lemma filter_sort_by {A : Type} (key : A -> Z) (P : A -> bool) (l : list A) :
  filter P (sort_by key l) = sort_by key (filter P l).
Proof.
  induction l as [|x t IH]; simpl; [reflexivity|].
  rewrite filter_insert_by by apply sort_by_sorted.
  rewrite IH. now destruct (P x).
Qed.

Lemma filter_comm {A : Type} (P Q : A -> bool) (l : list A) :
  filter P (filter Q l) = filter Q (filter P l).
Proof.
  induction l as [|x t IH]; simpl; [reflexivity|].
  destruct (P x) eqn:Px, (Q x) eqn:Qx; simpl; rewrite ?Px, ?Qx, IH; reflexivity.
Qed.

Lemma drop_nonperiodic_filter (pb : bvec3) (P : cand -> bool) (l : list cand) :
  drop_nonperiodic pb (filter P l) = filter P (drop_nonperiodic pb l).
Proof.
  destruct pb as [[p0 p1] p2]. unfold drop_nonperiodic.
  destruct p0, p1, p2; rewrite ?(filter_comm P); reflexivity.
Qed.

Lemma mapM_filter {A B : Type} (f : A -> result B) (P : A -> bool) (Q : B -> bool)
  (l : list A) (l' : list B) :
  (forall x y, f x = Ok y -> P x = Q y) ->
  mapM f l = Ok l' -> mapM f (filter P l) = Ok (filter Q l').
Proof.
  intros HPQ. revert l'. induction l as [|x t IH]; simpl; intros l' H.
  - now inversion H.
  - inv_bind H. inv_bind H. inversion H; subst l'. simpl.
    rewrite <- (HPQ _ _ Hx). destruct (P x); simpl.
    + rewrite Hx. simpl. now rewrite (IH _ Hx0).
    + now apply IH.
Qed.

Lemma mask_select_filter {A : Type} (P g : A -> bool) (l : list A) :
  mask_select (map g (filter P l)) (filter P l)
  = filter P (mask_select (map g l) l).
Proof. rewrite !mask_select_map. apply filter_comm. Qed.

Section SelfInteraction.
Context {E : Externals}.

Lemma assign_entry_fun (n : list Z) (pairs : list pair) (g : pair -> float)
  (e : element * element * float) (pc : list float) :
  assign_entry n pairs (map g pairs) e = Ok pc ->
  pc = map (fun r => if entry_selects n (to_number (fst (fst e)))
                                      (to_number (snd (fst e))) r
                     then snd e else g r) pairs
  /\ Forall (indexed n) pairs.
Proof.
  destruct e as [[k1 k2] c]. unfold assign_entry. intros H. inv_bind H.
  inversion H; subst pc; clear H. split.
  - rewrite (mapM_Ok_map _ false _ _ Hx).
    rewrite combine_maps, map_map. simpl. apply map_ext. intros r.
    unfold entry_selects. reflexivity.
  - apply Forall_forall. intros r Hr.
    destruct (mapM_in_inv _ _ _ _ Hx Hr) as (b & Hb & _).
    unfold entry_mask in Hb. inv_bind Hb. inv_bind Hb. split; eauto.
Qed.

Lemma assign_entry_indexed (n : list Z) (pairs : list pair) (g : pair -> float)
  (e : element * element * float) :
  Forall (indexed n) pairs ->
  assign_entry n pairs (map g pairs) e
  = Ok (map (fun r => if entry_selects n (to_number (fst (fst e)))
                                         (to_number (snd (fst e))) r
                      then snd e else g r) pairs).
Proof.
  destruct e as [[k1 k2] c]. intros Hidx. unfold assign_entry.
  rewrite (mapM_total _ (entry_selects n (to_number k1) (to_number k2))).
  - simpl. now rewrite combine_maps, map_map.
  - intros r Hr. rewrite Forall_forall in Hidx.
    destruct (Hidx r Hr) as [[ni Hi] [nj Hj]].
    unfold entry_selects, entry_mask. now rewrite Hi, Hj.
Qed.

Lemma foldM_assign_fun (n : list Z) (d : list (element * element * float))
  (pairs : list pair) (g0 : pair -> float) (pc : list float) :
  foldM (assign_entry n pairs) d (map g0 pairs) = Ok pc ->
  pc = map (entry_fun n d g0) pairs /\ (d <> [] -> Forall (indexed n) pairs).
Proof.
  revert g0. induction d as [|e d IH]; simpl; intros g0 H.
  - inversion H. split; [reflexivity|congruence].
  - inv_bind H. apply assign_entry_fun in Hx as [-> Hidx].
    apply IH in H as [-> _]. split; [reflexivity|auto].
Qed.

Lemma foldM_assign_indexed (n : list Z) (d : list (element * element * float))
  (pairs : list pair) (g0 : pair -> float) :
  (d <> [] -> Forall (indexed n) pairs) ->
  foldM (assign_entry n pairs) d (map g0 pairs)
  = Ok (map (entry_fun n d g0) pairs).
Proof.
  revert g0. induction d as [|e d IH]; simpl; intros g0 Hidx; [reflexivity|].
  assert (Hi : Forall (indexed n) pairs) by (apply Hidx; discriminate).
  rewrite assign_entry_indexed by assumption. simpl. apply IH. auto.
Qed.

Lemma apply_cutoff_filter (a : Atoms) (cutoff : cutoff_spec) (P : pair -> bool)
  (pairs out : list pair) :
  apply_cutoff a cutoff pairs = Ok out ->
  apply_cutoff a cutoff (filter P pairs) = Ok (filter P out).
Proof.
  destruct cutoff as [c|d|rc]; simpl; intros H.
  - now inversion H.
  - inv_bind H. inversion H; subst out; clear H. unfold per_pair_cutoff in *.
    apply foldM_assign_fun in Hx as [-> Hidx].
    rewrite foldM_assign_indexed.
    + simpl. rewrite !combine_map_r, !map_map. simpl.
      now rewrite mask_select_filter.
    + intros Hd. specialize (Hidx Hd). rewrite Forall_forall in *.
      intros r Hr. apply Hidx. now apply filter_In in Hr.
  - inv_bind H. inversion H; subst out; clear H.
    pose proof (mapM_Ok_map _ false _ _ Hx) as ->.
    rewrite (mapM_total _ (fun p => match (ci <- py_index rc (p_i p) ;;
                                           cj <- py_index rc (p_j p) ;;
                                           Ok (p_d p <? ci + cj)%float) with
                                    | Ok y => y | Raise _ => false end)).
    + simpl. now rewrite mask_select_filter.
    + intros r Hr. apply filter_In in Hr as [Hr _].
      destruct (mapM_in_inv _ _ _ _ Hx Hr) as (b & Hb & _). now rewrite Hb.
Qed.

Lemma neighbor_pairs_without_self (a : Atoms) (cutoff : cutoff_spec)
  (out : list pair) :
  neighbor_pairs a cutoff true = Ok out ->
  neighbor_pairs a cutoff false = Ok (filter (fun r => negb (self_pair r)) out).
Proof.
  unfold neighbor_pairs. intros H.
  inv_bind H. inv_bind H. inv_bind H. inv_bind H. inv_bind H. inv_bind H. inv_bind H.
  cbv zeta in *.
  rewrite Hx. cbn [bind]. rewrite Hx0. cbn [bind]. rewrite Hx1. cbn [bind].
  rewrite Hx2. cbn [bind]. rewrite Hx3. cbn [bind]. rewrite Hx4. cbn [bind].
  rewrite drop_nonperiodic_filter, <- filter_sort_by.
  assert (HPQ : forall c r, with_distance a c = Ok r ->
                  not_self c = negb (self_pair r)).
  { intros c r Hc. apply with_distance_fields in Hc. subst c.
    unfold not_self, self_pair. reflexivity. }
  rewrite (mapM_filter (with_distance a) not_self (fun r => negb (self_pair r))
             _ _ HPQ Hx5).
  cbn [bind]. rewrite filter_comm. now apply apply_cutoff_filter.
Qed.

(** X7: [self_interaction] only adds the pairs of an atom with itself at
    zero shift: the call without it returns the pairs that the call with it
    returns, less those (as a collection; the order among the pairs of one
    atom is the sort's). *)
Theorem neighbor_list_without_self (a : Atoms) (cutoff : cutoff_spec) (rv : retval) :
  neighbor_list quantities_all a cutoff true = Ok rv ->
  exists out out',
    rv = all_columns out
    /\ neighbor_list quantities_all a cutoff false = Ok (all_columns out')
    /\ Permutation out' (filter (fun r => negb (self_pair r)) out).
Proof.
  intros H. apply neighbor_list_all_Ok in H as (out & H & ->).
  exists out, (filter (fun r => negb (self_pair r)) out).
  split; [reflexivity|]. split; [|apply Permutation_refl].
  rewrite neighbor_list_all. now rewrite (neighbor_pairs_without_self _ _ _ H).
Qed.

Lemma entry_fun_last (n : list Z) (d : list (element * element * float))
  (k1 k2 : element) (c : float) (g0 : pair -> float) (r : pair) :
  entry_fun n (d ++ [(k1, k2, c)]) g0 r
  = if entry_selects n (to_number k1) (to_number k2) r then c
    else entry_fun n d g0 r.
Proof. unfold entry_fun. now rewrite fold_left_app. Qed.

(** X6: where two entries of the dictionary select the same pair, the one
    that comes later in the dictionary decides: a returned pair that the
    last entry selects is below the value of the last entry. *)
Theorem neighbor_list_dict_last (a : Atoms) (d : list (element * element * float))
  (k1 k2 : element) (c : float) (si : bool) (rv : retval) :
  neighbor_list quantities_all a (CutDict (d ++ [(k1, k2, c)])) si = Ok rv ->
  exists out, rv = all_columns out /\
    forall r, In r out ->
      entry_selects (numbers a) (to_number k1) (to_number k2) r = true ->
      (p_d r <? c)%float = true.
Proof.
  intros H. apply neighbor_list_all_Ok in H as (out & H & ->).
  exists out. split; [reflexivity|]. intros r Hr Hsel.
  apply neighbor_pairs_stages in H as (mc & n & M & B & c0 & c1 & pairs & H).
  destruct H as [Hmc Hn Hfill Hsearch Hshift Hdist Hcut].
  simpl in Hcut. inv_bind Hcut. inversion Hcut; subst out.
  unfold per_pair_cutoff in Hx. apply foldM_assign_fun in Hx as [-> _].
  rewrite combine_map_r, map_map, mask_select_map in Hr. simpl in Hr.
  apply filter_In in Hr as [_ Hr].
  now rewrite entry_fun_last, Hsel in Hr.
Qed.

End SelfInteraction.

(** ** The pair of an atom with itself, for every kind of cutoff *)

Lemma cnt_filter_const {A : Type} (P f : A -> bool) (v : bool) (l : list A) :
  (forall x, In x l -> P x = true -> f x = v) ->
  cnt P (filter f l) = if v then cnt P l else 0%nat.
Proof.
  unfold cnt. induction l as [|x t IH]; simpl; intros H; [now destruct v|].
  specialize (IH (fun y Hy => H y (or_intror Hy))).
  destruct (P x) eqn:Ep.
  - rewrite (H x) by auto. destruct v; simpl; rewrite ?Ep; simpl; now rewrite IH.
  - destruct (f x); simpl; rewrite ?Ep; rewrite IH; reflexivity.
Qed.

Lemma mask_select_mapM_filter {A : Type} (g : A -> result bool) (l : list A)
  (m : list bool) :
  mapM g l = Ok m ->
  mask_select m l = filter (fun x => match g x with Ok b => b | Raise _ => false end) l.
Proof.
  intros H. rewrite (mapM_Ok_map _ false _ _ H). apply mask_select_map.
Qed.

Section SelfCount.
Context {E : Externals}.

Lemma entry_selects_indices (n : list Z) (el1 el2 : element) (r r' : pair) :
  p_i r = p_i r' -> p_j r = p_j r' ->
  entry_selects n el1 el2 r = entry_selects n el1 el2 r'.
Proof. intros Hi Hj. unfold entry_selects, entry_mask. now rewrite Hi, Hj. Qed.

Lemma entry_fun_indices (n : list Z) (d : list (element * element * float))
  (g0 : pair -> float) (r r' : pair) :
  p_i r = p_i r' -> p_j r = p_j r' -> g0 r = g0 r' ->
  entry_fun n d g0 r = entry_fun n d g0 r'.
Proof.
  intros Hi Hj. unfold entry_fun. revert g0.
  induction d as [|e d IH]; simpl; intros g0 Hg; [assumption|].
  apply IH. now rewrite (entry_selects_indices _ _ _ r r'), Hg.
Qed.

Lemma self_zero_pair_fields (i : Z) (r : pair) :
  self_zero_pair i r = true -> p_i r = i /\ p_j r = i.
Proof.
  unfold self_zero_pair. intros H. apply andb_true_iff in H as [H _].
  apply andb_true_iff in H as [Hi Hj]. apply Z.eqb_eq in Hi, Hj. auto.
Qed.

(** The cutoff of the policy on the pairs of atom [i] with itself. *)
Lemma apply_cutoff_self_count (a : Atoms) (cutoff : cutoff_spec)
  (pairs out : list pair) (i : Z) :
  (forall r, In r pairs -> self_zero_pair i r = true -> float_zero (p_d r) = true) ->
  apply_cutoff a cutoff pairs = Ok out ->
  cnt (self_zero_pair i) out
  = if match cutoff with
       | CutScalar _ => true
       | CutDict d => (0 <? entry_fun (numbers a) d (fun _ => 0%float) (self_at i))%float
       | CutArray r => match py_index r i with
                       | Ok ri => (0 <? ri + ri)%float
                       | Raise _ => false
                       end
       end
    then cnt (self_zero_pair i) pairs else 0%nat.
Proof.
  intros Hz. destruct cutoff as [c|d|rc]; simpl; intros H.
  - now inversion H.
  - inv_bind H. inversion H; subst out; clear H. unfold per_pair_cutoff in Hx.
    apply foldM_assign_fun in Hx as [-> _].
    rewrite combine_map_r, map_map. simpl. rewrite mask_select_map.
    apply cnt_filter_const. intros r Hr Hs.
    rewrite (ltb_zero _ _ (Hz r Hr Hs)).
    destruct (self_zero_pair_fields _ _ Hs) as [Hi Hj].
    now rewrite (entry_fun_indices _ _ _ r (self_at i)).
  - inv_bind H. inversion H; subst out; clear H.
    rewrite (mask_select_mapM_filter _ _ _ Hx).
    apply cnt_filter_const. intros r Hr Hs.
    destruct (self_zero_pair_fields _ _ Hs) as [-> ->].
    destruct (py_index rc i) as [ri|e]; simpl; [|reflexivity].
    apply ltb_zero. auto.
Qed.

(** C4: with [self_interaction = false] no pair [(i, i)] at zero shift is
    returned.  With [self_interaction = true], finite positions and cell,
    and a bin search inside [int64], the pair [(i, i)] at zero shift is
    returned exactly once for every atom [i] for which zero is below the
    cutoffs that decide on the pair, and not at all for the other atoms.
    The cutoffs are [c] for a scalar [c]; [2 * max(r)] and [r[i] + r[i]]
    for radii [r]; for a dictionary its largest value and the value of the
    last entry that names the species of [i] twice, zero if there is
    none. *)
Theorem neighbor_list_self_interaction (a : Atoms) :
  (forall cutoff rv,
      neighbor_list quantities_all a cutoff false = Ok rv ->
      exists out, rv = all_columns out /\
        forall r, In r out -> ~ (p_i r = p_j r /\ p_S r = (0, 0, 0)))
  /\
  (forall cutoff rv,
      atoms_finite a = true -> search_fits a cutoff = true ->
      neighbor_list quantities_all a cutoff true = Ok rv ->
      exists out, rv = all_columns out /\
        forall i, 0 <= i < len (positions a) ->
          length (filter (self_zero_pair i) out)
          = if self_within a cutoff i then 1%nat else 0%nat).
Proof.
  split.
  - intros cutoff rv H. apply neighbor_list_all_Ok in H as (out & H & ->).
    exists out. split; [reflexivity|]. intros r Hr.
    now apply (neighbor_pairs_no_self a cutoff out r).
  - intros cutoff rv Hfin Hf H. apply neighbor_list_all_Ok in H as (out & H & ->).
    exists out. split; [reflexivity|]. intros i Hi.
    apply neighbor_pairs_stages in H as (mc & n & M & B & c0 & c1 & pairs & H).
    pose proof (stages_self_count _ _ _ _ _ _ _ _ _ _ i
                  (search_fits_stages _ _ _ _ _ _ _ _ _ _ _ Hf H) H Hi) as Hcnt.
    destruct H as [Hmc Hn Hfill Hsearch Hshift Hdist Hcut].
    assert (Hz : forall r, In r pairs -> self_zero_pair i r = true ->
                           float_zero (p_d r) = true).
    { intros r Hr Hs. destruct (mapM_in _ _ _ _ Hdist Hr) as (cd & _ & Hw).
      exact (self_zero_distance a i cd r Hfin Hw Hs). }
    change (cnt (self_zero_pair i) out = if self_within a cutoff i then 1%nat else 0%nat).
    rewrite (apply_cutoff_self_count a cutoff _ out i
               (fun r Hr => Hz r (proj1 (proj1 (filter_In _ _ _) Hr))) Hcut).
    rewrite (cnt_filter_const (self_zero_pair i) (fun p => (p_d p <? mc)%float)
               (0 <? mc)%float pairs)
      by (intros r Hr Hs; apply ltb_zero; auto).
    rewrite Hcnt.
    destruct cutoff as [c|d|rc]; simpl in Hmc |- *.
    + inversion Hmc; subst mc. now destruct (0 <? c)%float.
    + rewrite Hmc. destruct (0 <? mc)%float; [|now destruct (_ <? _)%float].
      reflexivity.
    + destruct (fmax_list rc) as [m|e]; [|discriminate]. simpl in Hmc.
      inversion Hmc; subst mc.
      destruct (py_index rc i) as [ri|e]; [|now destruct (0 <? 2 * m)%float].
      destruct (0 <? 2 * m)%float; [|now destruct (_ <? _)%float]. reflexivity.
Qed.

End SelfCount.

(** ** An entry for a species that no atom has, in [neighbor_list] *)

Lemma py_index_error {A : Type} (l : list A) (k : Z) (e : exn) :
  py_index l k = Raise e -> e = IndexError.
Proof.
  unfold py_index. destruct (py_norm (len l) k); [|congruence].
  destruct (nth_error l n); congruence.
Qed.

Lemma Forall_or_exists {A : Type} (P Q : A -> Prop) (l : list A) :
  (forall x, P x \/ Q x) -> Forall P l \/ exists x, In x l /\ Q x.
Proof.
  intros H. induction l as [|x t IH]; [left; constructor|].
  destruct (H x) as [Hp|Hq]; [|right; exists x; simpl; auto].
  destruct IH as [Ht|(y & Hy & Hq)]; [left; now constructor|].
  right. exists y. simpl. auto.
Qed.

Section UnknownSpeciesCall.
Context {E : Externals}.

Lemma entry_mask_cases (n : list Z) (el1 el2 : element) (r : pair) :
  (exists b, entry_mask n el1 el2 r = Ok b) \/ entry_mask n el1 el2 r = Raise IndexError.
Proof.
  unfold entry_mask.
  destruct (py_index n (p_i r)) as [ni|e] eqn:Hi; simpl.
  - destruct (py_index n (p_j r)) as [nj|e] eqn:Hj; simpl; [eauto|].
    right. now rewrite (py_index_error _ _ _ Hj).
  - right. now rewrite (py_index_error _ _ _ Hi).
Qed.

Lemma indexed_or_error (n : list Z) (r : pair) :
  indexed n r \/ forall el1 el2, entry_mask n el1 el2 r = Raise IndexError.
Proof.
  unfold indexed, entry_mask.
  destruct (py_index n (p_i r)) as [ni|e] eqn:Hi; simpl.
  - destruct (py_index n (p_j r)) as [nj|e] eqn:Hj; simpl; [left; eauto|].
    right. intros _ _. now rewrite (py_index_error _ _ _ Hj).
  - right. intros _ _. now rewrite (py_index_error _ _ _ Hi).
Qed.

(** Where a pair has no atomic number, every entry fails on it. *)
Lemma per_pair_cutoff_unindexed (n : list Z) (d : list (element * element * float))
  (pairs : list pair) (r : pair) :
  d <> [] -> In r pairs ->
  (forall el1 el2, entry_mask n el1 el2 r = Raise IndexError) ->
  per_pair_cutoff n d pairs = Raise IndexError.
Proof.
  intros Hd Hr Hm. destruct d as [|[[k1 k2] c] d]; [contradiction|].
  unfold per_pair_cutoff. cbn [foldM]. unfold assign_entry at 1.
  rewrite (mapM_raise _ IndexError _ r); [reflexivity| |assumption|apply Hm].
  intros y _. apply entry_mask_cases.
Qed.

Lemma apply_cutoff_absent (a : Atoms) (d1 d2 : list (element * element * float))
  (k1 k2 : element) (c : float) (pairs : list pair) :
  species_absent (numbers a) k1 || species_absent (numbers a) k2 = true ->
  d1 ++ d2 <> [] ->
  apply_cutoff a (CutDict (d1 ++ (k1, k2, c) :: d2)) pairs
  = apply_cutoff a (CutDict (d1 ++ d2)) pairs.
Proof.
  intros Habs Hd. unfold apply_cutoff.
  destruct (Forall_or_exists _ _ pairs (indexed_or_error (numbers a)))
    as [Hidx|(r & Hr & Hm)].
  - now rewrite (per_pair_cutoff_absent _ d1 d2 _ _ c _ Habs Hidx).
  - rewrite !(per_pair_cutoff_unindexed _ _ _ r); auto.
    now destruct d1.
Qed.

(** C9: an entry of the pair-cutoff dictionary whose species no atom has,
    or whose symbol the table of atomic numbers does not know, raises no
    error of its own and selects no pair: where it leaves the largest value
    of the dictionary as it is, [neighbor_list] returns what it returns for
    the dictionary without the entry, the same arrays or the same error.
    The value of the entry is only read for that largest value, which
    sizes the bins and filters the pairs first. *)
Theorem unknown_species_ignored (q : String.string) (a : Atoms)
  (d1 d2 : list (element * element * float)) (k1 k2 : element) (c : float)
  (si : bool) :
  species_absent (numbers a) k1 || species_absent (numbers a) k2 = true ->
  max_cutoff (CutDict (d1 ++ (k1, k2, c) :: d2)) = max_cutoff (CutDict (d1 ++ d2)) ->
  neighbor_list q a (CutDict (d1 ++ (k1, k2, c) :: d2)) si
  = neighbor_list q a (CutDict (d1 ++ d2)) si.
Proof.
  intros Habs Hmax.
  assert (Hd : d1 ++ d2 <> []).
  { intros E0. rewrite E0 in Hmax. simpl in Hmax.
    rewrite map_app in Hmax. simpl in Hmax.
    destruct (map snd d1); discriminate. }
  unfold neighbor_list. f_equal. unfold neighbor_pairs. rewrite Hmax.
  destruct (max_cutoff (CutDict (d1 ++ d2))) as [mc|e]; [|reflexivity].
  cbn [bind].
  repeat match goal with
         | |- bind ?x _ = bind ?x _ =>
             let v := fresh "v" in destruct x as [v|]; [cbn [bind]|reflexivity]
         end.
  now apply apply_cutoff_absent.
Qed.

End UnknownSpeciesCall.

(** ** Moves within the skin *)




Section Skin.
Context {E : Externals}.


End Skin.

(** ** The rows of [PrimitiveNeighborList] *)

Lemma extend_at_spec {A : Type} (rows rows' : list (list A)) (b : Z) (xs : list A) :
  extend_at rows b xs = Ok rows' ->
  exists p row,
    py_norm (len rows) b = Some p /\ nth_error rows p = Some row
    /\ rows' = set_nth p (row ++ xs) rows.
Proof.
  unfold extend_at, py_index, py_set. intros H.
  destruct (py_norm (len rows) b) as [p|]; [|discriminate].
  destruct (nth_error rows p) as [row|] eqn:En; [|discriminate].
  simpl in H. inversion H. eauto.
Qed.

Lemma Forall2_set_nth {A B : Type} (R : A -> B -> Prop) (p : nat) (x : A) (y : B)
  (l : list A) (l' : list B) :
  Forall2 R l l' -> R x y -> Forall2 R (set_nth p x l) (set_nth p y l').
Proof.
  intros H Hxy. revert p. induction H; destruct p; simpl; constructor; auto.
Qed.

Lemma Forall2_nth_error {A B : Type} (R : A -> B -> Prop) (p : nat) (x : A) (y : B)
  (l : list A) (l' : list B) :
  Forall2 R l l' -> nth_error l p = Some x -> nth_error l' p = Some y -> R x y.
Proof.
  intros H. revert p. induction H; destruct p; simpl; try discriminate.
  - intros E1 E2. inversion E1; inversion E2; subst. assumption.
  - apply IHForall2.
Qed.

Lemma Forall_nth_error {A : Type} (P : A -> Prop) (p : nat) (x : A) (l : list A) :
  Forall P l -> nth_error l p = Some x -> P x.
Proof.
  intros H E. rewrite Forall_forall in H. apply H. eapply nth_error_In; eauto.
Qed.

Lemma aligned_extend (N : nat) (nb nb' : list (list Z)) (dp dp' : list (list ivec3))
  (b : Z) (xs : list Z) (ys : list ivec3) :
  aligned N nb dp ->
  extend_at nb b xs = Ok nb' -> extend_at dp b ys = Ok dp' ->
  length xs = length ys -> Forall (fun v => 0 <= v < Z.of_nat N) xs ->
  aligned N nb' dp'.
Proof.
  intros (Hn & Hd & H2 & Hr) Hnb Hdp Hlen Hxs.
  apply extend_at_spec in Hnb as (p & row & Hp & Hrow & ->).
  apply extend_at_spec in Hdp as (q & row' & Hq & Hrow' & ->).
  assert (q = p) by (unfold len in *; rewrite Hn in Hp; rewrite Hd in Hq; congruence).
  subst q. unfold aligned. rewrite !length_set_nth.
  split; [assumption|]. split; [assumption|]. split.
  - apply Forall2_set_nth; [assumption|]. rewrite !length_app.
    rewrite (Forall2_nth_error _ _ _ _ _ _ H2 Hrow Hrow'). lia.
  - apply Forall_set_nth; [assumption|]. apply Forall_app. split; [|assumption].
    exact (Forall_nth_error _ _ _ _ Hr Hrow).
Qed.

Lemma aligned_repeat (N : nat) : aligned N (repeat [] N) (repeat [] N).
Proof.
  unfold aligned. rewrite !repeat_length. split; [reflexivity|].
  split; [reflexivity|]. split.
  - induction N; simpl; constructor; auto.
  - apply Forall_forall. intros r Hr. apply repeat_spec in Hr. subst. constructor.
Qed.

Lemma mask_select_length {A B : Type} (m : list bool) (l : list A) (l' : list B) :
  length l = length l' -> length (mask_select m l) = length (mask_select m l').
Proof.
  revert l l'. induction m as [|b m IH]; intros [|x l] [|y l'] H; simpl;
    try discriminate; try reflexivity.
  simpl in H. destruct b; simpl; rewrite (IH l l') by lia; reflexivity.
Qed.

Lemma foldM_inv {A S : Type} (P : S -> Prop) (f : S -> A -> result S)
  (l : list A) (s s' : S) :
  (forall t x t', In x l -> P t -> f t x = Ok t' -> P t') ->
  P s -> foldM f l s = Ok s' -> P s'.
Proof.
  revert s. induction l as [|x t IH]; simpl; intros s Hf Hs H.
  - now inversion H; subst.
  - inv_bind H. apply (IH x0); [|eapply Hf; eauto|assumption].
    intros t0 y t' Hy. apply Hf. now right.
Qed.

Section Rows.
Context {E : Externals}.

Lemma atom_step_aligned (self : PrimitiveNeighborList.t) (cell_ : mat3)
  (positions0 : list vec3) (offsets : list ivec3) (n : ivec3)
  (st st' : PrimitiveNeighborList.lists) (a : Z) :
  rows_aligned (length positions0) st ->
  PrimitiveNeighborList.atom_step self cell_ positions0 offsets n st a = Ok st' ->
  rows_aligned (length positions0) st'.
Proof.
  unfold PrimitiveNeighborList.atom_step, rows_aligned. intros Hst H.
  inv_bind H. inv_bind H. inv_bind H. inv_bind H. inv_bind H. inv_bind H.
  inv_bind H. inversion H; subst st'; clear H. simpl.
  eapply aligned_extend; [eassumption|eassumption|eassumption| |].
  - symmetry. eapply mapM_length; eassumption.
  - apply Forall_forall. intros v Hv.
    assert (Hz : In v (zrange 0 (len positions0))).
    { destruct (ivec_zero n); [destruct (PrimitiveNeighborList.self_interaction self);
                               apply filter_In in Hv as [Hv _]|];
        eapply mask_select_In; eassumption. }
    apply in_zrange in Hz. unfold len in Hz. lia.
Qed.

Lemma image_step_aligned (self : PrimitiveNeighborList.t) (cell_ : mat3)
  (positions0 : list vec3) (offsets : list ivec3)
  (st st' : PrimitiveNeighborList.lists) (n : ivec3) :
  rows_aligned (length positions0) st ->
  PrimitiveNeighborList.image_step self cell_ positions0 offsets st n = Ok st' ->
  rows_aligned (length positions0) st'.
Proof.
  unfold PrimitiveNeighborList.image_step. destruct n as [[n1 n2] n3].
  intros Hst H. destruct (_ && _); [now inversion H; subst|].
  eapply (foldM_inv (rows_aligned (length positions0))); [|eassumption|eassumption].
  intros t x t' _ Ht Hf. eapply atom_step_aligned; eassumption.
Qed.

Lemma mirror_step_aligned (N : nat) (nd nd' : list (list Z) * list (list ivec3))
  (a : Z) (bd : Z * ivec3) :
  0 <= a < Z.of_nat N ->
  aligned N (fst nd) (snd nd) ->
  PrimitiveNeighborList.mirror_step nd a bd = Ok nd' ->
  aligned N (fst nd') (snd nd').
Proof.
  unfold PrimitiveNeighborList.mirror_step. intros Ha Hal H.
  inv_bind H. inv_bind H. inversion H; subst nd'; clear H. simpl.
  eapply aligned_extend; [eassumption|eassumption|eassumption|reflexivity|].
  constructor; [assumption|constructor].
Qed.

Lemma aligned_app (N : nat) (nb n2 : list (list Z)) (dp d2 : list (list ivec3)) :
  aligned N nb dp -> aligned N n2 d2 ->
  aligned N (map (fun xy => fst xy ++ snd xy) (combine nb n2))
            (map (fun xy => fst xy ++ snd xy) (combine dp d2)).
Proof.
  intros (Hn & Hd & H2 & Hr) (Hn' & Hd' & H2' & Hr').
  unfold aligned. rewrite !length_map, !length_combine.
  split; [lia|]. split; [lia|]. split.
  - clear Hr Hr'. revert N n2 d2 Hn Hd Hn' Hd' H2'.
    induction H2 as [|x y l l' Hxy _ IH]; intros N n2 d2 Hn Hd Hn' Hd' H2';
      simpl; [constructor|].
    inversion H2' as [|u v t t' Huv Ht]; subst; simpl in *; [discriminate|].
    constructor.
    + simpl. rewrite !length_app. lia.
    + apply (IH (length l) t t'); auto; lia.
  - apply Forall_forall. intros r Hin. apply in_map_iff in Hin as ([x y] & <- & Hxy).
    simpl. apply Forall_app. rewrite Forall_forall in Hr, Hr'.
    split; [eapply Hr, in_combine_l|eapply Hr', in_combine_r]; eassumption.
Qed.

Lemma add_mirrors_aligned (N : nat) (st st' : PrimitiveNeighborList.lists) :
  rows_aligned N st ->
  PrimitiveNeighborList.add_mirrors st = Ok st' ->
  rows_aligned N st'.
Proof.
  unfold PrimitiveNeighborList.add_mirrors, rows_aligned. intros Hst H.
  inv_bind H. destruct x as [n2 d2]. inversion H; subst st'; clear H. simpl.
  assert (HN : length (PrimitiveNeighborList.l_neighbors st) = N) by apply Hst.
  rewrite HN in Hx.
  apply aligned_app; [assumption|].
  refine (foldM_inv (fun nd => aligned N (fst nd) (snd nd)) _ _
            (@repeat (list Z) [] N, @repeat (list ivec3) [] N) (n2, d2) _
            (aligned_repeat N) Hx).
  intros t row t' Hrow Ht Hf.
  eapply (foldM_inv (fun nd => aligned N (fst nd) (snd nd))); [|exact Ht|exact Hf].
  intros u bd u' _ Hu Hm.
  apply (mirror_step_aligned N u u' (fst row) bd); [|exact Hu|exact Hm].
  destruct row as [a0 rw]. apply in_combine_l, in_zrange in Hrow. simpl. lia.
Qed.

Lemma sort_step_aligned (N : nat) (st st' : PrimitiveNeighborList.lists) (a : Z) :
  0 <= a < Z.of_nat N ->
  rows_aligned N st ->
  PrimitiveNeighborList.sort_step st a = Ok st' ->
  rows_aligned N st'.
Proof.
  unfold PrimitiveNeighborList.sort_step, rows_aligned. intros Ha Hst H.
  inv_bind H. destruct (existsb _ _); [|now inversion H; subst].
  inv_bind H. inv_bind H. destruct x1 as [nb dp]. inv_bind H. inv_bind H.
  inv_bind H. inv_bind H. inversion H; subst st'; clear H. simpl.
  assert (Hal : aligned N nb dp).
  { refine (foldM_inv (fun nd => aligned N (fst nd) (snd nd)) _ _
              (PrimitiveNeighborList.l_neighbors st,
               PrimitiveNeighborList.l_displacements st) (nb, dp) _ Hst Hx1).
    intros u bd u' _ Hu Hm.
    apply (mirror_step_aligned N u u' a bd); [exact Ha|exact Hu|exact Hm]. }
  destruct Hal as (Hn & Hd & H2 & Hr).
  unfold py_index in Hx2, Hx4. unfold py_set in Hx3, Hx5.
  unfold len in *. rewrite Hn in Hx2, Hx3. rewrite Hd in Hx4, Hx5.
  destruct (py_norm (Z.of_nat N) a) as [p|]; [|discriminate].
  destruct (nth_error nb p) as [row|] eqn:En; [|discriminate].
  destruct (nth_error dp p) as [row'|] eqn:Ed; [|discriminate].
  inversion Hx2; inversion Hx3; inversion Hx4; inversion Hx5; subst.
  unfold aligned. rewrite !length_set_nth.
  split; [reflexivity|]. split; [assumption|]. split.
  - apply Forall2_set_nth; [assumption|]. apply mask_select_length.
    exact (Forall2_nth_error _ _ _ _ _ _ H2 En Ed).
  - apply Forall_set_nth; [assumption|].
    pose proof (Forall_nth_error _ _ _ _ Hr En) as Hrow.
    rewrite Forall_forall in *. intros v Hv. apply Hrow.
    eapply mask_select_In; eassumption.
Qed.

Lemma build_aligned (self self' : PrimitiveNeighborList.t) (pbc_ : bvec3)
  (cell_ : mat3) (coordinates_ : list vec3) :
  PrimitiveNeighborList.build self pbc_ cell_ coordinates_ = Ok self' ->
  exists nb dp,
    PrimitiveNeighborList.neighbors self' = Some nb
    /\ PrimitiveNeighborList.displacements self' = Some dp
    /\ aligned (length coordinates_) nb dp.
Proof.
  unfold PrimitiveNeighborList.build. intros H.
  destruct (negb _); [discriminate|].
  inv_bind H. destruct pbc_ as [[p0 p1] p2].
  inv_bind H. inv_bind H. inv_bind H. inv_bind H. inv_bind H. inv_bind H.
  inversion H; subst self'; clear H. simpl. do 2 eexists.
  split; [reflexivity|]. split; [reflexivity|].
  set (positions_ := if PrimitiveNeighborList.use_scaled_positions self
                     then map (fun s => vec_dot_mat s cell_) coordinates_
                     else coordinates_) in *.
  set (scaled := if PrimitiveNeighborList.use_scaled_positions self
                 then coordinates_
                 else map (fun p => vec_dot_mat p (pinv cell_)) coordinates_) in *.
  assert (Hp : length positions_ = length coordinates_).
  { unfold positions_. destruct (PrimitiveNeighborList.use_scaled_positions self);
      [apply length_map|reflexivity]. }
  assert (Hs : length scaled = length coordinates_).
  { unfold scaled. destruct (PrimitiveNeighborList.use_scaled_positions self);
      [reflexivity|apply length_map]. }
  rewrite Hp in *.
  match type of Hx3 with
  | foldM (PrimitiveNeighborList.image_step _ _ ?p0 _) _ _ = _ =>
      assert (Hp0 : length p0 = length coordinates_)
  end.
  { rewrite length_map, length_combine, length_map, length_combine, length_map.
    lia. }
  assert (H3 : rows_aligned (length coordinates_) x3).
  { rewrite <- Hp0.
    eapply (foldM_inv (rows_aligned _)); [| |exact Hx3].
    - intros t n t' _ Ht Hf. eapply image_step_aligned; eassumption.
    - rewrite Hp0. apply aligned_repeat. }
  assert (H4 : rows_aligned (length coordinates_) x4).
  { destruct (PrimitiveNeighborList.bothways self);
      [eapply add_mirrors_aligned; eassumption|now inversion Hx4; subst]. }
  destruct (PrimitiveNeighborList.sorted self); [|now inversion Hx5; subst].
  eapply (foldM_inv (rows_aligned _)); [|exact H4|exact Hx5].
  intros t a t' Ha Ht Hf. eapply sort_step_aligned; [|eassumption|eassumption].
  now apply in_zrange in Ha.
Qed.

(** X21: after [build], [get_neighbors a] of an atom [a] returns as many
    offsets as indices, and every index is the number of an atom. *)
Theorem primitive_get_neighbors_rows (self self' : PrimitiveNeighborList.t)
  (pbc_ : bvec3) (cell_ : mat3) (coordinates_ : list vec3) (a : Z) :
  PrimitiveNeighborList.build self pbc_ cell_ coordinates_ = Ok self' ->
  0 <= a < len coordinates_ ->
  exists i d,
    PrimitiveNeighborList.get_neighbors self' a = Ok (i, d)
    /\ length i = length d
    /\ Forall (fun b => 0 <= b < len coordinates_) i.
Proof.
  intros Hb Ha. destruct (build_aligned _ _ _ _ _ Hb) as (nb & dp & Hn & Hd & Hal).
  destruct Hal as (Hln & Hld & H2 & Hr).
  unfold PrimitiveNeighborList.get_neighbors. rewrite Hn, Hd. simpl.
  unfold py_index, len in *. rewrite Hln, Hld, py_norm_in_range by lia.
  destruct (nth_error nb (Z.to_nat a)) as [i|] eqn:En;
    [|apply nth_error_None in En; lia].
  destruct (nth_error dp (Z.to_nat a)) as [d|] eqn:Ed;
    [|apply nth_error_None in Ed; lia].
  exists i, d. split; [reflexivity|]. split.
  - exact (Forall2_nth_error _ _ _ _ _ _ H2 En Ed).
  - exact (Forall_nth_error _ _ _ _ Hr En).
Qed.

End Rows.

Local Open Scope float_scope.

(** ** [mic] without periodicity *)

Lemma mul_finite_zero (c z : float) :
  float_finite c = true -> float_zero z = true -> float_zero (c * z) = true.
Proof.
  unfold float_finite, float_zero. rewrite mul_spec.
  destruct (Prim2SF c); try discriminate;
    destruct (Prim2SF z); try discriminate; reflexivity.
Qed.

Lemma np_round_zero (x : float) : float_zero x = true -> np_round x = x.
Proof.
  unfold float_zero, np_round. now destruct (Prim2SF x).
Qed.

Lemma SFcompare_refl (x : spec_float) :
  x <> S754_nan -> SFcompare x x = Some Eq.
Proof.
  destruct x as [s|s| |s m e]; simpl; intros H; try congruence.
  - now destruct s.
  - destruct s; simpl; rewrite (Z.compare_refl e); rewrite Pos.compare_cont_refl;
      reflexivity.
Qed.

Lemma sub_zero_same (x z : float) :
  float_finite x = true -> float_zero z = true -> (x =? x - z) = true.
Proof.
  unfold float_finite, float_zero. rewrite FloatAxioms.eqb_spec, sub_spec.
  destruct (Prim2SF x) as [s|s| |s m e] eqn:Ex; try discriminate;
    destruct (Prim2SF z) as [t| | |]; try discriminate; intros _ _.
  - unfold SF64sub, SFsub. destruct s, t; reflexivity.
  - unfold SF64sub, SFsub, SFeqb. now rewrite SFcompare_refl.
Qed.

Lemma dot3_finite_zero (v : vec3) (x y z : float) :
  vec_finite v = true ->
  float_zero x = true -> float_zero y = true -> float_zero z = true ->
  float_zero (dot3 v (x, y, z)) = true.
Proof.
  destruct v as [[v0 v1] v2]. unfold vec_finite, dot3. intros Hv Hx Hy Hz.
  apply andb_true_iff in Hv as [Hv Hv2]. apply andb_true_iff in Hv as [Hv0 Hv1].
  repeat apply add_zero_zero; now apply mul_finite_zero.
Qed.

Lemma scale_row_zero (r : vec3) :
  vec_finite r = true ->
  let '(x, y, z) := scale_row r false in
  float_zero x = true /\ float_zero y = true /\ float_zero z = true.
Proof.
  destruct r as [[x y] z]. unfold vec_finite, scale_row. intros H.
  apply andb_true_iff in H as [H Hz]. apply andb_true_iff in H as [Hx Hy].
  repeat split; apply mul_finite_zero; auto.
Qed.

Section MicOpen.
Context {E : Externals}.

Lemma mic_open_row (cell_ : mat3) (v : vec3) :
  mat_finite cell_ = true -> mat_finite (pinv cell_) = true ->
  vec_finite v = true ->
  vec_differs v
    (vsub v (vec_dot_mat
               (vround_float
                  (vec_dot_mat v (scale_rows (pinv cell_) (false, false, false))))
               cell_)) = false.
Proof.
  intros Hc Hr Hv.
  destruct (pinv cell_) as [[r0 r1] r2]. unfold mat_finite in Hr.
  apply andb_true_iff in Hr as [Hr Hr2]. apply andb_true_iff in Hr as [Hr0 Hr1].
  pose proof (scale_row_zero r0 Hr0) as Z0.
  pose proof (scale_row_zero r1 Hr1) as Z1.
  pose proof (scale_row_zero r2 Hr2) as Z2.
  unfold scale_rows.
  destruct (scale_row r0 false) as [[a0 a1] a2].
  destruct (scale_row r1 false) as [[b0 b1] b2].
  destruct (scale_row r2 false) as [[c0 c1] c2].
  destruct Z0 as (? & ? & ?), Z1 as (? & ? & ?), Z2 as (? & ? & ?).
  unfold vec_dot_mat at 2. unfold column.
  assert (D0 : float_zero (dot3 v (a0, b0, c0)) = true) by now apply dot3_finite_zero.
  assert (D1 : float_zero (dot3 v (a1, b1, c1)) = true) by now apply dot3_finite_zero.
  assert (D2 : float_zero (dot3 v (a2, b2, c2)) = true) by now apply dot3_finite_zero.
  unfold vround_float. rewrite !np_round_zero by assumption.
  unfold vec_dot_mat.
  assert (F0 : float_zero (dot3 (dot3 v (a0, b0, c0), dot3 v (a1, b1, c1),
                                 dot3 v (a2, b2, c2)) (column cell_ 0)) = true)
    by (apply dot3_zero; auto; now apply column_finite).
  assert (F1 : float_zero (dot3 (dot3 v (a0, b0, c0), dot3 v (a1, b1, c1),
                                 dot3 v (a2, b2, c2)) (column cell_ 1)) = true)
    by (apply dot3_zero; auto; now apply column_finite).
  assert (F2 : float_zero (dot3 (dot3 v (a0, b0, c0), dot3 v (a1, b1, c1),
                                 dot3 v (a2, b2, c2)) (column cell_ 2)) = true)
    by (apply dot3_zero; auto; now apply column_finite).
  destruct v as [[x y] z]. unfold vec_finite in Hv.
  apply andb_true_iff in Hv as [Hv Hz]. apply andb_true_iff in Hv as [Hx Hy].
  unfold vsub, vmap2, vec_differs, fneq.
  now rewrite !sub_zero_same.
Qed.

(** X24: without periodicity in any direction [mic] leaves every vector as it
    is (the components compare equal), for finite vectors, a finite cell
    and a finite pseudo-inverse. *)
Theorem mic_open (dr : list vec3) (cell_ : mat3) :
  mat_finite cell_ = true -> mat_finite (pinv cell_) = true ->
  forallb vec_finite dr = true ->
  Forall2 (fun v w => vec_differs v w = false) dr
          (mic dr cell_ (Some (false, false, false))).
Proof.
  intros Hc Hr Hdr. unfold mic.
  induction dr as [|v t IH]; simpl; constructor.
  - simpl in Hdr. apply andb_true_iff in Hdr as [Hv _]. now apply mic_open_row.
  - apply IH. simpl in Hdr. now apply andb_true_iff in Hdr as [_ Ht].
Qed.

End MicOpen.

Local Close Scope float_scope.

(** ** Errors and the wrapper class *)


Section Wrong.
Context {E : Externals}.

(** X20: [PrimitiveNeighborList.update] on a new object raises [ValueError]
    where the number of cutoff radii differs from the number of
    coordinates, whatever the cell and the flags. *)
Theorem primitive_update_wrong_length (cs : list float) (sk : float)
  (so si bw us : bool) (pbc_ : bvec3) (cell_ : mat3) (coordinates_ : list vec3) :
  length cs <> length coordinates_ ->
  PrimitiveNeighborList.update (PrimitiveNeighborList.init cs sk so si bw us)
    pbc_ cell_ coordinates_ = Raise ValueError.
Proof.
  intros H. unfold PrimitiveNeighborList.update, PrimitiveNeighborList.build.
  simpl. rewrite length_map.
  destruct (Nat.eqb_spec (length cs) (length coordinates_)); [contradiction|].
  reflexivity.
Qed.

Lemma primitive_update_built (self self' : PrimitiveNeighborList.t) (pbc_ : bvec3)
  (cell_ : mat3) (coordinates_ : list vec3) :
  PrimitiveNeighborList.update self pbc_ cell_ coordinates_ = Ok (true, self') ->
  PrimitiveNeighborList.build self pbc_ cell_ coordinates_ = Ok self'.
Proof.
  unfold PrimitiveNeighborList.update. intros H.
  destruct (PrimitiveNeighborList.nupdates self =? 0).
  { inv_bind H. now inversion H; subst. }
  inv_bind H. destruct (bvec_differs _ _).
  { inv_bind H. now inversion H; subst. }
  inv_bind H. destruct (mat_differs _ _).
  { inv_bind H. now inversion H; subst. }
  inv_bind H. inv_bind H. destruct (_ <? _)%float.
  { inv_bind H. now inversion H; subst. }
  discriminate.
Qed.

(** X23: through [LegacyNeighborList], a first [update] that builds makes
    [get_neighbors a] return, for every atom [a], as many offsets as indices,
    all indices numbers of atoms. *)
Theorem legacy_update_get_neighbors (self self' : LegacyNeighborList.t)
  (atoms : Atoms) (a : Z) :
  LegacyNeighborList.update self atoms = Ok (true, self') ->
  0 <= a < len (positions atoms) ->
  exists i d,
    LegacyNeighborList.get_neighbors self' a = Ok (i, d)
    /\ length i = length d
    /\ Forall (fun b => 0 <= b < len (positions atoms)) i.
Proof.
  unfold LegacyNeighborList.update, LegacyNeighborList.get_neighbors.
  intros H Ha. inv_bind H. destruct x as [b nl']. inversion H; subst b self'.
  simpl. apply primitive_update_built in Hx.
  unfold len in *.
  destruct (build_aligned _ _ _ _ _ Hx) as (nb & dp & Hn & Hd & Hln & Hld & H2 & Hr).
  unfold PrimitiveNeighborList.get_neighbors. rewrite Hn, Hd. simpl.
  unfold py_index, len. rewrite Hln, Hld, py_norm_in_range by lia.
  destruct (nth_error nb (Z.to_nat a)) as [i|] eqn:En;
    [|apply nth_error_None in En; lia].
  destruct (nth_error dp (Z.to_nat a)) as [d|] eqn:Ed;
    [|apply nth_error_None in Ed; lia].
  exists i, d. split; [reflexivity|]. split.
  - exact (Forall2_nth_error _ _ _ _ _ _ H2 En Ed).
  - exact (Forall_nth_error _ _ _ _ Hr En).
Qed.

End Wrong.

(** ** No atom is its own neighbour *)

Lemma nth_error_set_nth_eq {A : Type} (p : nat) (v : A) (l : list A) :
  (p < length l)%nat -> nth_error (set_nth p v l) p = Some v.
Proof.
  revert p. induction l as [|x t IH]; destruct p; simpl; intros H; try lia;
    [reflexivity|]. apply IH. lia.
Qed.

Lemma nth_error_set_nth_neq {A : Type} (p q : nat) (v : A) (l : list A) :
  p <> q -> nth_error (set_nth p v l) q = nth_error l q.
Proof.
  revert p q. induction l as [|x t IH]; destruct p, q; simpl; intros H;
    try reflexivity; try lia. apply IH. lia.
Qed.

Lemma combine_app_eq {A B : Type} (l1 l2 : list A) (l1' l2' : list B) :
  length l1 = length l1' ->
  combine (l1 ++ l2) (l1' ++ l2') = combine l1 l1' ++ combine l2 l2'.
Proof.
  revert l1'. induction l1 as [|x t IH]; intros [|y t'] H; simpl in *;
    try discriminate; [reflexivity|]. f_equal. apply IH. lia.
Qed.

Lemma combine_mask_select_In {A B : Type} (m : list bool) (l : list A) (l' : list B)
  (x : A) (y : B) :
  In (x, y) (combine (mask_select m l) (mask_select m l')) -> In (x, y) (combine l l').
Proof.
  revert l l'. induction m as [|b m IH]; intros l l' H.
  - destruct l; contradiction.
  - destruct l as [|u l]; [contradiction|].
    destruct l' as [|v l']; [simpl in H; rewrite combine_nil in H; contradiction|].
    simpl in H. destruct b; simpl in H.
    + destruct H as [H|H]; [now left|right; now apply IH].
    + right. now apply IH.
Qed.

Lemma py_index_nth_error {A : Type} (l : list A) (a : Z) (x : A) :
  0 <= a < len l -> py_index l a = Ok x -> nth_error l (Z.to_nat a) = Some x.
Proof.
  intros Ha. unfold py_index. rewrite py_norm_in_range by assumption.
  destruct (nth_error l (Z.to_nat a)); [|discriminate]. congruence.
Qed.

Lemma wrap64_neg_zero (x : Z) : wrap64 (wrap64 (- x)) = 0 <-> wrap64 x = 0.
Proof.
  rewrite wrap64_wrap64. split; intros H.
  - replace x with (- - x) by lia.
    rewrite wrap64_opp by (rewrite H; discriminate). lia.
  - rewrite wrap64_opp by (rewrite H; discriminate). lia.
Qed.

Lemma self_entry_mirror (a b : Z) (d : ivec3) :
  self_entry a (b, d) = false -> self_entry b (a, ivneg d) = false.
Proof.
  unfold self_entry. simpl. destruct d as [[x y] z]. unfold ivneg, ivec_zero64.
  rewrite !andb_false_iff, !Z.eqb_neq, !wrap64_neg_zero. lia.
Qed.

Lemma no_self_extend (N : nat) (nb nb' : list (list Z)) (dp dp' : list (list ivec3))
  (b : Z) (xs : list Z) (ys : list ivec3) :
  aligned N nb dp -> no_self_entry nb dp ->
  0 <= b < Z.of_nat N ->
  extend_at nb b xs = Ok nb' -> extend_at dp b ys = Ok dp' ->
  Forall (fun bd => self_entry b bd = false) (combine xs ys) ->
  no_self_entry nb' dp'.
Proof.
  intros (Hn & Hd & H2 & Hr) Hns Hb Hnb Hdp Hxy.
  apply extend_at_spec in Hnb as (p & row & Hp & Hrow & ->).
  apply extend_at_spec in Hdp as (q & row' & Hq & Hrow' & ->).
  unfold len in Hp, Hq. rewrite Hn in Hp. rewrite Hd in Hq.
  rewrite py_norm_in_range in Hp, Hq by assumption.
  inversion Hp; inversion Hq; subst p q.
  intros p r dr Hpr Hpd.
  destruct (Nat.eq_dec (Z.to_nat b) p) as [<-|Hne].
  - rewrite nth_error_set_nth_eq in Hpr by lia.
    rewrite nth_error_set_nth_eq in Hpd by lia.
    inversion Hpr; inversion Hpd; subst r dr.
    rewrite combine_app_eq by exact (Forall2_nth_error _ _ _ _ _ _ H2 Hrow Hrow').
    apply Forall_app. split; [exact (Hns _ _ _ Hrow Hrow')|].
    now rewrite Z2Nat.id by lia.
  - rewrite nth_error_set_nth_neq in Hpr by assumption.
    rewrite nth_error_set_nth_neq in Hpd by assumption.
    exact (Hns _ _ _ Hpr Hpd).
Qed.

Section NoSelf.
Context {E : Externals}.

Lemma atom_step_no_self (self : PrimitiveNeighborList.t) (cell_ : mat3)
  (positions0 : list vec3) (offsets : list ivec3) (n : ivec3)
  (st st' : PrimitiveNeighborList.lists) (a : Z) :
  PrimitiveNeighborList.self_interaction self = false ->
  0 <= a < len positions0 ->
  rows_no_self (length positions0) st ->
  PrimitiveNeighborList.atom_step self cell_ positions0 offsets n st a = Ok st' ->
  rows_no_self (length positions0) st'.
Proof.
  intros Hsi Ha [Hal Hns] H. split; [eapply atom_step_aligned; eassumption|].
  unfold PrimitiveNeighborList.atom_step in H. rewrite Hsi in H.
  inv_bind H. inv_bind H. inv_bind H. inv_bind H. inv_bind H. inv_bind H.
  inv_bind H. inversion H; subst st'; clear H. simpl.
  eapply no_self_extend; [exact Hal|exact Hns| |eassumption|eassumption|].
  { unfold len in Ha. lia. }
  apply Forall_forall. intros [b d] Hbd.
  apply mapM_Ok_Forall2 in Hx4.
  pose proof (Forall2_combine_In _ _ _ _ _ Hx4 Hbd) as Hd. simpl in Hd.
  apply in_combine_l in Hbd.
  unfold self_entry. simpl. apply andb_false_iff.
  destruct (Z.eqb_spec b a) as [->|]; [right|now left].
  rewrite Hx3 in Hd. simpl in Hd. inversion Hd; subst d.
  destruct n as [[n1 n2] n3]. unfold PrimitiveNeighborList.fill_int64 in Hx2.
  destruct (in_int64 n1 && in_int64 n2 && in_int64 n3) eqn:Hr; [|discriminate].
  inversion Hx2; subst x2.
  apply andb_true_iff in Hr as [Hr R3]. apply andb_true_iff in Hr as [R1 R2].
  apply in_int64_spec in R1, R2, R3.
  destruct x3 as [[o1 o2] o3].
  unfold ivadd, ivsub, vmap2, ivec_zero64. rewrite !Z.sub_diag.
  change (wrap64 0) with 0.
  rewrite !Z.add_0_r, !wrap64_wrap64, !wrap64_small by assumption.
  destruct (ivec_zero (n1, n2, n3)) eqn:Ez; [|exact Ez].
  apply filter_In in Hbd as [_ Hlt]. apply Z.ltb_lt in Hlt. lia.
Qed.

Lemma image_step_no_self (self : PrimitiveNeighborList.t) (cell_ : mat3)
  (positions0 : list vec3) (offsets : list ivec3)
  (st st' : PrimitiveNeighborList.lists) (n : ivec3) :
  PrimitiveNeighborList.self_interaction self = false ->
  rows_no_self (length positions0) st ->
  PrimitiveNeighborList.image_step self cell_ positions0 offsets st n = Ok st' ->
  rows_no_self (length positions0) st'.
Proof.
  unfold PrimitiveNeighborList.image_step. destruct n as [[n1 n2] n3].
  intros Hsi Hst H. destruct (_ && _); [now inversion H; subst|].
  refine (foldM_inv (rows_no_self (length positions0)) _ _ st st' _ Hst H).
  intros t x t' Hx Ht Hf. eapply atom_step_no_self; try eassumption.
  now apply in_zrange in Hx.
Qed.

Lemma mirror_step_no_self (N : nat) (nd nd' : list (list Z) * list (list ivec3))
  (a : Z) (bd : Z * ivec3) :
  0 <= a < Z.of_nat N -> 0 <= fst bd < Z.of_nat N ->
  self_entry a bd = false ->
  aligned N (fst nd) (snd nd) /\ no_self_entry (fst nd) (snd nd) ->
  PrimitiveNeighborList.mirror_step nd a bd = Ok nd' ->
  aligned N (fst nd') (snd nd') /\ no_self_entry (fst nd') (snd nd').
Proof.
  intros Ha Hb Hs [Hal Hns] H.
  split; [exact (mirror_step_aligned N nd nd' a bd Ha Hal H)|].
  unfold PrimitiveNeighborList.mirror_step in H.
  inv_bind H. inv_bind H. inversion H; subst nd'; clear H. simpl.
  eapply no_self_extend; [exact Hal|exact Hns|exact Hb|eassumption|eassumption|].
  constructor; [|constructor]. destruct bd as [b d]. now apply self_entry_mirror.
Qed.

Lemma rows_entry_range (N : nat) (nb : list (list Z)) (dp : list (list ivec3))
  (p : nat) (row : list Z) (drow : list ivec3) (bd : Z * ivec3) :
  aligned N nb dp -> nth_error nb p = Some row -> In bd (combine row drow) ->
  0 <= fst bd < Z.of_nat N.
Proof.
  intros (_ & _ & _ & Hr) Hrow Hin. destruct bd as [b d].
  apply in_combine_l in Hin.
  pose proof (Forall_nth_error _ _ _ _ Hr Hrow) as Hf.
  rewrite Forall_forall in Hf. now apply Hf.
Qed.

End NoSelf.

Lemma in_combine_zrange_from {A : Type} (l : list A) (lo a : Z) (x : A) :
  In (a, x) (combine (zrange lo (lo + len l)) l) ->
  lo <= a < lo + len l /\ nth_error l (Z.to_nat (a - lo)) = Some x.
Proof.
  revert lo. induction l as [|y t IH]; intros lo H.
  - rewrite combine_nil in H. contradiction.
  - unfold len in *.
    replace (lo + Z.of_nat (length (y :: t)))
      with ((lo + 1) + Z.of_nat (length t)) in H by (simpl length; lia).
    rewrite zrange_cons in H by lia.
    cbn [combine In] in H. destruct H as [H|H].
    + inversion H; subst. rewrite Z.sub_diag. simpl length. split; [lia|reflexivity].
    + apply IH in H as [Hr Hn]. simpl length. split; [lia|].
      replace (Z.to_nat (a - lo)) with (S (Z.to_nat (a - (lo + 1)))) by lia.
      exact Hn.
Qed.

Lemma nth_error_combine {A B : Type} (l : list A) (l' : list B) (p : nat)
  (x : A) (y : B) :
  nth_error (combine l l') p = Some (x, y) ->
  nth_error l p = Some x /\ nth_error l' p = Some y.
Proof.
  revert l' p. induction l as [|u t IH]; intros [|v t'] [|p] H; simpl in *;
    try discriminate.
  - inversion H. auto.
  - now apply IH.
Qed.

Lemma nth_error_map_app {A : Type} (l l' : list (list A)) (p : nat) (r : list A) :
  nth_error (map (fun xy => fst xy ++ snd xy) (combine l l')) p = Some r ->
  exists r1 r2, nth_error l p = Some r1 /\ nth_error l' p = Some r2 /\ r = r1 ++ r2.
Proof.
  rewrite nth_error_map.
  destruct (nth_error (combine l l') p) as [[r1 r2]|] eqn:En; [|discriminate].
  simpl. intros H. injection H as <-. apply nth_error_combine in En as [E1 E2]. eauto.
Qed.

Section NoSelfBuild.
Context {E : Externals}.

Lemma add_mirrors_no_self (N : nat) (st st' : PrimitiveNeighborList.lists) :
  rows_no_self N st ->
  PrimitiveNeighborList.add_mirrors st = Ok st' ->
  rows_no_self N st'.
Proof.
  intros [Hal Hns] H. split; [eapply add_mirrors_aligned; eassumption|].
  unfold PrimitiveNeighborList.add_mirrors in H.
  inv_bind H. destruct x as [n2 d2]. inversion H; subst st'; clear H. simpl.
  pose proof Hal as (HN & HD & H2 & Hr). rewrite HN in Hx.
  assert (Hm : aligned N n2 d2 /\ no_self_entry n2 d2).
  { refine (foldM_inv (fun nd => aligned N (fst nd) (snd nd)
                                 /\ no_self_entry (fst nd) (snd nd)) _ _
              (@repeat (list Z) [] N, @repeat (list ivec3) [] N) (n2, d2) _ _ Hx).
    - intros t [a [row drow]] t' Hrow Ht Hf. simpl in Hf.
      rewrite <- HN in Hrow.
      replace (Z.of_nat (length (PrimitiveNeighborList.l_neighbors st)))
        with (len (combine (PrimitiveNeighborList.l_neighbors st)
                           (PrimitiveNeighborList.l_displacements st))) in Hrow
        by (unfold len; rewrite length_combine; lia).
      apply (in_combine_zrange_from _ 0) in Hrow as [Ha Hnth].
      rewrite Z.sub_0_r in Hnth. apply nth_error_combine in Hnth as [Hn1 Hn2].
      unfold len in Ha. rewrite length_combine in Ha.
      refine (foldM_inv (fun nd => aligned N (fst nd) (snd nd)
                                   /\ no_self_entry (fst nd) (snd nd)) _ _
                t t' _ Ht Hf).
      intros u bd u' Hbd Hu Hms.
      apply (mirror_step_no_self N u u' a bd); try assumption.
      + lia.
      + exact (rows_entry_range _ _ _ _ _ _ _ Hal Hn1 Hbd).
      + pose proof (Hns _ _ _ Hn1 Hn2) as Hf'. rewrite Forall_forall in Hf'.
        rewrite Z2Nat.id in Hf' by lia. now apply Hf'.
    - split; [apply aligned_repeat|].
      intros p r dr Hr1 Hr2. apply nth_error_In, repeat_spec in Hr1. subst r.
      constructor. }
  destruct Hm as [(Hn2 & Hd2 & H22 & _) Hns2].
  intros p r dr Hpr Hpd.
  apply nth_error_map_app in Hpr as (r1 & r2 & Hr1 & Hr2 & ->).
  apply nth_error_map_app in Hpd as (q1 & q2 & Hq1 & Hq2 & ->).
  rewrite combine_app_eq by exact (Forall2_nth_error _ _ _ _ _ _ H2 Hr1 Hq1).
  apply Forall_app. split; [exact (Hns _ _ _ Hr1 Hq1)|exact (Hns2 _ _ _ Hr2 Hq2)].
Qed.

Lemma sort_step_no_self (N : nat) (st st' : PrimitiveNeighborList.lists) (a : Z) :
  0 <= a < Z.of_nat N ->
  rows_no_self N st ->
  PrimitiveNeighborList.sort_step st a = Ok st' ->
  rows_no_self N st'.
Proof.
  intros Ha [Hal Hns] H. split; [eapply sort_step_aligned; eassumption|].
  unfold PrimitiveNeighborList.sort_step in H.
  inv_bind H. destruct (existsb _ _); [|now inversion H; subst].
  inv_bind H. inv_bind H. destruct x1 as [nb dp]. inv_bind H. inv_bind H.
  inv_bind H. inv_bind H. inversion H; subst st'; clear H. simpl.
  pose proof Hal as (HN & HD & H2 & Hr).
  assert (Hi : nth_error (PrimitiveNeighborList.l_neighbors st) (Z.to_nat a) = Some x)
    by (apply py_index_nth_error; [unfold len; lia|assumption]).
  assert (Hda : nth_error (PrimitiveNeighborList.l_displacements st) (Z.to_nat a)
                = Some x0)
    by (apply py_index_nth_error; [unfold len; lia|assumption]).
  assert (Hm : aligned N nb dp /\ no_self_entry nb dp).
  { refine (foldM_inv (fun nd => aligned N (fst nd) (snd nd)
                                 /\ no_self_entry (fst nd) (snd nd)) _ _
              (PrimitiveNeighborList.l_neighbors st,
               PrimitiveNeighborList.l_displacements st) (nb, dp) _
              (conj Hal Hns) Hx1).
    intros u bd u' Hbd Hu Hms. destruct bd as [b d].
    apply combine_mask_select_In in Hbd.
    apply (mirror_step_no_self N u u' a (b, d)); try assumption.
    - exact (rows_entry_range _ _ _ _ _ _ _ Hal Hi Hbd).
    - pose proof (Hns _ _ _ Hi Hda) as Hf'. rewrite Forall_forall in Hf'.
      rewrite Z2Nat.id in Hf' by lia. now apply Hf'. }
  destruct Hm as [(Hnn & Hdd & H22 & Hrr) Hns2].
  assert (Hia : nth_error nb (Z.to_nat a) = Some x1)
    by (apply py_index_nth_error; [unfold len; lia|assumption]).
  assert (Hdaa : nth_error dp (Z.to_nat a) = Some x3)
    by (apply py_index_nth_error; [unfold len; lia|assumption]).
  unfold py_set, len in Hx3, Hx5. rewrite Hnn in Hx3. rewrite Hdd in Hx5.
  rewrite py_norm_in_range in Hx3 by lia. rewrite py_norm_in_range in Hx5 by lia.
  inversion Hx3; inversion Hx5; subst x2 x4.
  intros p r dr Hpr Hpd.
  destruct (Nat.eq_dec (Z.to_nat a) p) as [<-|Hne].
  - rewrite nth_error_set_nth_eq in Hpr by lia.
    rewrite nth_error_set_nth_eq in Hpd by lia.
    inversion Hpr; inversion Hpd; subst r dr.
    pose proof (Hns2 _ _ _ Hia Hdaa) as Hf'. rewrite Forall_forall in *.
    intros bd Hbd. apply Hf'. destruct bd as [b d].
    eapply combine_mask_select_In; eassumption.
  - rewrite nth_error_set_nth_neq in Hpr by assumption.
    rewrite nth_error_set_nth_neq in Hpd by assumption.
    exact (Hns2 _ _ _ Hpr Hpd).
Qed.

Lemma build_no_self (self self' : PrimitiveNeighborList.t) (pbc_ : bvec3)
  (cell_ : mat3) (coordinates_ : list vec3) :
  PrimitiveNeighborList.self_interaction self = false ->
  PrimitiveNeighborList.build self pbc_ cell_ coordinates_ = Ok self' ->
  exists nb dp,
    PrimitiveNeighborList.neighbors self' = Some nb
    /\ PrimitiveNeighborList.displacements self' = Some dp
    /\ aligned (length coordinates_) nb dp /\ no_self_entry nb dp.
Proof.
  unfold PrimitiveNeighborList.build. intros Hsi H.
  destruct (negb _); [discriminate|].
  inv_bind H. destruct pbc_ as [[p0 p1] p2].
  inv_bind H. inv_bind H. inv_bind H. inv_bind H. inv_bind H. inv_bind H.
  inversion H; subst self'; clear H. simpl. do 2 eexists.
  split; [reflexivity|]. split; [reflexivity|].
  set (positions_ := if PrimitiveNeighborList.use_scaled_positions self
                     then map (fun s => vec_dot_mat s cell_) coordinates_
                     else coordinates_) in *.
  set (scaled := if PrimitiveNeighborList.use_scaled_positions self
                 then coordinates_
                 else map (fun p => vec_dot_mat p (pinv cell_)) coordinates_) in *.
  assert (Hp : length positions_ = length coordinates_).
  { unfold positions_. destruct (PrimitiveNeighborList.use_scaled_positions self);
      [apply length_map|reflexivity]. }
  assert (Hs : length scaled = length coordinates_).
  { unfold scaled. destruct (PrimitiveNeighborList.use_scaled_positions self);
      [reflexivity|apply length_map]. }
  rewrite Hp in *.
  match type of Hx3 with
  | foldM (PrimitiveNeighborList.image_step _ _ ?p0 _) _ _ = _ =>
      assert (Hp0 : length p0 = length coordinates_)
  end.
  { rewrite length_map, length_combine, length_map, length_combine, length_map.
    lia. }
  assert (H3 : rows_no_self (length coordinates_) x3).
  { rewrite <- Hp0.
    refine (foldM_inv (rows_no_self _) _ _ _ x3 _ _ Hx3).
    - intros t n t' _ Ht Hf. eapply image_step_no_self; eassumption.
    - rewrite Hp0. split; [apply aligned_repeat|].
      intros p r dr Hr1 Hr2. apply nth_error_In, repeat_spec in Hr1. subst r.
      constructor. }
  assert (H4 : rows_no_self (length coordinates_) x4).
  { destruct (PrimitiveNeighborList.bothways self);
      [eapply add_mirrors_no_self; eassumption|now inversion Hx4; subst]. }
  assert (H5 : rows_no_self (length coordinates_) x5).
  { destruct (PrimitiveNeighborList.sorted self); [|now inversion Hx5; subst].
    refine (foldM_inv (rows_no_self _) _ _ x4 x5 _ H4 Hx5).
    intros t a t' Ha Ht Hf. eapply sort_step_no_self; [|eassumption|eassumption].
    now apply in_zrange in Ha. }
  exact H5.
Qed.

(** X22: without [self_interaction], [get_neighbors a] never lists atom [a]
    itself with zero offset, whatever [bothways] and [sorted]. *)
Theorem primitive_no_self_neighbor (self self' : PrimitiveNeighborList.t)
  (pbc_ : bvec3) (cell_ : mat3) (coordinates_ : list vec3) (a : Z) :
  PrimitiveNeighborList.self_interaction self = false ->
  PrimitiveNeighborList.build self pbc_ cell_ coordinates_ = Ok self' ->
  0 <= a < len coordinates_ ->
  exists i d,
    PrimitiveNeighborList.get_neighbors self' a = Ok (i, d)
    /\ forall b sh, In (b, sh) (combine i d) -> ~ (b = a /\ sh = (0, 0, 0)).
Proof.
  intros Hsi Hb Ha.
  destruct (build_no_self _ _ _ _ _ Hsi Hb) as (nb & dp & Hn & Hd & Hal & Hns).
  destruct Hal as (Hln & Hld & H2 & Hr).
  unfold PrimitiveNeighborList.get_neighbors. rewrite Hn, Hd. simpl.
  unfold py_index, len in *. rewrite Hln, Hld, py_norm_in_range by lia.
  destruct (nth_error nb (Z.to_nat a)) as [i|] eqn:En;
    [|apply nth_error_None in En; lia].
  destruct (nth_error dp (Z.to_nat a)) as [d|] eqn:Ed;
    [|apply nth_error_None in Ed; lia].
  exists i, d. split; [reflexivity|]. intros b sh Hin [-> ->].
  pose proof (Hns _ _ _ En Ed) as Hf. rewrite Forall_forall in Hf.
  specialize (Hf _ Hin). rewrite Z2Nat.id in Hf by lia.
  unfold self_entry in Hf. simpl in Hf. rewrite Z.eqb_refl in Hf. discriminate.
Qed.

End NoSelfBuild.

(** ** [get_neighbors] beyond the last atom *)

Lemma py_set_length {A : Type} (l l' : list A) (k : Z) (v : A) :
  py_set l k v = Ok l' -> length l' = length l.
Proof.
  unfold py_set. destruct (py_norm (len l) k); [|discriminate].
  intros H. inversion H. apply length_set_nth.
Qed.

Lemma foldM_py_set_length (kv : list (Z * Z)) (s s' : list Z) :
  foldM (fun s kv => py_set s (fst kv) (snd kv)) kv s = Ok s' ->
  length s' = length s.
Proof.
  revert s. induction kv as [|x t IH]; simpl; intros s H.
  - now inversion H.
  - inv_bind H. rewrite (IH _ H). eapply py_set_length; eassumption.
Qed.

Lemma fill_loop_length (fuel : nat) (s s' : list Z) :
  fill_loop fuel s = Ok s' -> length s' = length s.
Proof.
  revert s. induction fuel as [|fuel IH]; simpl; intros s H.
  - destruct (existsb _ s); [discriminate|now inversion H].
  - destruct (existsb _ s); [|now inversion H].
    inv_bind H. rewrite (IH _ H). now apply fill_step_length.
Qed.

(** Whatever the list of first indices, the index that [first_neighbors]
    returns has one entry more than there are atoms. *)
Lemma first_neighbors_length (N : Z) (i s : list Z) :
  0 <= N -> first_neighbors N i = Ok s -> len s = N + 1.
Proof.
  intros HN. unfold first_neighbors, np_full.
  destruct (Z.ltb_spec (N + 1) 0) as [Hneg|_]; [lia|].
  destruct i as [|i0 i1].
  - intros Hs. inversion Hs. unfold len. rewrite repeat_length. lia.
  - cbn [bind]. intros Hs. inv_bind Hs. inv_bind Hs. inv_bind Hs.
    apply fill_loop_length in Hs. apply foldM_py_set_length in Hx1.
    apply py_set_length in Hx0, Hx. unfold len.
    rewrite Hs, Hx1, Hx0, Hx, repeat_length. lia.
Qed.

Lemma py_index_beyond {A : Type} (l : list A) (k : Z) :
  len l <= k -> py_index l k = Raise IndexError.
Proof.
  intros H. unfold py_index, py_norm.
  destruct (Z.ltb_spec k (len l)); [lia|]. rewrite andb_false_r.
  destruct (Z.ltb_spec k 0); [unfold len in *; lia|]. now rewrite andb_false_r.
Qed.

Section OutOfRange.
Context {E : Externals}.

(** X16: after [build], [get_neighbors a] raises [IndexError] for every
    [a] from the number of atoms on: the index of first neighbours has one
    entry more than there are atoms, and the slice reads entry [a + 1]. *)
Theorem get_neighbors_out_of_range (self self' : NeighborList.t) (atoms : Atoms)
  (a : Z) :
  NeighborList.build self atoms = Ok self' ->
  len (positions atoms) <= a ->
  NeighborList.get_neighbors self' a = Raise IndexError.
Proof.
  intros Hb Ha.
  destruct (build_fields _ _ _ Hb)
    as (full & kept & fn & _ & _ & _ & H2 & _ & H4 & Hfn).
  apply first_neighbors_length in Hfn; [|unfold len; lia].
  unfold NeighborList.get_neighbors. rewrite H2, H4. cbn [attr bind].
  destruct (py_index fn a) as [lo|e] eqn:Hlo; cbn [bind].
  - rewrite py_index_beyond by lia. reflexivity.
  - now rewrite (py_index_error _ _ _ Hlo).
Qed.

End OutOfRange.

(** ** The further properties at concrete configurations *)

Ltac in_list := repeat ((left; reflexivity) || right).

Lemma first_neighbors_ranges_example :
  exists s,
    first_neighbors 5 [0; 0; 2; 2; 2; 4] = Ok s
    /\ forall k, 0 <= k < 5 ->
         exists lo hi,
           py_index s k = Ok lo /\ py_index s (k + 1) = Ok hi
           /\ 0 <= lo <= hi /\ hi <= len [0; 0; 2; 2; 2; 4]
           /\ forall p, 0 <= p < len [0; 0; 2; 2; 2; 4] ->
                (lo <= p < hi <-> py_index [0; 0; 2; 2; 2; 4] p = Ok k).
Proof.
  apply (first_neighbors_ranges 5 [0; 0; 2; 2; 2; 4]).
  - lia.
  - repeat constructor; lia.
  - repeat constructor; lia.
Defined.

Lemma primitive_update_wrong_length_example :
  PrimitiveNeighborList.update (E := axis_externals)
    (PrimitiveNeighborList.init [1%float] 0.25%float false true false false)
    (false, false, false) (cube 10) [] = Raise ValueError.
Proof.
  apply (primitive_update_wrong_length (E := axis_externals)). discriminate.
Defined.

Local Open Scope float_scope.

Lemma neighbor_list_sorted_lone :
  exists rv,
    neighbor_list (E := axis_externals) quantities_all lone_periodic
      (CutScalar 2.5) true = Ok rv
    /\ exists out, rv = all_columns out /\ StronglySorted Z.le (map p_i out).
Proof.
  eexists. split; [vm_compute; reflexivity|].
  apply (neighbor_list_sorted (E := axis_externals) lone_periodic (CutScalar 2.5) true).
  vm_compute. reflexivity.
Defined.

Lemma neighbor_list_indices_dimer :
  exists rv,
    neighbor_list (E := axis_externals) quantities_all dimer (CutScalar 3) false = Ok rv
    /\ exists out, rv = all_columns out /\
       forall r, In r out ->
         (0 <= p_i r < len (positions dimer))%Z /\ (0 <= p_j r < len (positions dimer))%Z.
Proof.
  eexists. split; [vm_compute; reflexivity|].
  apply (neighbor_list_indices (E := axis_externals) dimer (CutScalar 3) false).
  vm_compute. reflexivity.
Defined.

Lemma neighbor_list_nonperiodic_dimer :
  exists rv,
    neighbor_list (E := axis_externals) quantities_all dimer (CutScalar 3) false = Ok rv
    /\ exists out, rv = all_columns out /\
       forall r, In r out -> shift_allowed (pbc dimer) (p_S r) = true.
Proof.
  eexists. split; [vm_compute; reflexivity|].
  apply (neighbor_list_nonperiodic (E := axis_externals) dimer (CutScalar 3) false).
  vm_compute. reflexivity.
Defined.

Lemma neighbor_list_radii_dimer :
  exists rv,
    neighbor_list (E := axis_externals) quantities_all dimer (CutArray [1.5; 1.5])
      false = Ok rv
    /\ exists out, rv = all_columns out /\
       forall r, In r out ->
         (exists pi pj,
             py_index (positions dimer) (p_i r) = Ok pi
             /\ py_index (positions dimer) (p_j r) = Ok pj
             /\ p_D r = vadd (vsub pj pi) (ivec_dot_mat (p_S r) (cell dimer)))
         /\ p_d r = sqrt (sqsum (p_D r))
         /\ exists ri rj,
             py_index [1.5; 1.5] (p_i r) = Ok ri /\ py_index [1.5; 1.5] (p_j r) = Ok rj
             /\ (p_d r <? ri + rj) = true.
Proof.
  eexists. split; [vm_compute; reflexivity|].
  apply (neighbor_list_radii (E := axis_externals) dimer [1.5; 1.5] false).
  vm_compute. reflexivity.
Defined.

Lemma neighbor_list_dict_dimer :
  exists rv,
    neighbor_list (E := axis_externals) quantities_all dimer
      (CutDict [(ElSym sym_H, ElSym sym_H, 2.5)]) false = Ok rv
    /\ exists out, rv = all_columns out /\
       forall r, In r out ->
         exists k1 k2 c,
           In (k1, k2, c) [(ElSym sym_H, ElSym sym_H, 2.5)]
           /\ entry_selects (numbers dimer) (to_number (E := axis_externals) k1)
                (to_number (E := axis_externals) k2) r = true
           /\ (p_d r <? c) = true.
Proof.
  eexists. split; [vm_compute; reflexivity|].
  apply (neighbor_list_dict (E := axis_externals) dimer
           [(ElSym sym_H, ElSym sym_H, 2.5)] false).
  vm_compute. reflexivity.
Defined.

Lemma neighbor_list_dict_last_dimer :
  exists rv,
    neighbor_list (E := axis_externals) quantities_all dimer
      (CutDict ([(ElSym sym_H, ElSym sym_H, 1)] ++ [(ElNum 1, ElNum 1, 2.5)]))
      false = Ok rv
    /\ exists out, rv = all_columns out /\
       forall r, In r out ->
         entry_selects (numbers dimer) (to_number (E := axis_externals) (ElNum 1))
           (to_number (E := axis_externals) (ElNum 1)) r = true ->
         (p_d r <? 2.5) = true.
Proof.
  eexists. split; [vm_compute; reflexivity|].
  apply (neighbor_list_dict_last (E := axis_externals) dimer
           [(ElSym sym_H, ElSym sym_H, 1)] (ElNum 1) (ElNum 1) 2.5 false).
  vm_compute. reflexivity.
Defined.

Lemma neighbor_list_unsupported_dimer :
  neighbor_list (E := axis_externals) quantities_ix dimer (CutScalar 3) false
  = Raise ValueError.
Proof.
  apply (neighbor_list_unsupported (E := axis_externals) quantities_ix dimer
           (CutScalar 3) false dimer_pairs "x"%char).
  - vm_compute. reflexivity.
  - vm_compute. in_list.
  - reflexivity.
Defined.

Lemma neighbor_list_columns_dimer :
  exists rv,
    neighbor_list (E := axis_externals) quantities_ijS dimer (CutScalar 3) false = Ok rv
    /\ exists out,
         neighbor_pairs (E := axis_externals) dimer (CutScalar 3) false = Ok out
         /\ length (retval_columns rv) = String.length quantities_ijS
         /\ Forall (fun c => column_len c = len out) (retval_columns rv)
         /\ (String.length quantities_ijS = 1%nat <-> exists c, rv = Single c).
Proof.
  eexists. split; [vm_compute; reflexivity|].
  apply (neighbor_list_columns (E := axis_externals) quantities_ijS dimer
           (CutScalar 3) false).
  vm_compute. reflexivity.
Defined.

Lemma neighbor_list_without_self_lone :
  exists rv,
    neighbor_list (E := axis_externals) quantities_all lone_periodic
      (CutScalar 2.5) true = Ok rv
    /\ exists out out',
         rv = all_columns out
         /\ neighbor_list (E := axis_externals) quantities_all lone_periodic
              (CutScalar 2.5) false = Ok (all_columns out')
         /\ Permutation out' (filter (fun r => negb (self_pair r)) out).
Proof.
  eexists. split; [vm_compute; reflexivity|].
  apply (neighbor_list_without_self (E := axis_externals) lone_periodic (CutScalar 2.5)).
  vm_compute. reflexivity.
Defined.

Lemma neighbor_list_first_neighbors_dimer :
  exists rv,
    neighbor_list (E := axis_externals) quantities_all dimer (CutScalar 3) false = Ok rv
    /\ exists out s,
         rv = all_columns out
         /\ first_neighbors (len (positions dimer)) (map p_i out) = Ok s
         /\ forall k, (0 <= k < len (positions dimer))%Z ->
              exists lo hi,
                py_index s k = Ok lo /\ py_index s (k + 1)%Z = Ok hi
                /\ py_slice out lo hi = filter (fun r => (p_i r =? k)%Z) out.
Proof.
  eexists. split; [vm_compute; reflexivity|].
  apply (neighbor_list_first_neighbors (E := axis_externals) dimer (CutScalar 3) false).
  vm_compute. reflexivity.
Defined.

Lemma get_neighbors_after_build_lone :
  exists built kept,
    NeighborList.build (E := axis_externals)
      (NeighborList.init [1] 0.25 false true false) lone_periodic = Ok built
    /\ stored built = Some kept
    /\ NeighborList.get_neighbors built 0 = Ok (neighbors_of 0 kept).
Proof.
  do 2 eexists. split; [vm_compute; reflexivity|]. split; [vm_compute; reflexivity|].
  apply (get_neighbors_after_build (E := axis_externals)
           (NeighborList.init [1] 0.25 false true false) _ lone_periodic).
  - vm_compute. reflexivity.
  - vm_compute. reflexivity.
  - left. reflexivity.
  - split; [lia|reflexivity].
Defined.

Lemma get_neighbors_bothways_lone :
  search_fits (E := axis_externals) lone_periodic (CutArray [1.25]) = true
  /\ exists built js ss,
    NeighborList.build (E := axis_externals)
      (NeighborList.init [1] 0.25 true false true) lone_periodic = Ok built
    /\ NeighborList.get_neighbors built 0 = Ok (js, ss)
    /\ In (0, (0, 0, 1))%Z (combine js ss)
    /\ exists js' ss',
         NeighborList.get_neighbors built 0 = Ok (js', ss')
         /\ In (0%Z, ivopp (0, 0, 1)%Z) (combine js' ss').
Proof.
  split; [vm_compute; reflexivity|].
  do 3 eexists. split; [vm_compute; reflexivity|]. split; [vm_compute; reflexivity|].
  split; [vm_compute; in_list|].
  eapply (get_neighbors_bothways (E := axis_externals)
            (NeighborList.init [1] 0.25 true false true) _ lone_periodic _ 0%Z 0%Z).
  - reflexivity.
  - vm_compute. reflexivity.
  - vm_compute. reflexivity.
  - right. repeat constructor.
  - vm_compute. reflexivity.
  - split; [lia|reflexivity].
  - vm_compute. reflexivity.
  - vm_compute. in_list.
  - reflexivity.
Defined.

Lemma get_neighbors_one_way_lone :
  exists built js ss,
    NeighborList.build (E := axis_externals)
      (NeighborList.init [1] 0.25 false true false) lone_periodic = Ok built
    /\ NeighborList.get_neighbors built 0 = Ok (js, ss)
    /\ In (0, (0, 0, 0))%Z (combine js ss)
    /\ (0 = 0)%Z /\ (0, 0, 0)%Z = (0, 0, 0)%Z.
Proof.
  do 3 eexists. split; [vm_compute; reflexivity|]. split; [vm_compute; reflexivity|].
  split; [vm_compute; in_list|].
  eapply (get_neighbors_one_way (E := axis_externals)
            (NeighborList.init [1] 0.25 false true false) _ lone_periodic _ 0%Z 0%Z
            (0, 0, 0)%Z).
  - reflexivity.
  - vm_compute. reflexivity.
  - vm_compute. reflexivity.
  - left. reflexivity.
  - split; [lia|reflexivity].
  - vm_compute. reflexivity.
  - vm_compute. in_list.
  - vm_compute. reflexivity.
  - vm_compute. in_list.
Defined.

Lemma build_within_radii_lone :
  exists built kept,
    NeighborList.build (E := axis_externals)
      (NeighborList.init [1] 0.25 false true false) lone_periodic = Ok built
    /\ stored built = Some kept
    /\ In (0, 0, (0, 0, 1))%Z kept
    /\ exists pi pj ci cj,
         py_index (positions lone_periodic) 0 = Ok pi
         /\ py_index (positions lone_periodic) 0 = Ok pj
         /\ py_index [1] 0 = Ok ci /\ py_index [1] 0 = Ok cj
         /\ (sqrt (sqsum (vadd (vsub pj pi)
                            (ivec_dot_mat (0, 0, 1)%Z (cell lone_periodic))))
             <? (ci + 0.25) + (cj + 0.25)) = true.
Proof.
  do 2 eexists. split; [vm_compute; reflexivity|]. split; [vm_compute; reflexivity|].
  split; [vm_compute; in_list|].
  eapply (build_within_radii (E := axis_externals) [1] 0.25 false true false _
            lone_periodic).
  - vm_compute. reflexivity.
  - vm_compute. reflexivity.
  - vm_compute. in_list.
Defined.

Lemma get_neighbors_out_of_range_lone :
  exists built,
    NeighborList.build (E := axis_externals)
      (NeighborList.init [1] 0.25 true true true) lone_periodic = Ok built
    /\ NeighborList.get_neighbors built 1 = Raise IndexError.
Proof.
  eexists. split; [vm_compute; reflexivity|].
  apply (get_neighbors_out_of_range (E := axis_externals)
           (NeighborList.init [1] 0.25 true true true) _ lone_periodic 1%Z).
  - vm_compute. reflexivity.
  - vm_compute. discriminate.
Defined.

Lemma unknown_species_ignored_dimer :
  species_absent (E := axis_externals) (numbers dimer) (ElSym sym_Xx)
    || species_absent (E := axis_externals) (numbers dimer) (ElNum 1%Z) = true
  /\ neighbor_list (E := axis_externals) quantities_all dimer
       (CutDict ([(ElSym sym_H, ElSym sym_H, 2.5)]
                 ++ (ElSym sym_Xx, ElNum 1%Z, 2) :: [])) false
     = neighbor_list (E := axis_externals) quantities_all dimer
         (CutDict ([(ElSym sym_H, ElSym sym_H, 2.5)] ++ [])) false.
Proof.
  split; [vm_compute; reflexivity|].
  apply (unknown_species_ignored (E := axis_externals) quantities_all dimer
           [(ElSym sym_H, ElSym sym_H, 2.5)] [] (ElSym sym_Xx) (ElNum 1%Z) 2 false).
  - vm_compute. reflexivity.
  - vm_compute. reflexivity.
Defined.



Lemma primitive_get_neighbors_rows_dimer :
  exists built,
    PrimitiveNeighborList.build (E := axis_externals)
      (PrimitiveNeighborList.init [1.5; 1.5] 0.25 true true true false)
      (pbc dimer) (cell dimer) (positions dimer) = Ok built
    /\ exists i d,
         PrimitiveNeighborList.get_neighbors built 1 = Ok (i, d)
         /\ length i = length d
         /\ Forall (fun b => (0 <= b < len (positions dimer))%Z) i.
Proof.
  eexists. split; [vm_compute; reflexivity|].
  apply (primitive_get_neighbors_rows (E := axis_externals)
           (PrimitiveNeighborList.init [1.5; 1.5] 0.25 true true true false) _
           (pbc dimer) (cell dimer) (positions dimer) 1%Z).
  - vm_compute. reflexivity.
  - split; [lia|reflexivity].
Defined.

Lemma primitive_no_self_neighbor_lone :
  exists built,
    PrimitiveNeighborList.build (E := axis_externals)
      (PrimitiveNeighborList.init [1] 0.25 false false true false)
      (pbc lone_periodic) (cell lone_periodic) (positions lone_periodic) = Ok built
    /\ exists i d,
         PrimitiveNeighborList.get_neighbors built 0 = Ok (i, d)
         /\ forall b sh, In (b, sh) (combine i d) -> ~ (b = 0%Z /\ sh = (0, 0, 0)%Z).
Proof.
  eexists. split; [vm_compute; reflexivity|].
  apply (primitive_no_self_neighbor (E := axis_externals)
           (PrimitiveNeighborList.init [1] 0.25 false false true false) _
           (pbc lone_periodic) (cell lone_periodic) (positions lone_periodic) 0%Z).
  - reflexivity.
  - vm_compute. reflexivity.
  - split; [lia|reflexivity].
Defined.

Lemma legacy_update_get_neighbors_dimer :
  exists nl,
    LegacyNeighborList.update (E := axis_externals)
      (LegacyNeighborList.init [1.5; 1.5] 0.25 false true false) dimer = Ok (true, nl)
    /\ exists i d,
         LegacyNeighborList.get_neighbors nl 0 = Ok (i, d)
         /\ length i = length d
         /\ Forall (fun b => (0 <= b < len (positions dimer))%Z) i.
Proof.
  eexists. split; [vm_compute; reflexivity|].
  eapply (legacy_update_get_neighbors (E := axis_externals)
           (LegacyNeighborList.init [1.5; 1.5] 0.25 false true false) _ dimer).
  - vm_compute. reflexivity.
  - split; [lia|reflexivity].
Defined.

Lemma mic_open_example :
  Forall2 (fun v w => vec_differs v w = false) [(1, 2, 3); (-4, 0, 12.5)]
    (mic (E := axis_externals) [(1, 2, 3); (-4, 0, 12.5)] (cube 10)
       (Some (false, false, false))).
Proof.
  apply (mic_open (E := axis_externals)); vm_compute; reflexivity.
Defined.

Lemma neighbor_list_self_interaction_lone :
  (exists rv,
     neighbor_list (E := axis_externals) quantities_all lone_periodic
       (CutScalar 2.5) false = Ok rv
     /\ exists out, rv = all_columns out /\
        forall r, In r out -> ~ (p_i r = p_j r /\ p_S r = (0, 0, 0)%Z))
  /\ atoms_finite lone_periodic = true
  /\ search_fits (E := axis_externals) lone_periodic (CutScalar 2.5) = true
  /\ (exists rv,
        neighbor_list (E := axis_externals) quantities_all lone_periodic
          (CutScalar 2.5) true = Ok rv
        /\ exists out, rv = all_columns out /\
           forall i, (0 <= i < len (positions lone_periodic))%Z ->
             length (filter (self_zero_pair i) out)
             = if self_within (E := axis_externals) lone_periodic (CutScalar 2.5) i
               then 1%nat else 0%nat).
Proof.
  destruct (neighbor_list_self_interaction (E := axis_externals) lone_periodic)
    as [Hoff Hon].
  split.
  - eexists. split; [vm_compute; reflexivity|].
    apply (Hoff (CutScalar 2.5)). vm_compute. reflexivity.
  - split; [vm_compute; reflexivity|]. split; [vm_compute; reflexivity|].
    eexists. split; [vm_compute; reflexivity|].
    apply (Hon (CutScalar 2.5)); vm_compute; reflexivity.
Defined.

(** A carbon atom with the positive cutoff [1.0] for the pairs of hydrogen
    and carbon, and with the cutoff infinity: [self_interaction = true]
    returns no pair of the atom with itself.  The dictionary gives the pair
    of carbon with carbon the cutoff zero; for infinity the loop radius
    of the bin search is [INT64_MIN] and the bin of the atom is only paired
    with itself at the shift [INT64_MIN]. *)
Lemma self_pair_missing :
  (exists out,
     neighbor_list (E := axis_externals) quantities_all lone_open
       (CutDict [(ElSym sym_H, ElSym sym_C, 1)]) true = Ok (all_columns out)
     /\ length (filter (self_zero_pair 0) out) = 0%nat)
  /\ (exists out,
        neighbor_list (E := axis_externals) quantities_all lone_open
          (CutScalar infinity) true = Ok (all_columns out)
        /\ length (filter (self_zero_pair 0) out) = 0%nat).
Proof. split; exists []; split; vm_compute; reflexivity. Qed.


